(** * A mutable NAND-gate network: shallow embedding of [examples/nand.c]

    The C module keeps a graph of NAND gates.  Every gate owns an array of
    input slots and a dynamic array of consumer records; slots and records
    point at each other.  The development below embeds the module function
    by function over an explicit store of gate records and proves the
    properties stated about it.

    Conventions of the embedding.
    - A [nand_t *] is a [handle] (a key of the store); [NULL] is [None] where
      an argument may be null.  Dereferencing a handle that is not in the
      store, reading an array out of bounds and a failed [assert] have no
      defined outcome: the computation is [Undef].
    - [unsigned] slot indices and counts are [nat]: the code never subtracts
      below zero, and the embedding assumes that a consumer list stays below
      the range of [unsigned].  [ssize_t] values are [Z].
    - The external booleans a slot may point at live in [bools], a valuation
      of signal addresses.
    - [errno] is a field of the world; every fallible allocation consumes one
      decision of the [alloc] oracle ([false]: the allocation fails; an
      exhausted oracle always succeeds).
    - [darray.h] and [stack.h] are not part of the sources at hand; their
      operations are modelled on lists. *)

From stdpp Require Import base gmap list numbers fin_maps relations.
From Stdlib Require Import ZArith Lia.

Open Scope Z_scope.

(** ** Data model *)

Definition handle := positive.
Definition sigref := positive.

Inductive input_type := EMPTY_INPUT | BOOLEAN_SIGNAL_INPUT | NAND_GATE_INPUT.

Inductive topo_sort_status := VISITED | NOT_VISITED | CURRENTLY_PROCESSING.

(** The [void *ptr] of a slot: null, the address of an external boolean, or
    the address of a gate. *)
Inductive vptr := NULL | BoolPtr (s : sigref) | GatePtr (g : handle).

Global Instance input_type_eq_dec : EqDecision input_type.
Proof. solve_decision. Defined.
Global Instance status_eq_dec : EqDecision topo_sort_status.
Proof. solve_decision. Defined.
Global Instance vptr_eq_dec : EqDecision vptr.
Proof. solve_decision. Defined.

Record dfs_info_t := DfsInfo { d_gate : handle; d_ind : nat }.

Record out_info_t := OutInfo { o_gate : handle; o_ind : nat }.

Record in_info_t := InInfo { i_ptr : vptr; i_type : input_type; i_ind : nat }.

Global Instance out_info_eq_dec : EqDecision out_info_t.
Proof. solve_decision. Defined.
Global Instance in_info_eq_dec : EqDecision in_info_t.
Proof. solve_decision. Defined.

Record nand_t := Nand {
  crit_path_len : Z;
  inputs : list in_info_t;
  outputs : list out_info_t;
  input_count : nat;
  status : topo_sort_status;
  signal : bool
}.

Definition with_crit (c : Z) (x : nand_t) : nand_t :=
  Nand c (inputs x) (outputs x) (input_count x) (status x) (signal x).
Definition with_inputs (i : list in_info_t) (x : nand_t) : nand_t :=
  Nand (crit_path_len x) i (outputs x) (input_count x) (status x) (signal x).
Definition with_outputs (o : list out_info_t) (x : nand_t) : nand_t :=
  Nand (crit_path_len x) (inputs x) o (input_count x) (status x) (signal x).
Definition with_status (s : topo_sort_status) (x : nand_t) : nand_t :=
  Nand (crit_path_len x) (inputs x) (outputs x) (input_count x) s (signal x).
Definition with_signal (b : bool) (x : nand_t) : nand_t :=
  Nand (crit_path_len x) (inputs x) (outputs x) (input_count x) (status x) b.

Definition empty_input : in_info_t := InInfo NULL EMPTY_INPUT 0.

(** Error numbers of [<errno.h>] (the values of Linux; only their being
    distinct and non-zero matters). *)
Definition EINVAL : Z := 22.
Definition ENOMEM : Z := 12.
Definition ECANCELED : Z := 125.

(** ** The world and the monad of the embedding *)

Record world := World {
  heap : gmap handle nand_t;
  bools : sigref -> bool;
  errno : Z;
  alloc : list bool
}.

Definition set_heap (h : gmap handle nand_t) (w : world) : world :=
  World h (bools w) (errno w) (alloc w).
Definition set_errno_w (e : Z) (w : world) : world :=
  World (heap w) (bools w) e (alloc w).
Definition set_alloc (a : list bool) (w : world) : world :=
  World (heap w) (bools w) (errno w) a.

Inductive res (A : Type) : Type :=
| Ret (a : A)
| Undef
| Timeout.
Arguments Ret {A} a.
Arguments Undef {A}.
Arguments Timeout {A}.

Definition M (A : Type) : Type := world -> res (A * world).

Definition ret {A} (a : A) : M A := fun w => Ret (a, w).

Definition bind {A B} (m : M A) (k : A -> M B) : M B :=
  fun w =>
    match m w with
    | Ret (a, w') => k a w'
    | Undef => Undef
    | Timeout => Timeout
    end.

Notation "'let*' p ':=' m 'in' k" := (bind m (fun p => k))
  (at level 10, p pattern, m at level 100, k at level 200).
Notation "m ;; k" := (bind m (fun _ => k))
  (at level 100, right associativity).

Definition undef {A} : M A := fun _ => Undef.
Definition timeout {A} : M A := fun _ => Timeout.

Definition assert (b : bool) : M unit := if b then ret tt else undef.

Definition set_errno (e : Z) : M unit := fun w => Ret (tt, set_errno_w e w).

(** One decision of the allocator. *)
Definition malloc_ok : M bool :=
  fun w =>
    match alloc w with
    | [] => Ret (true, w)
    | b :: a => Ret (b, set_alloc a w)
    end.

(** [*g] for reading. *)
Definition deref (g : handle) : M nand_t :=
  fun w =>
    match heap w !! g with
    | Some x => Ret (x, w)
    | None => Undef
    end.

(** [*g = f( *g )]: an update of fields of a live gate. *)
Definition modify (g : handle) (f : nand_t -> nand_t) : M unit :=
  fun w =>
    match heap w !! g with
    | Some x => Ret (tt, set_heap (<[g := f x]> (heap w)) w)
    | None => Undef
    end.

(** [a[i]] on a C array. *)
Definition array_get {A} (a : list A) (i : nat) : M A :=
  match a !! i with
  | Some x => ret x
  | None => undef
  end.

(** [g->inputs[k] = f (g->inputs[k])]. *)
Definition modify_input (g : handle) (k : nat) (f : in_info_t -> in_info_t)
  : M unit :=
  let* x := deref g in
  let* i := array_get (inputs x) k in
  modify g (fun x => with_inputs (<[k := f i]> (inputs x)) x).

(** ** Dynamic arrays and stacks *)

(** Modelled from the spec: [darray.h] is missing from the sources.  The
    consumer list is an "unordered, growable list of consumer records" with
    swap of two records, removal of the last record and append; it is a list,
    the append may fail for want of memory and then leaves the array as it
    was, and an index outside the array has no defined outcome. *)
Definition darray_size {A} (d : list A) : nat := length d.

Definition darray_get {A} (d : list A) (i : Z) : M A :=
  if (0 <=? i) && (i <? Z.of_nat (length d))
  then array_get d (Z.to_nat i)
  else undef.

Definition darray_back {A} (d : list A) : M A :=
  match length d with
  | O => undef
  | S n => array_get d n
  end.

Definition darray_swap_elements {A} (d : list A) (i j : nat) : M (list A) :=
  let* x := array_get d i in
  let* y := array_get d j in
  ret (<[j := x]> (<[i := y]> d)).

Definition darray_pop_back {A} (d : list A) : M (list A) :=
  match length d with
  | O => undef
  | S n => ret (take n d)
  end.

Definition darray_push_back {A} (d : list A) (x : A) : M (Z * list A) :=
  let* ok := malloc_ok in
  if ok then ret (0, d ++ [x]) else ret (-1, d).

(** Modelled from the spec: [stack.h] is missing from the sources.  The
    evaluator uses an "explicit stack of frames"; a stack is a list whose
    head is the top, a push may fail for want of memory and then leaves the
    stack as it was, creating a stack may fail and yields [NULL], and the top
    of an empty stack has no defined outcome. *)
Definition stack_t (A : Type) : Type := list A.

Definition stack_new {A} : M (option (stack_t A)) :=
  let* ok := malloc_ok in
  ret (if ok then Some [] else None).

Definition stack_size {A} (s : stack_t A) : nat := length s.

Definition stack_top {A} (s : stack_t A) : M A :=
  match s with
  | x :: _ => ret x
  | [] => undef
  end.

Definition stack_pop {A} (s : stack_t A) : M (stack_t A) :=
  match s with
  | _ :: s' => ret s'
  | [] => undef
  end.

Definition stack_push {A} (s : stack_t A) (x : A) : M (Z * stack_t A) :=
  let* ok := malloc_ok in
  if ok then ret (0, x :: s) else ret (-1, s).

Definition stack_reverse {A} (s : stack_t A) : stack_t A := reverse s.

(** ** Connection manager *)

Definition nand_disconnect_nand (g_out g_in : handle) (in_ind : nat) : M unit :=
  let* gi := deref g_in in
  assert (bool_decide (in_ind < input_count gi)%nat) ;;
  let* slot := array_get (inputs gi) in_ind in
  let out_ind := i_ind slot in
  let* go := deref g_out in
  let g_out_sz := darray_size (outputs go) in
  assert (bool_decide (out_ind < g_out_sz)%nat) ;;
  (if bool_decide (out_ind + 1 ≠ g_out_sz)%nat then
     let* o := darray_swap_elements (outputs go) out_ind (g_out_sz - 1) in
     modify g_out (with_outputs o) ;;
     let* go := deref g_out in
     let* out_info := darray_get (outputs go) (Z.of_nat out_ind) in
     modify_input (o_gate out_info) (o_ind out_info)
       (fun i => InInfo (i_ptr i) (i_type i) out_ind)
   else ret tt) ;;
  let* go := deref g_out in
  let* o := darray_pop_back (outputs go) in
  modify g_out (with_outputs o) ;;
  modify_input g_in in_ind (fun _ => empty_input).

Definition nand_disconnect_signal (g : handle) (k : nat) : M unit :=
  let* x := deref g in
  assert (bool_decide (k < input_count x)%nat) ;;
  modify_input g k (fun _ => empty_input).

Definition nand_disconnect_input (g : handle) (k : nat) : M unit :=
  let* x := deref g in
  let* slot := array_get (inputs x) k in
  (if bool_decide (i_type slot = BOOLEAN_SIGNAL_INPUT)
   then nand_disconnect_signal g k else ret tt) ;;
  let* x := deref g in
  let* slot := array_get (inputs x) k in
  if bool_decide (i_type slot = NAND_GATE_INPUT)
  then match i_ptr slot with
       | GatePtr s => nand_disconnect_nand s g k
       | _ => undef
       end
  else ret tt.

(** ** Gate store *)

(** The address [malloc] returns for a new gate: one that is not in use. *)
Definition malloc_gate (x : nand_t) : M handle :=
  fun w =>
    let g := fresh (dom (heap w)) in
    Ret (g, set_heap (<[g := x]> (heap w)) w).

(** [free(g)] after its arrays are released. *)
Definition free_gate (g : handle) : M unit :=
  fun w =>
    match heap w !! g with
    | Some _ => Ret (tt, set_heap (delete g (heap w)) w)
    | None => Undef
    end.

Definition nand_new (n : nat) : M (option handle) :=
  let* g_ok := malloc_ok in
  if negb g_ok then set_errno ENOMEM ;; ret None
  else
    let* outputs_ok := malloc_ok in
    let* inputs_ok := malloc_ok in
    if negb outputs_ok || negb inputs_ok
    then set_errno ENOMEM ;; ret None
    else
      let* g := malloc_gate
                  (Nand 0 (replicate n empty_input) [] n NOT_VISITED false) in
      ret (Some g).

(** [for (unsigned i = from; i < from + count; i++) body(i)]. *)
Fixpoint for_loop (from count : nat) (body : nat -> M unit) : M unit :=
  match count with
  | O => ret tt
  | S c => body from ;; for_loop (S from) c body
  end.

(** The second loop of [nand_delete]; every round removes one record of
    [g->outputs], so the size of the array at entry bounds the rounds. *)
Fixpoint delete_outputs (fuel : nat) (g : handle) : M unit :=
  let* x := deref g in
  if bool_decide (0 < darray_size (outputs x))%nat then
    match fuel with
    | O => timeout
    | S fuel' =>
        let* info := darray_back (outputs x) in
        nand_disconnect_nand g (o_gate info) (o_ind info) ;;
        delete_outputs fuel' g
    end
  else ret tt.

(** The first loop of [nand_delete]. *)
Definition delete_inputs (g : handle) : M unit :=
  let* x := deref g in
  for_loop 0 (input_count x) (fun i =>
    let* x := deref g in
    let* slot := array_get (inputs x) i in
    if bool_decide (i_type slot ≠ EMPTY_INPUT)
    then nand_disconnect_input g i
    else ret tt).

Definition nand_delete (g : option handle) : M unit :=
  match g with
  | None => ret tt
  | Some g =>
      delete_inputs g ;;
      let* x := deref g in
      delete_outputs (darray_size (outputs x)) g ;;
      free_gate g
  end.

Definition nand_connect_nand (g_out g_in : option handle) (k : nat) : M Z :=
  match g_out, g_in with
  | Some g_out, Some g_in =>
      let* gi := deref g_in in
      if bool_decide (input_count gi <= k)%nat
      then set_errno EINVAL ;; ret (-1)
      else
        let* slot := array_get (inputs gi) k in
        if bool_decide (i_ptr slot = GatePtr g_out) then ret 0
        else
          let* go := deref g_out in
          let* (rc, o) := darray_push_back (outputs go) (OutInfo g_in k) in
          if bool_decide (rc = -1) then set_errno ENOMEM ;; ret (-1)
          else
            modify g_out (with_outputs o) ;;
            nand_disconnect_input g_in k ;;
            let* go := deref g_out in
            modify_input g_in k (fun _ =>
              InInfo (GatePtr g_out) NAND_GATE_INPUT
                     (darray_size (outputs go) - 1)) ;;
            ret 0
  | _, _ => set_errno EINVAL ;; ret (-1)
  end.

Definition nand_connect_signal (s : option sigref) (g : option handle)
    (k : nat) : M Z :=
  match s, g with
  | Some s, Some g =>
      let* x := deref g in
      if bool_decide (input_count x <= k)%nat
      then set_errno EINVAL ;; ret (-1)
      else
        nand_disconnect_input g k ;;
        modify_input g k (fun _ => InInfo (BoolPtr s) BOOLEAN_SIGNAL_INPUT 0) ;;
        ret 0
  | _, _ => set_errno EINVAL ;; ret (-1)
  end.

(** ** Queries *)

Definition nand_fan_out (g : option handle) : M Z :=
  match g with
  | None => set_errno EINVAL ;; ret (-1)
  | Some g => let* x := deref g in ret (Z.of_nat (darray_size (outputs x)))
  end.

Definition nand_input (g : option handle) (k : nat) : M vptr :=
  match g with
  | None => set_errno EINVAL ;; ret NULL
  | Some g =>
      let* x := deref g in
      if bool_decide (input_count x <= k)%nat
      then set_errno EINVAL ;; ret NULL
      else
        let* slot := array_get (inputs x) k in
        if bool_decide (i_type slot = EMPTY_INPUT)
        then set_errno 0 ;; ret NULL
        else ret (i_ptr slot)
  end.

Definition nand_output (g : option handle) (k : Z) : M (option handle) :=
  match g with
  | None => set_errno EINVAL ;; ret None
  | Some g' =>
      let* fan := nand_fan_out g in
      if bool_decide (fan <= k)
      then set_errno EINVAL ;; ret None
      else
        let* x := deref g' in
        let* info := darray_get (outputs x) k in
        ret (Some (o_gate info))
  end.

(** ** Topological evaluator *)

Definition process_input_nand (g : handle) (stack : stack_t dfs_info_t)
    (all_gates : stack_t handle)
  : M (Z * stack_t dfs_info_t * stack_t handle) :=
  let* x := deref g in
  if bool_decide (status x = CURRENTLY_PROCESSING)
  then set_errno ECANCELED ;; ret (-1, stack, all_gates)
  else if bool_decide (status x = NOT_VISITED)
  then
    let* (rc, all_gates) := stack_push all_gates g in
    if bool_decide (rc ≠ 0) then set_errno ENOMEM ;; ret (-1, stack, all_gates)
    else
      modify g (with_status CURRENTLY_PROCESSING) ;;
      let* (rc, stack) := stack_push stack (DfsInfo g 0) in
      if bool_decide (rc ≠ 0)
      then set_errno ENOMEM ;; ret (-1, stack, all_gates)
      else ret (0, stack, all_gates)
  else ret (0, stack, all_gates).

Definition process_input (input : in_info_t) (stack : stack_t dfs_info_t)
    (all_gates : stack_t handle)
  : M (Z * stack_t dfs_info_t * stack_t handle) :=
  if bool_decide (i_type input = EMPTY_INPUT)
  then set_errno ECANCELED ;; ret (-1, stack, all_gates)
  else if bool_decide (i_type input = NAND_GATE_INPUT)
  then
    match i_ptr input with
    | GatePtr h =>
        let* (rc, stack, all_gates) := process_input_nand h stack all_gates in
        if bool_decide (rc ≠ 0) then ret (-1, stack, all_gates)
        else ret (0, stack, all_gates)
    | _ => undef
    end
  else ret (0, stack, all_gates).

Definition process_node (stack : stack_t dfs_info_t)
    (topo_order all_gates : stack_t handle)
  : M (Z * stack_t dfs_info_t * stack_t handle * stack_t handle) :=
  let* dfs_info := stack_top stack in
  let* stack := stack_pop stack in
  let g := d_gate dfs_info in
  let k := d_ind dfs_info in
  let* x := deref g in
  if bool_decide (k = input_count x)
  then
    modify g (with_status VISITED) ;;
    let* (rc, topo_order) := stack_push topo_order g in
    if bool_decide (rc ≠ 0)
    then set_errno ENOMEM ;; ret (-1, stack, topo_order, all_gates)
    else ret (0, stack, topo_order, all_gates)
  else
    let dfs_info := DfsInfo g (S k) in
    let* (rc, stack) := stack_push stack dfs_info in
    if bool_decide (rc ≠ 0)
    then set_errno ENOMEM ;; ret (-1, stack, topo_order, all_gates)
    else
      let* x := deref g in
      let* input := array_get (inputs x) k in
      let* (rc, stack, all_gates) := process_input input stack all_gates in
      ret (rc, stack, topo_order, all_gates).

(** The loop of [topo_sort_dfs]. *)
Fixpoint dfs_loop (fuel : nat) (stack : stack_t dfs_info_t)
    (topo_order all_gates : stack_t handle)
  : M (Z * stack_t dfs_info_t * stack_t handle * stack_t handle) :=
  if bool_decide (0 < stack_size stack)%nat then
    match fuel with
    | O => timeout
    | S fuel' =>
        let* (rc, stack, topo_order, all_gates) :=
          process_node stack topo_order all_gates in
        if bool_decide (rc ≠ 0) then ret (-1, stack, topo_order, all_gates)
        else dfs_loop fuel' stack topo_order all_gates
    end
  else ret (0, stack, topo_order, all_gates).

(** Work left for the traversal in the gates it has not met yet: a gate of
    [n] inputs is taken from the stack [n + 1] times. *)
Definition unvisited_work (h : gmap handle nand_t) : nat :=
  map_fold (fun _ x acc =>
              (if bool_decide (status x = NOT_VISITED)
               then S (input_count x) else 0) + acc)%nat 0%nat h.

(** A bound on the rounds of the loop started at a gate of [n] inputs. *)
Definition dfs_fuel (n : nat) : M nat :=
  fun w => Ret ((S n + unvisited_work (heap w))%nat, w).

Definition topo_sort_dfs (g : handle) (stack : stack_t dfs_info_t)
    (topo_order all_gates : stack_t handle)
  : M (Z * stack_t dfs_info_t * stack_t handle * stack_t handle) :=
  let dfs_info := DfsInfo g 0 in
  let* (rc, all_gates) := stack_push all_gates g in
  if bool_decide (rc ≠ 0)
  then set_errno ENOMEM ;; ret (-1, stack, topo_order, all_gates)
  else
    let* (rc, stack) := stack_push stack dfs_info in
    if bool_decide (rc ≠ 0)
    then set_errno ENOMEM ;; ret (-1, stack, topo_order, all_gates)
    else
      modify g (with_status CURRENTLY_PROCESSING) ;;
      let* x := deref g in
      let* fuel := dfs_fuel (input_count x) in
      dfs_loop fuel stack topo_order all_gates.

Fixpoint clear_gates (all_gates : stack_t handle) : M unit :=
  match all_gates with
  | [] => ret tt
  | h :: all_gates' =>
      modify h (with_status NOT_VISITED) ;;
      clear_gates all_gates'
  end.

(** The loop of [topo_sort] over the requested gates. *)
Fixpoint topo_sort_loop (g : list handle) (stack : stack_t dfs_info_t)
    (topo_order all_gates : stack_t handle)
  : M (Z * stack_t dfs_info_t * stack_t handle * stack_t handle) :=
  match g with
  | [] => ret (0, stack, topo_order, all_gates)
  | gi :: g' =>
      let* x := deref gi in
      if bool_decide (status x = VISITED)
      then topo_sort_loop g' stack topo_order all_gates
      else
        let* (rc, stack, topo_order, all_gates) :=
          topo_sort_dfs gi stack topo_order all_gates in
        if bool_decide (rc ≠ 0) then ret (-1, stack, topo_order, all_gates)
        else topo_sort_loop g' stack topo_order all_gates
  end.

Definition topo_sort (g : list handle) (topo_order : stack_t handle)
  : M (Z * stack_t handle) :=
  let* stack := stack_new in
  match stack with
  | None => set_errno ENOMEM ;; ret (-1, topo_order)
  | Some stack =>
      let* all_gates := stack_new in
      match all_gates with
      | None => set_errno ENOMEM ;; ret (-1, topo_order)
      | Some all_gates =>
          let* (rc, stack, topo_order, all_gates) :=
            topo_sort_loop g stack topo_order all_gates in
          clear_gates all_gates ;;
          ret (rc, stack_reverse topo_order)
      end
  end.

(** [*s] for an external boolean. *)
Definition read_bool (s : sigref) : M bool := fun w => Ret (bools w s, w).

(** The body of the loop of [evaluate_sorted] for the gate [g] on top. *)
Definition evaluate_input (g : handle) (i : nat) : M unit :=
  let* x := deref g in
  let* slot := array_get (inputs x) i in
  assert (bool_decide (i_type slot ≠ EMPTY_INPUT)) ;;
  if bool_decide (i_type slot = BOOLEAN_SIGNAL_INPUT)
  then
    (if bool_decide (crit_path_len x < 1)
     then modify g (with_crit 1) else ret tt) ;;
    match i_ptr slot with
    | BoolPtr s =>
        let* b := read_bool s in
        modify g (fun x => with_signal (signal x && b) x)
    | _ => undef
    end
  else
    match i_ptr slot with
    | GatePtr h =>
        let* hx := deref h in
        (if bool_decide (crit_path_len x < crit_path_len hx + 1)
         then modify g (with_crit (crit_path_len hx + 1)) else ret tt) ;;
        let* hx := deref h in
        modify g (fun x => with_signal (signal x && signal hx) x)
    | _ => undef
    end.

Definition evaluate_gate (g : handle) : M unit :=
  modify g (with_signal true) ;;
  modify g (with_crit 0) ;;
  let* x := deref g in
  for_loop 0 (input_count x) (evaluate_input g) ;;
  modify g (fun x => with_signal (negb (signal x)) x).

Fixpoint evaluate_sorted (s : stack_t handle) : M unit :=
  match s with
  | [] => ret tt
  | g :: s' => evaluate_gate g ;; evaluate_sorted s'
  end.

(** The last loop of [nand_evaluate_all]: [s[i] = g[i]->signal] and the
    running maximum [l]; [i] counts the gates already copied. *)
Fixpoint collect_results (g : list handle) (i : nat) (s : list bool) (l : Z)
  : M (Z * list bool) :=
  match g with
  | [] => ret (l, s)
  | gi :: g' =>
      let* x := deref gi in
      if bool_decide (i < length s)%nat
      then collect_results g' (S i) (<[i := signal x]> s)
             (if bool_decide (l < crit_path_len x) then crit_path_len x else l)
      else undef
  end.

Definition nand_evaluate_all (g : list handle) (s : list bool)
  : M (Z * list bool) :=
  let* topo_order := stack_new in
  match topo_order with
  | None => set_errno ENOMEM ;; ret (-1, s)
  | Some topo_order =>
      let* (rc, topo_order) := topo_sort g topo_order in
      if bool_decide (rc ≠ 0) then ret (-1, s)
      else
        evaluate_sorted topo_order ;;
        collect_results g 0 s 0
  end.

(** [g] is the array of [m] gate pointers and [s] the caller's buffer; a
    null array is [None], and [m] is the length of [g]. *)
Definition nand_evaluate (g : option (list (option handle)))
    (s : option (list bool)) : M (Z * option (list bool)) :=
  match g, s with
  | Some g, Some s' =>
      if bool_decide (length g = 0%nat)
      then set_errno EINVAL ;; ret (-1, s)
      else
        match mapM id g with
        | None => set_errno EINVAL ;; ret (-1, s)
        | Some gs =>
            let* (l, s') := nand_evaluate_all gs s' in
            ret (l, Some s')
        end
  | _, _ => set_errno EINVAL ;; ret (-1, s)
  end.

(** * Reasoning about computations *)

(** [post m w Q]: run from [w], [m] returns (it is neither undefined nor out
    of fuel) and its result and final world satisfy [Q]. *)
Definition post {A} (m : M A) (w : world) (Q : A -> world -> Prop) : Prop :=
  match m w with
  | Ret (a, w') => Q a w'
  | Undef => False
  | Timeout => False
  end.

Lemma post_ret {A} (a : A) w Q : Q a w -> post (ret a) w Q.
Proof. done. Qed.

Lemma post_bind {A B} (m : M A) (k : A -> M B) w Q :
  post m w (fun a w' => post (k a) w' Q) -> post (bind m k) w Q.
Proof. unfold post, bind. by destruct (m w) as [[a w']| |]. Qed.

Lemma post_bind_inv {A B} (m : M A) (k : A -> M B) w Q :
  post (bind m k) w Q -> post m w (fun a w' => post (k a) w' Q).
Proof. unfold post, bind. by destruct (m w) as [[a w']| |]. Qed.

Lemma post_mono {A} (m : M A) w (P Q : A -> world -> Prop) :
  post m w P -> (forall a w', P a w' -> Q a w') -> post m w Q.
Proof. unfold post. destruct (m w) as [[a w']| |]; auto. Qed.

Lemma post_run {A} (m : M A) w Q :
  post m w Q <-> exists a w', m w = Ret (a, w') /\ Q a w'.
Proof.
  unfold post. split.
  - destruct (m w) as [[a w']| |]; [eauto | done | done].
  - intros (a & w' & -> & HQ). done.
Qed.

Lemma post_and {A} (m : M A) w (P Q : A -> world -> Prop) :
  post m w P -> post m w Q -> post m w (fun a w' => P a w' /\ Q a w').
Proof. unfold post. destruct (m w) as [[a w']| |]; auto. Qed.

Lemma post_deref g w x Q :
  heap w !! g = Some x -> Q x w -> post (deref g) w Q.
Proof. unfold post, deref. by intros ->. Qed.

Lemma post_modify g f w x Q :
  heap w !! g = Some x ->
  Q tt (set_heap (<[g := f x]> (heap w)) w) ->
  post (modify g f) w Q.
Proof. unfold post, modify. by intros ->. Qed.

Lemma post_array_get {A} (a : list A) i x w Q :
  a !! i = Some x -> Q x w -> post (array_get a i) w Q.
Proof. unfold post, array_get. by intros ->. Qed.

Lemma post_assert (b : bool) w Q : b = true -> Q tt w -> post (assert b) w Q.
Proof. by intros ->. Qed.

Lemma post_set_errno e w Q :
  Q tt (set_errno_w e w) -> post (set_errno e) w Q.
Proof. done. Qed.

(** * The store seen as two partial maps *)

Section store.
Implicit Types (h : gmap handle nand_t) (g S T : handle) (k j : nat).

(** Slot [k] of gate [T]. *)
Definition slot h T k : option in_info_t :=
  x ← h !! T; inputs x !! k.

(** Consumer record [j] of gate [S]. *)
Definition orec h S j : option out_info_t :=
  x ← h !! S; outputs x !! j.

(** [g->inputs[k] = v] and [g->outputs = o] on the store. *)
Definition set_slot g k (v : in_info_t) h : gmap handle nand_t :=
  match h !! g with
  | Some x => <[g := with_inputs (<[k := v]> (inputs x)) x]> h
  | None => h
  end.

Definition set_outputs g (o : list out_info_t) h : gmap handle nand_t :=
  match h !! g with
  | Some x => <[g := with_outputs o x]> h
  | None => h
  end.

Lemma lookup_set_slot g k v h T :
  set_slot g k v h !! T =
  if decide (T = g)
  then (fun x => with_inputs (<[k := v]> (inputs x)) x) <$> h !! g
  else h !! T.
Proof.
  unfold set_slot. destruct (h !! g) as [x|] eqn:E.
  - rewrite lookup_insert. repeat case_decide; naive_solver.
  - case_decide; by subst.
Qed.

Lemma lookup_set_outputs g o h T :
  set_outputs g o h !! T =
  if decide (T = g) then with_outputs o <$> h !! g else h !! T.
Proof.
  unfold set_outputs. destruct (h !! g) as [x|] eqn:E.
  - rewrite lookup_insert. repeat case_decide; naive_solver.
  - case_decide; by subst.
Qed.

Lemma slot_set_slot g k v h T j :
  is_Some (slot h g k) ->
  slot (set_slot g k v h) T j =
  if decide (T = g /\ j = k) then Some v else slot h T j.
Proof.
  unfold slot. intros [i Hi]. rewrite lookup_set_slot.
  destruct (h !! g) as [x|] eqn:E; [|done]. simpl in Hi.
  apply lookup_lt_Some in Hi as Hlt.
  destruct (decide (T = g)) as [->|].
  - rewrite E. simpl. destruct (decide (j = k)) as [->|].
    + rewrite list_lookup_insert_eq by done. by rewrite decide_True.
    + rewrite list_lookup_insert_ne by done. rewrite decide_False; naive_solver.
  - rewrite decide_False; naive_solver.
Qed.

Lemma orec_set_slot g k v h S j : orec (set_slot g k v h) S j = orec h S j.
Proof.
  unfold orec. rewrite lookup_set_slot. case_decide; [subst|done].
  by destruct (h !! g).
Qed.

Lemma slot_set_outputs g o h T j : slot (set_outputs g o h) T j = slot h T j.
Proof.
  unfold slot. rewrite lookup_set_outputs. case_decide; [subst|done].
  by destruct (h !! g).
Qed.

Lemma orec_set_outputs g o h S j :
  is_Some (h !! g) ->
  orec (set_outputs g o h) S j =
  if decide (S = g) then o !! j else orec h S j.
Proof.
  unfold orec. intros [x E]. rewrite lookup_set_outputs.
  case_decide; [subst|done]. by rewrite E.
Qed.

Lemma slot_Some h T k i :
  slot h T k = Some i <-> exists x, h !! T = Some x /\ inputs x !! k = Some i.
Proof. unfold slot. destruct (h !! T); naive_solver. Qed.

Lemma orec_Some h S j o :
  orec h S j = Some o <-> exists x, h !! S = Some x /\ outputs x !! j = Some o.
Proof. unfold orec. destruct (h !! S); naive_solver. Qed.
End store.

Lemma post_modify_input g k f w i Q :
  slot (heap w) g k = Some i ->
  Q tt (set_heap (set_slot g k (f i) (heap w)) w) ->
  post (modify_input g k f) w Q.
Proof.
  intros (x & Hx & Hi)%slot_Some HQ. unfold modify_input.
  apply post_bind, (post_deref _ _ x); [done|].
  apply post_bind, (post_array_get _ _ i); [done|].
  apply (post_modify _ _ _ x); [done|].
  unfold set_slot in HQ. by rewrite Hx in HQ.
Qed.

Lemma post_set_outputs g o w Q :
  is_Some (heap w !! g) ->
  Q tt (set_heap (set_outputs g o (heap w)) w) ->
  post (modify g (with_outputs o)) w Q.
Proof.
  intros [x Hx] HQ. apply (post_modify _ _ _ x); [done|].
  unfold set_outputs in HQ. by rewrite Hx in HQ.
Qed.

(** * The pairing invariant *)

Definition slot_wf (h : gmap handle nand_t) (T : handle) (k : nat)
    (i : in_info_t) : Prop :=
  match i_type i with
  | EMPTY_INPUT => i_ptr i = NULL
  | BOOLEAN_SIGNAL_INPUT => exists s, i_ptr i = BoolPtr s
  | NAND_GATE_INPUT =>
      exists S, i_ptr i = GatePtr S /\ orec h S (i_ind i) = Some (OutInfo T k)
  end.

Record wf (h : gmap handle nand_t) : Prop := {
  wf_len : forall g x, h !! g = Some x -> length (inputs x) = input_count x;
  wf_slot : forall T k i, slot h T k = Some i -> slot_wf h T k i;
  wf_orec : forall S j o, orec h S j = Some o ->
      slot h (o_gate o) (o_ind o) = Some (InInfo (GatePtr S) NAND_GATE_INPUT j)
}.

Lemma wf_gate_slot h T k S j :
  wf h -> slot h T k = Some (InInfo (GatePtr S) NAND_GATE_INPUT j) ->
  orec h S j = Some (OutInfo T k).
Proof.
  intros Hwf Hs. apply wf_slot in Hs; [|done].
  destruct Hs as (S' & [= ->] & Ho). done.
Qed.

Definition outs (h : gmap handle nand_t) (S : handle) : option (list out_info_t) :=
  outputs <$> h !! S.

(** What no connection operation changes in a gate. *)
Definition gate_meta (x : nand_t) : nat * nat * topo_sort_status * bool * Z :=
  (input_count x, length (inputs x), status x, signal x, crit_path_len x).

Definition slot_kind (i : in_info_t) : vptr * input_type := (i_ptr i, i_type i).

(** The invariant with some consumer records exempt from having a slot that
    points back at them: [nand_connect_nand] appends the record before it
    fills the slot. *)
Record wf_except (E : handle -> nat -> Prop) (h : gmap handle nand_t) : Prop := {
  wfe_len : forall g x, h !! g = Some x -> length (inputs x) = input_count x;
  wfe_slot : forall T k i, slot h T k = Some i -> slot_wf h T k i;
  wfe_orec : forall S j o, orec h S j = Some o -> ~ E S j ->
      slot h (o_gate o) (o_ind o) = Some (InInfo (GatePtr S) NAND_GATE_INPUT j)
}.

Lemma wf_wf_except h : wf h <-> wf_except (fun _ _ => False) h.
Proof.
  split; intros [H1 H2 H3]; split; eauto.
Qed.

Lemma outs_Some h S o :
  outs h S = Some o <-> exists x, h !! S = Some x /\ outputs x = o.
Proof. unfold outs. destruct (h !! S); naive_solver. Qed.

Lemma orec_outs h S j : orec h S j = (o ← outs h S; o !! j).
Proof. unfold orec, outs. by destruct (h !! S). Qed.

Lemma outs_set_slot g k v h S : outs (set_slot g k v h) S = outs h S.
Proof.
  unfold outs. rewrite lookup_set_slot. case_decide; [subst|done].
  by destruct (h !! g).
Qed.

Lemma outs_set_outputs g o h S :
  is_Some (h !! g) ->
  outs (set_outputs g o h) S = if decide (S = g) then Some o else outs h S.
Proof.
  intros [x Hx]. unfold outs. rewrite lookup_set_outputs.
  case_decide; [subst|done]. by rewrite Hx.
Qed.

Lemma meta_set_slot g k v h T :
  gate_meta <$> set_slot g k v h !! T = gate_meta <$> h !! T.
Proof.
  rewrite lookup_set_slot. case_decide; [subst|done].
  destruct (h !! g) as [x|]; [|done]. simpl. unfold gate_meta. simpl.
  by rewrite length_insert.
Qed.

Lemma meta_set_outputs g o h T :
  gate_meta <$> set_outputs g o h !! T = gate_meta <$> h !! T.
Proof.
  rewrite lookup_set_outputs. case_decide; [subst|done].
  by destruct (h !! g) as [x|].
Qed.

(** The store after [nand_disconnect_nand]: the record of the cleared slot
    [(g_in, in_ind)] is overwritten by the last record [b] of the source and
    the list of the source loses its last place. *)
Record unlinked (h h' : gmap handle nand_t) (g_out g_in : handle)
    (in_ind j : nat) (o : list out_info_t) (b : out_info_t) : Prop := {
  ul_meta : forall g, gate_meta <$> h' !! g = gate_meta <$> h !! g;
  ul_slot : forall T k,
    slot h' T k =
    if decide (T = g_in /\ k = in_ind) then Some empty_input
    else if decide (T = o_gate b /\ k = o_ind b)
         then Some (InInfo (GatePtr g_out) NAND_GATE_INPUT j)
         else slot h T k;
  ul_outs : forall S,
    outs h' S =
    if decide (S = g_out) then Some (take (length o - 1) (<[j := b]> o))
    else outs h S
}.

Lemma unlinked_wf E h h' g_out g_in in_ind j o b :
  wf_except E h ->
  (forall i, ~ E g_out i) ->
  slot h g_in in_ind = Some (InInfo (GatePtr g_out) NAND_GATE_INPUT j) ->
  outs h g_out = Some o ->
  o !! (length o - 1)%nat = Some b ->
  unlinked h h' g_out g_in in_ind j o b ->
  wf_except E h'.
Proof.
  intros Hwf HE Hs Ho Hb [Hmeta Hslot Houts].
  pose proof (wfe_slot _ _ Hwf _ _ _ Hs) as (S0 & [= <-] & Hrec). simpl in Hrec.
  assert (o !! j = Some (OutInfo g_in in_ind)) as Hoj.
  { rewrite orec_outs, Ho in Hrec. done. }
  assert (slot h (o_gate b) (o_ind b)
          = Some (InInfo (GatePtr g_out) NAND_GATE_INPUT (length o - 1))) as Hsb.
  { apply (wfe_orec _ _ Hwf); [|apply HE]. by rewrite orec_outs, Ho. }
  assert (j < length o)%nat as Hj by (by eapply lookup_lt_Some).
  assert (forall i, orec h' g_out i =
            if decide (i < length o - 1)%nat
            then if decide (i = j) then Some b else o !! i
            else None) as Hrec'.
  { intros i. rewrite orec_outs, Houts, decide_True by done. simpl.
    case_decide.
    - rewrite lookup_take_lt by done. case_decide; subst.
      + by rewrite list_lookup_insert_eq.
      + by rewrite list_lookup_insert_ne.
    - apply lookup_take_ge. lia. }
  assert (forall S i, S <> g_out -> orec h' S i = orec h S i) as Hrec''.
  { intros S i HS. by rewrite !orec_outs, Houts, decide_False. }
  split.
  - intros g x Hx. specialize (Hmeta g). rewrite Hx in Hmeta.
    destruct (h !! g) as [y|] eqn:Hy; [|done].
    injection Hmeta as H1 H2 _ _ _. rewrite H1, H2.
    by apply (wfe_len _ _ Hwf g).
  - intros T k i. rewrite Hslot. repeat case_decide.
    + intros [= <-]. done.
    + intros [= <-]. destruct_and!; subst. red; simpl.
      exists g_out. split; [done|]. rewrite Hrec'.
      assert (j <> length o - 1)%nat.
      { intros Hj'. rewrite Hj', Hb in Hoj. injection Hoj as ->.
        simpl in *. naive_solver. }
      rewrite decide_True by lia. rewrite decide_True by done. by destruct b.
    + intros Hi. pose proof (wfe_slot _ _ Hwf _ _ _ Hi) as Hw.
      unfold slot_wf in *. destruct (i_type i) eqn:Hty; [done..|].
      destruct Hw as (S & Hp & Hr). exists S. split; [done|].
      destruct (decide (S = g_out)) as [->|]; [|by rewrite Hrec''].
      rewrite Hrec'. rewrite orec_outs, Ho in Hr. simpl in Hr.
      assert (i_ind i <> j) by (intros Heq; rewrite Heq in Hr; naive_solver congruence).
      assert (i_ind i <> length o - 1)%nat.
      { intros Heq; rewrite Heq in Hr. rewrite Hr in Hb. injection Hb as <-.
        simpl in *. naive_solver. }
      apply lookup_lt_Some in Hr as Hlt.
      rewrite decide_True by lia. by rewrite decide_False.
  - intros S i r Hr HnE. destruct (decide (S = g_out)) as [->|HS].
    + rewrite Hrec' in Hr. case_decide as Hlt; [|done].
      case_decide as Hij.
      * injection Hr as <-. subst i. rewrite Hslot.
        rewrite decide_False; [by rewrite decide_True|].
        intros [H1 H2]. rewrite H1, H2, Hs in Hsb. injection Hsb. lia.
      * assert (orec h g_out i = Some r) as Hri by (by rewrite orec_outs, Ho).
        apply (wfe_orec _ _ Hwf) in Hri; [|done].
        rewrite Hslot. rewrite decide_False.
        { rewrite decide_False; [done|].
          intros [H1 H2]. rewrite H1, H2, Hsb in Hri. injection Hri. lia. }
        intros [H1 H2]. rewrite H1, H2, Hs in Hri. injection Hri. lia.
    + rewrite Hrec'' in Hr by done.
      apply (wfe_orec _ _ Hwf) in Hr as Hsr; [|done].
      rewrite Hslot. case_decide as Hd.
      { destruct Hd as [Hd1 Hd2]. rewrite Hd1, Hd2, Hs in Hsr. congruence. }
      case_decide as Hd'; [|done].
      destruct Hd' as [Hd1 Hd2]. rewrite Hd1, Hd2, Hsb in Hsr. congruence.
Qed.

Ltac mbind :=
  cbv beta;
  repeat lazymatch goal with
         | |- post (bind _ _) _ _ => apply post_bind
         end.

Lemma post_darray_get {A} (d : list A) (i : nat) x w Q :
  d !! i = Some x -> Q x w -> post (darray_get d (Z.of_nat i)) w Q.
Proof.
  intros Hx HQ. unfold darray_get. apply lookup_lt_Some in Hx as Hlt.
  rewrite andb_true_intro by (split; [apply Z.leb_le|apply Z.ltb_lt]; lia).
  rewrite Nat2Z.id. by apply (post_array_get _ _ x).
Qed.

Lemma post_darray_pop_back {A} (d : list A) w Q :
  (0 < length d)%nat -> Q (take (length d - 1) d) w ->
  post (darray_pop_back d) w Q.
Proof.
  intros Hlt HQ. unfold darray_pop_back. destruct (length d) as [|n]; [lia|].
  apply post_ret. by replace (S n - 1)%nat with n in HQ by lia.
Qed.

Lemma post_darray_back {A} (d : list A) x w Q :
  d !! (length d - 1)%nat = Some x -> Q x w -> post (darray_back d) w Q.
Proof.
  intros Hx HQ. unfold darray_back. apply lookup_lt_Some in Hx as Hlt.
  destruct (length d) as [|n]; [lia|].
  replace (S n - 1)%nat with n in Hx by lia. by apply (post_array_get _ _ x).
Qed.

Lemma nand_disconnect_nand_run E w g_out g_in in_ind j o b :
  wf_except E (heap w) ->
  (forall i, ~ E g_out i) ->
  slot (heap w) g_in in_ind = Some (InInfo (GatePtr g_out) NAND_GATE_INPUT j) ->
  outs (heap w) g_out = Some o ->
  o !! (length o - 1)%nat = Some b ->
  post (nand_disconnect_nand g_out g_in in_ind) w (fun _ w' =>
    exists h', w' = set_heap h' w /\
               unlinked (heap w) h' g_out g_in in_ind j o b).
Proof.
  intros Hwf HE Hs Ho Hb.
  pose proof (wfe_slot _ _ Hwf _ _ _ Hs) as (S0 & [= <-] & Hrec). simpl in Hrec.
  assert (o !! j = Some (OutInfo g_in in_ind)) as Hoj.
  { rewrite orec_outs, Ho in Hrec. done. }
  assert (slot (heap w) (o_gate b) (o_ind b)
          = Some (InInfo (GatePtr g_out) NAND_GATE_INPUT (length o - 1))) as Hsb.
  { apply (wfe_orec _ _ Hwf); [|apply HE]. by rewrite orec_outs, Ho. }
  assert (j < length o)%nat as Hj by (by eapply lookup_lt_Some).
  apply slot_Some in Hs as Hs'. destruct Hs' as (gi & Hgi & Hii).
  apply outs_Some in Ho as Ho'. destruct Ho' as (go & Hgo & Hoo).
  unfold nand_disconnect_nand.
  mbind. apply (post_deref _ _ gi); [done|].
  mbind. apply post_assert.
  { apply bool_decide_eq_true. rewrite <- (wfe_len _ _ Hwf _ _ Hgi).
    by eapply lookup_lt_Some. }
  mbind. apply (post_array_get _ _ _ _ _ Hii). simpl.
  mbind. apply (post_deref _ _ go); [done|].
  unfold darray_size. rewrite Hoo.
  mbind. apply post_assert; [by apply bool_decide_eq_true|].
  set (a := OutInfo g_in in_ind) in *.
  set (o1 := <[(length o - 1)%nat := a]> (<[j := b]> o)).
  apply post_bind.
  apply (post_mono _ _ (fun _ w1 => exists h1, w1 = set_heap h1 w /\
    (forall g, gate_meta <$> h1 !! g = gate_meta <$> heap w !! g) /\
    (forall T k, slot h1 T k =
       if decide (T = o_gate b /\ k = o_ind b)
       then Some (InInfo (GatePtr g_out) NAND_GATE_INPUT j)
       else slot (heap w) T k) /\
    (forall S, outs h1 S = if decide (S = g_out) then Some o1 else outs (heap w) S))).
  - case_bool_decide as Hne.
    + unfold darray_swap_elements. mbind.
      apply (post_array_get _ _ _ _ _ Hoj). mbind.
      apply (post_array_get _ _ _ _ _ Hb).
      apply post_ret. mbind. apply post_set_outputs; [done|].
      simpl. fold a o1.
      mbind. apply (post_deref _ _ (with_outputs o1 go)).
      { simpl. rewrite lookup_set_outputs, decide_True, Hgo; done. }
      simpl.
      mbind. apply (post_darray_get _ _ b).
      { unfold o1. rewrite list_lookup_insert_ne by lia.
        by rewrite list_lookup_insert_eq. }
      mbind. eapply post_modify_input.
      { simpl. rewrite slot_set_outputs. apply Hsb. }
      simpl. eexists; split; [done|]. split; [|split].
      * intros g. by rewrite meta_set_slot, meta_set_outputs.
      * intros T k. rewrite slot_set_slot, slot_set_outputs.
        -- done.
        -- rewrite slot_set_outputs. eauto.
      * intros S. by rewrite outs_set_slot, outs_set_outputs.
    + apply post_ret. exists (heap w). split; [by destruct w|].
      assert (j = length o - 1)%nat as Hjl by lia.
      split; [done|]. split.
      * intros T k. case_decide as Hd; [|done].
        destruct Hd as [-> ->]. rewrite Hsb. do 2 f_equal. lia.
      * intros S. case_decide; [subst S|done]. rewrite Ho. f_equal.
        unfold o1. rewrite <- Hjl. rewrite list_insert_insert_eq.
        rewrite list_insert_id; done.
  - intros _ w1 (h1 & -> & Hmeta & Hslot & Houts).
    assert (exists x, h1 !! g_out = Some x /\ outputs x = o1) as (x & Hx & Hxo).
    { apply outs_Some. by rewrite Houts, decide_True. }
    mbind. apply (post_deref _ _ x); [done|]. rewrite Hxo.
    assert (length o1 = length o) as Hlen by (unfold o1; by rewrite !length_insert).
    mbind. apply post_darray_pop_back; [lia|].
    mbind. apply post_set_outputs; [simpl; eauto|]. simpl.
    assert (is_Some (slot h1 g_in in_ind)) as [i Hi].
    { rewrite Hslot. case_decide; eauto. }
    mbind. apply (post_modify_input _ _ _ _ i).
    { simpl. by rewrite slot_set_outputs. }
    simpl. eexists. split; [done|]. split.
    + intros g. by rewrite meta_set_slot, meta_set_outputs.
    + intros T k. rewrite slot_set_slot, slot_set_outputs; [by rewrite Hslot|].
      rewrite slot_set_outputs. eauto.
    + intros S. rewrite outs_set_slot, outs_set_outputs by eauto.
      case_decide; [|by rewrite Houts, decide_False].
      f_equal. rewrite Hlen. unfold o1. by rewrite take_insert_ge by lia.
Qed.

(** The effect of [nand_disconnect_input] on slot [k] of [g], which held
    [i]. *)
Record disconnected (E : handle -> nat -> Prop) (h h' : gmap handle nand_t)
    (g : handle) (k : nat) (i : in_info_t) : Prop := {
  dc_wf : wf_except E h';
  dc_meta : forall g', gate_meta <$> h' !! g' = gate_meta <$> h !! g';
  dc_slot : slot_kind <$> slot h' g k = Some (NULL, EMPTY_INPUT);
  dc_kind : forall T k', ~ (T = g /\ k' = k) ->
    slot_kind <$> slot h' T k' = slot_kind <$> slot h T k';
  dc_outs : forall S, ~ (i_type i = NAND_GATE_INPUT /\ i_ptr i = GatePtr S) ->
    outs h' S = outs h S;
  dc_fan : forall S, i_type i = NAND_GATE_INPUT -> i_ptr i = GatePtr S ->
    exists o o', outs h S = Some o /\ outs h' S = Some o' /\
                 (length o' + 1 = length o)%nat
}.

Lemma unlinked_disconnected E h h' g_out g_in in_ind j o b :
  wf_except E h ->
  (forall i, ~ E g_out i) ->
  slot h g_in in_ind = Some (InInfo (GatePtr g_out) NAND_GATE_INPUT j) ->
  outs h g_out = Some o ->
  o !! (length o - 1)%nat = Some b ->
  unlinked h h' g_out g_in in_ind j o b ->
  disconnected E h h' g_in in_ind (InInfo (GatePtr g_out) NAND_GATE_INPUT j).
Proof.
  intros Hwf HE Hs Ho Hb Hul.
  pose proof (unlinked_wf _ _ _ _ _ _ _ _ _ Hwf HE Hs Ho Hb Hul) as Hwf'.
  destruct Hul as [Hmeta Hslot Houts].
  assert (slot h (o_gate b) (o_ind b)
          = Some (InInfo (GatePtr g_out) NAND_GATE_INPUT (length o - 1))) as Hsb.
  { apply (wfe_orec _ _ Hwf); [|apply HE]. by rewrite orec_outs, Ho. }
  apply lookup_lt_Some in Hb as Hlt.
  split; try done.
  - by rewrite Hslot, decide_True.
  - intros T k' Hne. rewrite Hslot, decide_False by done.
    case_decide as Hd; [|done]. destruct Hd as [-> ->]. by rewrite Hsb.
  - simpl. intros S HS. rewrite Houts, decide_False; [done|]. naive_solver.
  - simpl. intros S _ [= <-]. eexists _, _. split; [done|].
    rewrite Houts, decide_True by done. split; [done|].
    rewrite length_take, length_insert. lia.
Qed.

Lemma wf_except_clear E h g k i :
  wf_except E h -> slot h g k = Some i -> i_type i <> NAND_GATE_INPUT ->
  wf_except E (set_slot g k empty_input h).
Proof.
  intros Hwf Hs Hty. split.
  - intros g' x Hx. pose proof (meta_set_slot g k empty_input h g') as Hm.
    rewrite Hx in Hm. destruct (h !! g') as [y|] eqn:Hy; [|done].
    injection Hm as H1 H2 _ _ _. rewrite H1, H2. by apply (wfe_len _ _ Hwf g').
  - intros T k' i'. rewrite slot_set_slot by eauto. case_decide.
    + by intros [= <-].
    + intros Hi. pose proof (wfe_slot _ _ Hwf _ _ _ Hi) as Hw.
      unfold slot_wf in *. destruct (i_type i'); [done..|].
      by setoid_rewrite orec_set_slot.
  - intros S j o. rewrite orec_set_slot. intros Ho HnE.
    apply (wfe_orec _ _ Hwf) in Ho as Hso; [|done].
    rewrite slot_set_slot by eauto. rewrite decide_False; [done|].
    intros [H1 H2]. rewrite H1, H2, Hs in Hso. injection Hso as ->. done.
Qed.

Lemma nand_disconnect_input_run E w g k i :
  wf_except E (heap w) ->
  slot (heap w) g k = Some i ->
  (forall S j, i_type i = NAND_GATE_INPUT -> i_ptr i = GatePtr S -> ~ E S j) ->
  post (nand_disconnect_input g k) w (fun _ w' =>
    exists h', w' = set_heap h' w /\ disconnected E (heap w) h' g k i).
Proof.
  intros Hwf Hs HE.
  apply slot_Some in Hs as Hs'. destruct Hs' as (x & Hx & Hi).
  pose proof (wfe_slot _ _ Hwf _ _ _ Hs) as Hw.
  unfold nand_disconnect_input. mbind.
  apply (post_deref _ _ x); [done|]. mbind.
  apply (post_array_get _ _ _ _ _ Hi). cbv beta.
  destruct (i_type i) eqn:Hty; unfold slot_wf in Hw; rewrite Hty in Hw.
  - (* empty *)
    rewrite bool_decide_eq_false_2 by done. mbind; apply post_ret. mbind.
    apply (post_deref _ _ x); [done|]. mbind.
    apply (post_array_get _ _ _ _ _ Hi). cbv beta. rewrite Hty.
    rewrite bool_decide_eq_false_2 by done. mbind; apply post_ret.
    exists (heap w). split; [by destruct w|]. split; try done.
    + rewrite Hs. simpl. unfold slot_kind. by rewrite Hw, Hty.
    + intros S _ HS. congruence.
  - (* a signal *)
    rewrite bool_decide_eq_true_2 by done.
    unfold nand_disconnect_signal. mbind.
    apply (post_deref _ _ x); [done|]. mbind. apply post_assert.
    { apply bool_decide_eq_true. rewrite <- (wfe_len _ _ Hwf _ _ Hx).
      by eapply lookup_lt_Some. }
    mbind. apply (post_modify_input _ _ _ _ i); [done|].
    set (h1 := set_slot g k empty_input (heap w)).
    assert (slot h1 g k = Some empty_input) as Hs1.
    { unfold h1. rewrite slot_set_slot by eauto. by rewrite decide_True. }
    apply slot_Some in Hs1 as Hs1'. destruct Hs1' as (x1 & Hx1 & Hi1).
    mbind. apply (post_deref _ _ x1); [done|]. mbind.
    apply (post_array_get _ _ _ _ _ Hi1). simpl.
    mbind; apply post_ret. exists h1. split; [done|]. split.
    + eapply wf_except_clear; eauto. congruence.
    + intros g'. apply meta_set_slot.
    + by rewrite Hs1.
    + intros T k' Hne. unfold h1. rewrite slot_set_slot by eauto.
      by rewrite decide_False.
    + intros S _. apply outs_set_slot.
    + intros S HS. congruence.
  - (* a gate *)
    rewrite bool_decide_eq_false_2 by done. mbind; apply post_ret. mbind.
    apply (post_deref _ _ x); [done|]. mbind.
    apply (post_array_get _ _ _ _ _ Hi). cbv beta. rewrite Hty.
    rewrite bool_decide_eq_true_2 by done.
    destruct Hw as (S & HS & Hrec). rewrite HS.
    assert (i = InInfo (GatePtr S) NAND_GATE_INPUT (i_ind i)) as Hieq.
    { destruct i; simpl in *; congruence. }
    rewrite Hieq in Hs.
    rewrite orec_outs in Hrec.
    destruct (outs (heap w) S) as [o|] eqn:Ho; [|done]. simpl in Hrec.
    apply lookup_lt_Some in Hrec as Hlt.
    destruct (lookup_lt_is_Some_2 o (length o - 1)%nat) as [b Hb]; [lia|].
    assert (forall j, ~ E S j) as HE' by (intros j; by apply HE).
    eapply post_mono.
    { eapply nand_disconnect_nand_run; eauto. }
    intros _ w' (h' & -> & Hul). exists h'. split; [done|].
    rewrite Hieq. eapply unlinked_disconnected; eauto.
Qed.

(** A slot value that needs no consumer record. *)
Definition plain_input (v : in_info_t) : Prop :=
  match i_type v with
  | EMPTY_INPUT => i_ptr v = NULL
  | BOOLEAN_SIGNAL_INPUT => exists s, i_ptr v = BoolPtr s
  | NAND_GATE_INPUT => False
  end.

Lemma wf_except_set_plain E h g k i v :
  wf_except E h -> slot h g k = Some i -> i_type i <> NAND_GATE_INPUT ->
  plain_input v ->
  wf_except E (set_slot g k v h).
Proof.
  intros Hwf Hs Hty Hv. split.
  - intros g' x Hx. pose proof (meta_set_slot g k v h g') as Hm.
    rewrite Hx in Hm. destruct (h !! g') as [y|] eqn:Hy; [|done].
    injection Hm as H1 H2 _ _ _. rewrite H1, H2. by apply (wfe_len _ _ Hwf g').
  - intros T k' i'. rewrite slot_set_slot by eauto. case_decide.
    + intros [= <-]. unfold slot_wf, plain_input in *. by destruct (i_type v).
    + intros Hi. pose proof (wfe_slot _ _ Hwf _ _ _ Hi) as Hw.
      unfold slot_wf in *. destruct (i_type i'); [done..|].
      by setoid_rewrite orec_set_slot.
  - intros S j o. rewrite orec_set_slot. intros Ho HnE.
    apply (wfe_orec _ _ Hwf) in Ho as Hso; [|done].
    rewrite slot_set_slot by eauto. rewrite decide_False; [done|].
    intros [H1 H2]. rewrite H1, H2, Hs in Hso. injection Hso as ->. done.
Qed.

(** Appending a record to a consumer list leaves that record exempt. *)
Lemma wf_except_push h g o r :
  wf_except (fun _ _ => False) h -> outs h g = Some o ->
  wf_except (fun s j => s = g /\ j = length o) (set_outputs g (o ++ [r]) h).
Proof.
  intros Hwf Ho. apply outs_Some in Ho as Ho'. destruct Ho' as (x & Hx & Hxo).
  split.
  - intros g' y Hy. pose proof (meta_set_outputs g (o ++ [r]) h g') as Hm.
    rewrite Hy in Hm. destruct (h !! g') as [z|] eqn:Hz; [|done].
    injection Hm as H1 H2 _ _ _. rewrite H1, H2. by apply (wfe_len _ _ Hwf g').
  - intros T k i. rewrite slot_set_outputs. intros Hi.
    pose proof (wfe_slot _ _ Hwf _ _ _ Hi) as Hw.
    unfold slot_wf in *. destruct (i_type i); [done..|].
    destruct Hw as (s & Hp & Hr). exists s. split; [done|].
    rewrite orec_set_outputs by eauto. case_decide; [subst s|done].
    rewrite orec_outs, Ho in Hr. simpl in Hr.
    rewrite lookup_app_l; [done|]. by eapply lookup_lt_Some.
  - intros s j q. rewrite orec_set_outputs by eauto. rewrite slot_set_outputs.
    intros Hq HnE. apply (wfe_orec _ _ Hwf); [|tauto].
    case_decide; [subst s|done]. rewrite orec_outs, Ho. simpl.
    apply lookup_lt_Some in Hq as Hlt. rewrite length_app in Hlt. simpl in Hlt.
    rewrite lookup_app_l in Hq; [done|].
    destruct (decide (j = length o)); [tauto|lia].
Qed.

(** Filling the slot the exempt record names restores the invariant. *)
Lemma wf_link h g_out g_in k o i :
  wf_except (fun s j => s = g_out /\ j = length o) h ->
  outs h g_out = Some (o ++ [OutInfo g_in k]) ->
  slot h g_in k = Some i -> i_type i <> NAND_GATE_INPUT ->
  wf_except (fun _ _ => False)
    (set_slot g_in k (InInfo (GatePtr g_out) NAND_GATE_INPUT (length o)) h).
Proof.
  intros Hwf Ho Hs Hty. split.
  - intros g' x Hx. pose proof (meta_set_slot g_in k
      (InInfo (GatePtr g_out) NAND_GATE_INPUT (length o)) h g') as Hm.
    rewrite Hx in Hm. destruct (h !! g') as [y|] eqn:Hy; [|done].
    injection Hm as H1 H2 _ _ _. rewrite H1, H2. by apply (wfe_len _ _ Hwf g').
  - intros T k' i'. rewrite slot_set_slot by eauto. case_decide as Hd.
    + intros [= <-]. destruct Hd as [-> ->]. red; simpl. exists g_out.
      split; [done|]. rewrite orec_set_slot, orec_outs, Ho. simpl.
      by rewrite lookup_app_r, Nat.sub_diag by lia.
    + intros Hi. pose proof (wfe_slot _ _ Hwf _ _ _ Hi) as Hw.
      unfold slot_wf in *. destruct (i_type i'); [done..|].
      by setoid_rewrite orec_set_slot.
  - intros s j q. rewrite orec_set_slot. intros Hq _.
    rewrite slot_set_slot by eauto.
    destruct (decide (s = g_out /\ j = length o)) as [[-> ->]|Hne].
    + rewrite orec_outs, Ho in Hq. simpl in Hq.
      rewrite lookup_app_r, Nat.sub_diag in Hq by lia. injection Hq as <-.
      simpl. by rewrite decide_True.
    + apply (wfe_orec _ _ Hwf) in Hq as Hsq; [|done].
      rewrite decide_False; [done|].
      intros [H1 H2]. rewrite H1, H2, Hs in Hsq. injection Hsq as ->. done.
Qed.

Definition all_not_visited (h : gmap handle nand_t) : Prop :=
  forall g x, h !! g = Some x -> status x = NOT_VISITED.

Lemma meta_all_not_visited h h' :
  (forall g, gate_meta <$> h' !! g = gate_meta <$> h !! g) ->
  all_not_visited h -> all_not_visited h'.
Proof.
  intros Hm Hnv g x Hx. specialize (Hm g). rewrite Hx in Hm.
  destruct (h !! g) as [y|] eqn:Hy; [|done].
  injection Hm as _ _ -> _ _. eauto.
Qed.

Lemma post_malloc_ok w Q :
  (forall b a, Q b (set_alloc a w)) -> post malloc_ok w Q.
Proof.
  intros HQ. unfold post, malloc_ok. destruct (alloc w) as [|b a] eqn:Ha; [|done].
  specialize (HQ true []). unfold set_alloc in HQ. rewrite <- Ha in HQ.
  by destruct w.
Qed.

Lemma nand_connect_signal_run w s g k x :
  wf (heap w) -> heap w !! g = Some x -> (k < input_count x)%nat ->
  post (nand_connect_signal (Some s) (Some g) k) w (fun r w' =>
    r = 0 /\ exists h', w' = set_heap h' w /\ wf h' /\
      (forall g', gate_meta <$> h' !! g' = gate_meta <$> heap w !! g') /\
      slot h' g k = Some (InInfo (BoolPtr s) BOOLEAN_SIGNAL_INPUT 0) /\
      (forall T k', ~ (T = g /\ k' = k) ->
         slot_kind <$> slot h' T k' = slot_kind <$> slot (heap w) T k')).
Proof.
  intros Hwf Hx Hk. apply wf_wf_except in Hwf.
  assert (is_Some (inputs x !! k)) as [i Hi].
  { apply lookup_lt_is_Some. by rewrite (wfe_len _ _ Hwf _ _ Hx). }
  assert (slot (heap w) g k = Some i) as Hs by (apply slot_Some; eauto).
  unfold nand_connect_signal. mbind. apply (post_deref _ _ x); [done|].
  cbv beta. rewrite bool_decide_eq_false_2 by lia. mbind.
  eapply post_mono.
  { eapply nand_disconnect_input_run; eauto. }
  intros _ w1 (h1 & -> & [Hwf1 Hm1 Hs1 Hk1 Ho1 _]).
  destruct (slot h1 g k) as [i1|] eqn:Hi1; [|done].
  injection Hs1 as Hp1 Hty1.
  mbind. apply (post_modify_input _ _ _ _ i1); [done|]. simpl.
  mbind; apply post_ret. split; [done|]. eexists. split; [done|].
  split; [|split; [|split]].
  - apply wf_wf_except. eapply wf_except_set_plain; eauto.
    + congruence.
    + red. simpl. eauto.
  - intros g'. by rewrite meta_set_slot.
  - rewrite slot_set_slot by eauto. by rewrite decide_True.
  - intros T k' Hne. rewrite slot_set_slot by eauto.
    rewrite decide_False by done. by apply Hk1.
Qed.

Lemma nand_connect_nand_run w g_out g_in k gi :
  wf (heap w) -> heap w !! g_in = Some gi -> (k < input_count gi)%nat ->
  is_Some (heap w !! g_out) ->
  post (nand_connect_nand (Some g_out) (Some g_in) k) w (fun r w' =>
    bools w' = bools w /\ wf (heap w') /\
    (forall g', gate_meta <$> heap w' !! g' = gate_meta <$> heap w !! g') /\
    ((r = 0 /\ errno w' = errno w /\
      (exists j, slot (heap w') g_in k
                 = Some (InInfo (GatePtr g_out) NAND_GATE_INPUT j)) /\
      (forall T k', ~ (T = g_in /\ k' = k) ->
         slot_kind <$> slot (heap w') T k' = slot_kind <$> slot (heap w) T k'))
     \/ (r = -1 /\ errno w' = ENOMEM /\ heap w' = heap w))).
Proof.
  intros Hwf Hgi Hk [go Hgo]. pose proof Hwf as Hwf0. apply wf_wf_except in Hwf.
  assert (is_Some (inputs gi !! k)) as [i Hi].
  { apply lookup_lt_is_Some. by rewrite (wfe_len _ _ Hwf _ _ Hgi). }
  assert (slot (heap w) g_in k = Some i) as Hs by (apply slot_Some; eauto).
  pose proof (wfe_slot _ _ Hwf _ _ _ Hs) as Hw.
  unfold nand_connect_nand. mbind. apply (post_deref _ _ gi); [done|].
  cbv beta. rewrite bool_decide_eq_false_2 by lia. mbind.
  apply (post_array_get _ _ _ _ _ Hi). cbv beta.
  case_bool_decide as Hfast.
  { apply post_ret. split; [done|]. split; [done|]. split; [done|]. left.
    split; [done|]. split; [done|]. split; [|done].
    exists (i_ind i). rewrite Hs. f_equal.
    unfold slot_wf in Hw. destruct i as [p [] n]; simpl in *; subst;
      try done. by destruct Hw. }
  mbind. apply (post_deref _ _ go); [done|]. mbind.
  unfold darray_push_back. mbind. apply post_malloc_ok. intros [] a.
  - (* the append succeeds *)
    mbind; apply post_ret. cbv beta. rewrite bool_decide_eq_false_2 by done.
    mbind. apply post_set_outputs; [simpl; eauto|]. simpl.
    set (h1 := set_outputs g_out (outputs go ++ [OutInfo g_in k]) (heap w)).
    assert (outs (heap w) g_out = Some (outputs go)) as Ho.
    { apply outs_Some. eauto. }
    pose proof (wf_except_push _ _ _ (OutInfo g_in k) Hwf Ho) as Hwf1.
    fold h1 in Hwf1.
    mbind. eapply post_mono.
    { eapply (nand_disconnect_input_run _ _ g_in k i); simpl; [apply Hwf1|..].
      - unfold h1. by rewrite slot_set_outputs.
      - intros S j Hty HS [-> _]. done. }
    simpl. intros _ w2 (h2 & -> & [Hwf2 Hm2 Hs2 Hk2 Ho2 _]).
    assert (outs h2 g_out = Some (outputs go ++ [OutInfo g_in k])) as Hout2.
    { rewrite Ho2 by naive_solver. unfold h1.
      rewrite outs_set_outputs by eauto. by rewrite decide_True. }
    apply outs_Some in Hout2 as Hout2'. destruct Hout2' as (go2 & Hgo2 & Hgoo2).
    mbind. apply (post_deref _ _ go2); [done|]. cbv beta.
    destruct (slot h2 g_in k) as [i2|] eqn:Hi2; [|done].
    injection Hs2 as Hp2 Hty2.
    mbind. apply (post_modify_input _ _ _ _ i2); [done|]. simpl.
    mbind; apply post_ret. split; [done|].
    unfold darray_size. rewrite Hgoo2, length_app. simpl.
    replace (length (outputs go) + 1 - 1)%nat with (length (outputs go)) by lia.
    split; [|split].
    + apply wf_wf_except. eapply wf_link; eauto. congruence.
    + intros g'. rewrite meta_set_slot, Hm2. unfold h1.
      by rewrite meta_set_outputs.
    + left. split; [done|]. split; [done|]. split.
      * eexists. rewrite slot_set_slot by eauto. by rewrite decide_True.
      * intros T k' Hne. rewrite slot_set_slot by eauto.
        rewrite decide_False by done. rewrite Hk2 by done. unfold h1.
        by rewrite slot_set_outputs.
  - (* the append fails *)
    mbind; apply post_ret. cbv beta. rewrite bool_decide_eq_true_2 by done.
    mbind. apply post_set_errno. apply post_ret. simpl.
    split; [done|]. split; [done|]. split; [done|]. by right.
Qed.

Lemma post_for_loop (I : nat -> world -> Prop) body count : forall from w,
  I from w ->
  (forall i w, (from <= i < from + count)%nat -> I i w ->
     post (body i) w (fun _ w' => I (S i) w')) ->
  post (for_loop from count body) w (fun _ w' => I (from + count)%nat w').
Proof.
  induction count as [|c IH]; intros from w HI Hbody; simpl.
  - apply post_ret. by rewrite Nat.add_0_r.
  - mbind. eapply post_mono; [apply Hbody; [lia|done]|].
    intros [] w1 HI1. simpl.
    replace (from + S c)%nat with (S from + c)%nat by lia.
    apply IH; [done|]. intros i w2 Hi. apply Hbody. lia.
Qed.

(** All slots of [g] are empty. *)
Definition inputs_empty (h : gmap handle nand_t) (g : handle) : Prop :=
  forall k i, slot h g k = Some i -> slot_kind i = (NULL, EMPTY_INPUT).

Lemma meta_trans (h1 h2 h3 : gmap handle nand_t) :
  (forall g, gate_meta <$> h2 !! g = gate_meta <$> h1 !! g) ->
  (forall g, gate_meta <$> h3 !! g = gate_meta <$> h2 !! g) ->
  forall g, gate_meta <$> h3 !! g = gate_meta <$> h1 !! g.
Proof. intros H1 H2 g. by rewrite H2. Qed.

Lemma meta_lookup (h h' : gmap handle nand_t) g x :
  (forall g, gate_meta <$> h' !! g = gate_meta <$> h !! g) ->
  h !! g = Some x ->
  exists x', h' !! g = Some x' /\ gate_meta x' = gate_meta x.
Proof.
  intros Hm Hx. specialize (Hm g). rewrite Hx in Hm.
  destruct (h' !! g) as [x'|]; [|done]. exists x'. split; [done|].
  simpl in Hm. congruence.
Qed.

Lemma delete_inputs_run w g :
  wf (heap w) -> is_Some (heap w !! g) ->
  post (delete_inputs g) w (fun _ w' =>
    exists h', w' = set_heap h' w /\ wf h' /\
      (forall g', gate_meta <$> h' !! g' = gate_meta <$> heap w !! g') /\
      inputs_empty h' g).
Proof.
  intros Hwf [x Hx]. unfold delete_inputs. mbind.
  apply (post_deref _ _ x); [done|]. cbv beta.
  eapply post_mono.
  { apply (post_for_loop (fun n w1 => exists h1, w1 = set_heap h1 w /\ wf h1 /\
      (forall g', gate_meta <$> h1 !! g' = gate_meta <$> heap w !! g') /\
      forall k i, (k < n)%nat -> slot h1 g k = Some i ->
                  slot_kind i = (NULL, EMPTY_INPUT))).
    - exists (heap w). split; [by destruct w|]. split; [done|]. split; [done|].
      intros; lia.
    - intros n w1 Hn (h1 & -> & Hwf1 & Hm1 & He1). simpl in Hn.
      destruct (meta_lookup _ _ _ _ Hm1 Hx) as (x1 & Hx1 & Hmx).
      unfold gate_meta in Hmx. injection Hmx as Hic Hlen _ _ _.
      pose proof (wf_len _ Hwf1 _ _ Hx1) as Hlen1.
      assert (is_Some (inputs x1 !! n)) as [i Hi].
      { apply lookup_lt_is_Some. lia. }
      assert (slot h1 g n = Some i) as Hs by (apply slot_Some; eauto).
      mbind. apply (post_deref _ _ x1); [done|]. mbind.
      apply (post_array_get _ _ _ _ _ Hi). cbv beta.
      case_bool_decide as Hty.
      + eapply post_mono.
        { apply (nand_disconnect_input_run (fun _ _ => False)); simpl; eauto.
          by apply wf_wf_except. }
        simpl. intros _ w2 (h2 & -> & [Hwf2 Hm2 Hs2 Hk2 _ _]).
        exists h2. split; [done|]. split; [by apply wf_wf_except|].
        split; [by eapply meta_trans|].
        intros k i' Hk Hi'. destruct (decide (k = n)) as [->|Hne].
        * rewrite Hi' in Hs2. simpl in Hs2. congruence.
        * assert (~ (g = g /\ k = n)) as Hne' by naive_solver.
          specialize (Hk2 g k Hne'). rewrite Hi' in Hk2.
          destruct (slot h1 g k) as [i1|] eqn:Hi1; [|done].
          assert (slot_kind i1 = (NULL, EMPTY_INPUT)) by (eapply He1; [|done]; lia).
          simpl in Hk2. congruence.
      + apply post_ret. exists h1. split; [done|]. split; [done|].
        split; [done|]. intros k i' Hk Hi'.
        destruct (decide (k = n)) as [->|Hne]; [|eapply He1; [|done]; lia].
        rewrite Hs in Hi'. injection Hi' as <-.
        apply wf_wf_except in Hwf1.
        pose proof (wfe_slot _ _ Hwf1 _ _ _ Hs) as Hw. unfold slot_wf in Hw.
        rewrite Hty in Hw. unfold slot_kind. congruence. }
  simpl. intros _ w1 (h1 & -> & Hwf1 & Hm1 & He1). exists h1.
  split; [done|]. split; [done|]. split; [done|].
  intros k i Hi. eapply He1; [|done].
  destruct (meta_lookup _ _ _ _ Hm1 Hx) as (x1 & Hx1 & Hmx).
  unfold gate_meta in Hmx. injection Hmx as Hic Hlen _ _ _.
  pose proof (wf_len _ Hwf1 _ _ Hx1) as Hlen1.
  apply slot_Some in Hi as (x1' & Hx1' & Hi). rewrite Hx1 in Hx1'.
  injection Hx1' as <-. apply lookup_lt_Some in Hi. lia.
Qed.

Lemma delete_outputs_run fuel : forall w g o,
  wf (heap w) -> inputs_empty (heap w) g -> outs (heap w) g = Some o ->
  (length o <= fuel)%nat ->
  post (delete_outputs fuel g) w (fun _ w' =>
    exists h', w' = set_heap h' w /\ wf h' /\
      (forall g', gate_meta <$> h' !! g' = gate_meta <$> heap w !! g') /\
      inputs_empty h' g /\ outs h' g = Some []).
Proof.
  induction fuel as [|fuel IH]; intros w g o Hwf He Ho Hfuel.
  - destruct o; [|simpl in Hfuel; lia].
    apply outs_Some in Ho as (x & Hx & Hxo). simpl. mbind.
    apply (post_deref _ _ x); [done|]. cbv beta. unfold darray_size.
    rewrite Hxo. simpl. apply post_ret. exists (heap w).
    split; [by destruct w|]. split; [done|]. split; [done|]. split; [done|].
    apply outs_Some; eauto.
  - apply outs_Some in Ho as Ho'. destruct Ho' as (x & Hx & Hxo). simpl. mbind.
    apply (post_deref _ _ x); [done|]. cbv beta. unfold darray_size.
    rewrite Hxo. case_bool_decide as Hsz.
    + destruct (lookup_lt_is_Some_2 o (length o - 1)%nat) as [b Hb]; [lia|].
      mbind. apply (post_darray_back _ b); [done|].
      apply wf_wf_except in Hwf as Hwfe.
      assert (slot (heap w) (o_gate b) (o_ind b)
              = Some (InInfo (GatePtr g) NAND_GATE_INPUT (length o - 1))) as Hsb.
      { apply (wfe_orec _ _ Hwfe); [|tauto]. by rewrite orec_outs, Ho. }
      mbind. eapply post_mono.
      { eapply (nand_disconnect_nand_run (fun _ _ => False)); eauto. }
      simpl. intros _ w1 (h1 & -> & Hul).
      pose proof (unlinked_disconnected _ _ _ _ _ _ _ _ _
                    Hwfe (fun _ => id) Hsb Ho Hb Hul)
        as [Hwf1 Hm1 Hs1 Hk1 Ho1 Hf1].
      destruct (Hf1 g eq_refl eq_refl) as (o0 & o' & Ho0 & Ho' & Hlen).
      rewrite Ho in Ho0. injection Ho0 as <-.
      assert (inputs_empty h1 g) as He1.
      { intros k i Hi. destruct (decide (g = o_gate b /\ k = o_ind b)) as [[-> ->]|Hne].
        - rewrite Hi in Hs1. simpl in Hs1. congruence.
        - specialize (Hk1 g k Hne). rewrite Hi in Hk1.
          destruct (slot (heap w) g k) as [i0|] eqn:Hi0; [|done].
          assert (slot_kind i0 = (NULL, EMPTY_INPUT)) by (by eapply He).
          simpl in Hk1. congruence. }
      eapply post_mono.
      { apply (IH (set_heap h1 w) g o'); simpl; try done.
        - by apply wf_wf_except.
        - lia. }
      simpl. intros _ w2 (h2 & -> & Hwf2 & Hm2 & He2 & Ho2).
      exists h2. split; [done|]. split; [done|]. split; [|done].
      by eapply meta_trans.
    + apply post_ret. exists (heap w). split; [by destruct w|].
      split; [done|]. split; [done|]. split; [done|].
      destruct o; [done|simpl in Hsz; lia].
Qed.

(** The pairing of slots and consumer records, as the data model states it:
    slot [k] of [T] holds the gate source [(S, i)] exactly when record [i] of
    [S] is [(T, k)]. *)
Definition holds_gate_source (h : gmap handle nand_t) (T : handle) (k : nat)
    (S : handle) (i : nat) : Prop :=
  slot h T k = Some (InInfo (GatePtr S) NAND_GATE_INPUT i).

Definition bidirectional_pairing (h : gmap handle nand_t) : Prop :=
  (forall T k S i, holds_gate_source h T k S i ->
     orec h S i = Some (OutInfo T k)) /\
  (forall S i T k, orec h S i = Some (OutInfo T k) ->
     holds_gate_source h T k S i).

Lemma wf_bidirectional_pairing h : wf h -> bidirectional_pairing h.
Proof.
  intros Hwf. split.
  - intros T k S i Hs. by eapply wf_gate_slot.
  - intros S i T k Ho. by apply (wf_orec _ Hwf) in Ho.
Qed.

(** No slot and no consumer record of the store refers to [g]. *)
Definition unreferenced (h : gmap handle nand_t) (g : handle) : Prop :=
  (forall S j o, orec h S j = Some o -> o_gate o <> g) /\
  (forall T k i, slot h T k = Some i -> i_ptr i <> GatePtr g).

Lemma slot_delete h g T k :
  slot (delete g h) T k = if decide (T = g) then None else slot h T k.
Proof.
  unfold slot. rewrite lookup_delete. by repeat case_decide; subst.
Qed.

Lemma orec_delete h g S j :
  orec (delete g h) S j = if decide (S = g) then None else orec h S j.
Proof.
  unfold orec. rewrite lookup_delete. by repeat case_decide; subst.
Qed.

Lemma isolated_unreferenced h g :
  wf h -> inputs_empty h g -> outs h g = Some [] -> unreferenced h g.
Proof.
  intros Hwf He Ho. split.
  - intros S j o Hr Hg. apply (wf_orec _ Hwf) in Hr. rewrite Hg in Hr.
    apply He in Hr. done.
  - intros T k i Hs Hp. pose proof (wf_slot _ Hwf _ _ _ Hs) as Hw.
    unfold slot_wf in Hw. destruct (i_type i).
    + congruence.
    + destruct Hw as [s Hw]. congruence.
    + destruct Hw as (S & HS & Hr). rewrite Hp in HS. injection HS as <-.
      by rewrite orec_outs, Ho in Hr.
Qed.

Lemma wf_free h g :
  wf h -> unreferenced h g -> wf (delete g h) /\ unreferenced (delete g h) g.
Proof.
  intros Hwf [Hu1 Hu2]. split; [split|split].
  - intros g' x. rewrite lookup_delete. case_decide; [done|].
    apply (wf_len _ Hwf).
  - intros T k i. rewrite slot_delete. case_decide; [done|]. intros Hs.
    pose proof (wf_slot _ Hwf _ _ _ Hs) as Hw. unfold slot_wf in *.
    destruct (i_type i); [done..|]. destruct Hw as (S & HS & Hr).
    exists S. split; [done|]. rewrite orec_delete, decide_False; [done|].
    intros ->. by eapply Hu2.
  - intros S j o. rewrite orec_delete. case_decide; [done|]. intros Hr.
    rewrite slot_delete, decide_False by (by eapply Hu1).
    by apply (wf_orec _ Hwf).
  - intros S j o. rewrite orec_delete. case_decide; [done|]. apply Hu1.
  - intros T k i. rewrite slot_delete. case_decide; [done|]. apply Hu2.
Qed.

Lemma post_free_gate g w Q :
  is_Some (heap w !! g) -> Q tt (set_heap (delete g (heap w)) w) ->
  post (free_gate g) w Q.
Proof. intros [x Hx] HQ. unfold post, free_gate. by rewrite Hx. Qed.

(** The three phases of [nand_delete] and what holds after each. *)
Lemma nand_delete_phases w g :
  wf (heap w) -> is_Some (heap w !! g) ->
  post (delete_inputs g) w (fun _ w1 =>
    wf (heap w1) /\ inputs_empty (heap w1) g /\
    post (let* x := deref g in delete_outputs (darray_size (outputs x)) g) w1
      (fun _ w2 =>
         wf (heap w2) /\ inputs_empty (heap w2) g /\
         outs (heap w2) g = Some [] /\ unreferenced (heap w2) g /\
         post (free_gate g) w2 (fun _ w3 =>
           w3 = set_heap (delete g (heap w2)) w /\
           (forall g', gate_meta <$> heap w2 !! g' = gate_meta <$> heap w !! g') /\
           wf (heap w3) /\ unreferenced (heap w3) g))).
Proof.
  intros Hwf Hg. eapply post_mono; [by apply delete_inputs_run|].
  simpl. intros _ w1 (h1 & -> & Hwf1 & Hm1 & He1). simpl.
  split; [done|]. split; [done|].
  destruct Hg as [x Hx].
  destruct (meta_lookup _ _ _ _ Hm1 Hx) as (x1 & Hx1 & _).
  mbind. apply (post_deref _ _ x1); [done|]. cbv beta.
  eapply post_mono.
  { eapply (delete_outputs_run _ _ g (outputs x1)); simpl; try done.
    apply outs_Some; eauto. }
  simpl. intros _ w2 (h2 & -> & Hwf2 & Hm2 & He2 & Ho2). simpl.
  split; [done|]. split; [done|]. split; [done|].
  pose proof (isolated_unreferenced _ _ Hwf2 He2 Ho2) as Hu2.
  split; [done|].
  apply post_free_gate.
  { simpl. apply outs_Some in Ho2 as (? & ? & _). eauto. }
  simpl. split; [done|]. split; [intros g'; by rewrite Hm2|].
  by apply wf_free.
Qed.

Lemma post_bind_assoc {A B C} (m : M A) (f : A -> M B) (k : B -> M C) w Q :
  post (bind (bind m f) k) w Q -> post (bind m (fun x => bind (f x) k)) w Q.
Proof. unfold post, bind. by destruct (m w) as [[a w']| |]. Qed.

Lemma nand_delete_run w g :
  wf (heap w) -> is_Some (heap w !! g) ->
  post (nand_delete (Some g)) w (fun _ w' =>
    exists h2, w' = set_heap (delete g h2) w /\
      (forall g', gate_meta <$> h2 !! g' = gate_meta <$> heap w !! g') /\
      wf (heap w') /\ unreferenced (heap w') g).
Proof.
  intros Hwf Hg. unfold nand_delete. mbind.
  eapply post_mono; [by apply nand_delete_phases|].
  simpl. intros _ w1 (_ & _ & H1). apply post_bind_assoc, post_bind.
  eapply post_mono; [apply H1|].
  simpl. intros _ w2 (_ & _ & _ & _ & H2).
  eapply post_mono; [apply H2|].
  simpl. intros _ w3 (-> & Hm & Hwf3 & Hu3). eauto.
Qed.

Lemma slot_insert_new h g x T k :
  slot (<[g := x]> h) T k = if decide (T = g) then inputs x !! k else slot h T k.
Proof. unfold slot. rewrite lookup_insert. by repeat case_decide; subst. Qed.

Lemma orec_insert_new h g x S j :
  orec (<[g := x]> h) S j = if decide (S = g) then outputs x !! j else orec h S j.
Proof. unfold orec. rewrite lookup_insert. by repeat case_decide; subst. Qed.

Lemma wf_malloc_gate h g n :
  wf h -> h !! g = None ->
  wf (<[g := Nand 0 (replicate n empty_input) [] n NOT_VISITED false]> h).
Proof.
  intros Hwf Hg. split.
  - intros g' x. rewrite lookup_insert. case_decide.
    + intros [= <-]. simpl. apply length_replicate.
    + apply (wf_len _ Hwf).
  - intros T k i. rewrite slot_insert_new. case_decide.
    + simpl. intros [-> _]%lookup_replicate. done.
    + intros Hs. pose proof (wf_slot _ Hwf _ _ _ Hs) as Hw. unfold slot_wf in *.
      destruct (i_type i); [done..|]. destruct Hw as (S & HS & Hr).
      exists S. split; [done|]. rewrite orec_insert_new, decide_False; [done|].
      intros ->. unfold orec in Hr. by rewrite Hg in Hr.
  - intros S j o. rewrite orec_insert_new. case_decide; [done|]. intros Hr.
    apply (wf_orec _ Hwf) in Hr as Hs. rewrite slot_insert_new, decide_False; [done|].
    intros Heq. unfold slot in Hs. by rewrite Heq, Hg in Hs.
Qed.

Lemma nand_new_run w n :
  wf (heap w) ->
  post (nand_new n) w (fun r w' =>
    bools w' = bools w /\ wf (heap w') /\
    match r with
    | Some g =>
        heap w !! g = None /\ errno w' = errno w /\
        heap w' = <[g := Nand 0 (replicate n empty_input) [] n NOT_VISITED false]>
                    (heap w)
    | None => heap w' = heap w /\ errno w' = ENOMEM
    end).
Proof.
  intros Hwf. unfold nand_new. mbind. apply post_malloc_ok. intros [] a1; simpl.
  - mbind. apply post_malloc_ok. intros b2 a2. mbind. apply post_malloc_ok.
    intros b3 a3. destruct b2, b3; simpl;
      try (mbind; apply post_set_errno; apply post_ret; simpl; done).
    mbind. unfold post, malloc_gate. simpl.
    assert (heap w !! fresh (dom (heap w)) = None) as Hfresh.
    { apply not_elem_of_dom, is_fresh. }
    split; [done|]. split; [by apply wf_malloc_gate|]. done.
  - mbind; apply post_set_errno; apply post_ret; simpl; done.
Qed.

(** * The traversal *)

(** The store with every traversal status reset. *)
Definition erase (h : gmap handle nand_t) : gmap handle nand_t :=
  with_status NOT_VISITED <$> h.

Lemma erase_lookup h g : erase h !! g = with_status NOT_VISITED <$> h !! g.
Proof. apply lookup_fmap. Qed.

Lemma erase_set_status h g x st :
  h !! g = Some x -> erase (<[g := with_status st x]> h) = erase h.
Proof.
  intros Hx. apply map_eq. intros g'. rewrite !erase_lookup, lookup_insert.
  case_decide; [subst|done]. by rewrite Hx.
Qed.

Lemma erase_id h : all_not_visited h -> erase h = h.
Proof.
  intros Hnv. apply map_eq. intros g. rewrite erase_lookup.
  destruct (h !! g) as [x|] eqn:Hx; [|done]. simpl. f_equal.
  specialize (Hnv g x Hx). destruct x; simpl in *. by subst.
Qed.

Lemma erase_inv h h0 g x :
  erase h = h0 -> h !! g = Some x -> h0 !! g = Some (with_status NOT_VISITED x).
Proof. intros <- Hx. by rewrite erase_lookup, Hx. Qed.

Lemma erase_inv0 h h0 g x0 :
  erase h = h0 -> h0 !! g = Some x0 ->
  exists x, h !! g = Some x /\ x0 = with_status NOT_VISITED x.
Proof.
  intros <-. rewrite erase_lookup. destruct (h !! g) as [x|]; [|done].
  intros [= <-]. eauto.
Qed.

Section traversal.
Local Open Scope nat_scope.

(** The store at entry: statuses all reset. *)
Variable h0 : gmap handle nand_t.

(** Slot value [i] is settled: it is connected, and a gate it names is
    already in the order [topo], or is the gate [pending] on the stack
    right above. *)
Definition slot_done (topo : list handle) (pending : option handle)
    (i : in_info_t) : Prop :=
  i_type i <> EMPTY_INPUT /\
  forall s, i_type i = NAND_GATE_INPUT -> i_ptr i = GatePtr s ->
            s ∈ topo \/ pending = Some s.

Definition frame_ok (topo : list handle) (pending : option handle)
    (f : dfs_info_t) : Prop :=
  exists x, h0 !! d_gate f = Some x /\ d_ind f <= input_count x /\
    (forall k i, k < d_ind f -> inputs x !! k = Some i ->
                 slot_done topo pending i) /\
    (forall s, pending = Some s ->
       exists k i, k < d_ind f /\ inputs x !! k = Some i /\
                   i_type i = NAND_GATE_INPUT /\ i_ptr i = GatePtr s).

Fixpoint frames_ok (topo : list handle) (pending : option handle)
    (stack : list dfs_info_t) : Prop :=
  match stack with
  | [] => True
  | f :: rest => frame_ok topo pending f /\ frames_ok topo (Some (d_gate f)) rest
  end.

(** The output of [s] is wired to a slot of [g]. *)
Definition feeds (g s : handle) : Prop :=
  exists x k i, h0 !! g = Some x /\ inputs x !! k = Some i /\
                i_type i = NAND_GATE_INPUT /\ i_ptr i = GatePtr s.

(** [g] is in the dependency closure of the gates [req]. *)
Definition in_closure (req : list handle) (g : handle) : Prop :=
  exists r, r ∈ req /\ rtc feeds r g.

(** [topo], latest gate first, lists every gate after the gates that feed
    it, and every listed gate is fully connected. *)
Inductive sorted_topo : list handle -> Prop :=
| sorted_topo_nil : sorted_topo []
| sorted_topo_cons g t x :
    sorted_topo t -> g ∉ t -> h0 !! g = Some x ->
    (forall k i, inputs x !! k = Some i -> slot_done t None i) ->
    sorted_topo (g :: t).

Record dfs_inv (req started : list handle) (h : gmap handle nand_t)
    (stack : list dfs_info_t) (topo allg : list handle) : Prop := {
  di_erase : erase h = h0;
  di_touched : forall g x, h !! g = Some x -> status x <> NOT_VISITED -> g ∈ allg;
  di_visited : forall g x, h !! g = Some x -> (status x = VISITED <-> g ∈ topo);
  di_cp : forall g x, h !! g = Some x -> status x = CURRENTLY_PROCESSING ->
                      g ∈ d_gate <$> stack;
  di_stack_cp : forall f, f ∈ stack ->
    exists x, h !! d_gate f = Some x /\ status x = CURRENTLY_PROCESSING;
  di_nodup : NoDup (d_gate <$> stack);
  di_topo : sorted_topo topo;
  di_frames : frames_ok topo None stack;
  di_bottom : forall f, last stack = Some f -> d_gate f ∈ req;
  di_roots : forall r, r ∈ started -> r ∈ d_gate <$> stack \/ r ∈ topo;
  di_allg : forall g, g ∈ allg -> is_Some (h0 !! g);
  di_reach : forall g, g ∈ topo \/ g ∈ d_gate <$> stack -> in_closure req g
}.

Lemma slot_done_mono topo topo' pending pending' i :
  (forall s, s ∈ topo \/ pending = Some s -> s ∈ topo' \/ pending' = Some s) ->
  slot_done topo pending i -> slot_done topo' pending' i.
Proof. intros Hm [H1 H2]. split; [done|]. intros s Ht Hp. eauto. Qed.

Lemma frames_ok_mono topo g stack :
  frames_ok topo (Some g) stack -> frames_ok (g :: topo) None stack.
Proof.
  destruct stack as [|f rest]; [done|]. simpl. intros [Hf Hrest]. split.
  - destruct Hf as (x & Hx & Hk & Hdone & _). exists x. split; [done|].
    split; [done|]. split; [|done]. intros k i Hlt Hi.
    eapply slot_done_mono; [|by eapply Hdone].
    intros s [Hs|[= ->]]; left; set_solver.
  - revert Hrest. generalize (Some (d_gate f)). induction rest as [|f' rest IH];
      [done|]. simpl. intros p [Hf' Hrest]. split; [|by apply IH].
    destruct Hf' as (x & Hx & Hk & Hdone & Hp). exists x. split; [done|].
    split; [done|]. split; [|done]. intros k i Hlt Hi.
    eapply slot_done_mono; [|by eapply Hdone].
    intros s [Hs|Hs]; [left; set_solver|by right].
Qed.

(** ** The three moves of [process_node] *)

(** The frame on top has seen all its inputs: its gate joins the order. *)
Lemma dfs_inv_finish req started h g k rest topo allg x :
  dfs_inv req started h (DfsInfo g k :: rest) topo allg ->
  h !! g = Some x -> k = input_count x ->
  length (inputs x) = input_count x ->
  dfs_inv req started (<[g := with_status VISITED x]> h) rest (g :: topo) allg.
Proof.
  intros [He Ht Hv Hc Hs Hn Hto Hf Hb Hr Ha Hre] Hx Hk Hlen.
  assert (status x = CURRENTLY_PROCESSING) as Hst.
  { destruct (Hs (DfsInfo g k)) as (x' & Hx' & Hst); [set_solver|].
    simpl in Hx'. congruence. }
  simpl in Hn. apply NoDup_cons in Hn as [Hnin Hn].
  split.
  - by rewrite erase_set_status.
  - intros g' x'. rewrite lookup_insert. case_decide as Hd.
    + intros [= <-] _. subst g'. eapply Ht; [done|]. by rewrite Hst.
    + apply Ht.
  - intros g' x'. rewrite lookup_insert. case_decide as Hd.
    + intros [= <-]. subst g'. simpl. split; [set_solver|done].
    + intros Hx'. rewrite (Hv _ _ Hx'). set_solver.
  - intros g' x'. rewrite lookup_insert. case_decide as Hd.
    + by intros [= <-].
    + intros Hx' Hcp. specialize (Hc _ _ Hx' Hcp). simpl in Hc. set_solver.
  - intros f Hfin. destruct (Hs f) as (x' & Hx' & Hst'); [set_solver|].
    exists x'. split; [|done]. rewrite lookup_insert_ne; [done|].
    intros ->. apply Hnin. by apply list_elem_of_fmap_2.
  - done.
  - simpl in Hf. destruct Hf as [(x0 & Hx0 & _ & Hdone & _) _]. simpl in *.
    apply (erase_inv _ _ _ _ He) in Hx as Hx0'. rewrite Hx0 in Hx0'.
    injection Hx0' as ->. simpl in *.
    eapply sorted_topo_cons; [done| |done|].
    + intros Hin. apply (Hv _ _ Hx) in Hin. congruence.
    + simpl. intros k' i Hi. eapply Hdone; [|done].
      apply lookup_lt_Some in Hi. lia.
  - destruct Hf as [_ Hf]. by apply frames_ok_mono.
  - intros f Hl. apply Hb. destruct rest; [done|]. done.
  - intros r Hin. destruct (Hr r Hin) as [H1|H1]; [|set_solver].
    simpl in H1. set_solver.
  - done.
  - intros g' Hg'. apply Hre. simpl. set_solver.
Qed.

(** The frame on top moves past a settled input. *)
Lemma dfs_inv_advance req started h g k rest topo allg x i :
  dfs_inv req started h (DfsInfo g k :: rest) topo allg ->
  h !! g = Some x -> inputs x !! k = Some i ->
  length (inputs x) = input_count x ->
  slot_done topo None i ->
  dfs_inv req started h (DfsInfo g (S k) :: rest) topo allg.
Proof.
  intros [He Ht Hv Hc Hs Hn Hto Hf Hb Hr Ha Hre] Hx Hi Hlen Hdone.
  split; try done.
  - intros f [->|Hin]%elem_of_cons.
    + apply (Hs (DfsInfo g k)). set_solver.
    + apply Hs. set_solver.
  - simpl in *. destruct Hf as [(x0 & Hx0 & Hk & Hd & Hp) Hf]. split; [|done].
    simpl in *. apply (erase_inv _ _ _ _ He) in Hx as Hx0'. rewrite Hx0 in Hx0'.
    injection Hx0' as ->. simpl in *. eexists. split; [done|]. simpl.
    apply lookup_lt_Some in Hi as Hlt. split; [lia|]. split; [|done].
    intros k' i' Hk' Hi'. destruct (decide (k' = k)) as [->|].
    * rewrite Hi in Hi'. injection Hi' as Heq. by subst i'.
    * eapply Hd; [|done]. lia.
  - intros f Hl. destruct rest as [|f' rest'].
    + injection Hl as <-. by apply (Hb (DfsInfo g k)).
    + by apply Hb.
Qed.

Lemma in_closure_feeds req g s :
  in_closure req g -> feeds g s -> in_closure req s.
Proof. intros (r & Hr & Hrtc) Hf. exists r. split; [done|]. by eapply rtc_r. Qed.

(** The frame on top moves past input [k], which names the unvisited gate
    [s]: [s] is entered. *)
Lemma dfs_inv_enter req started h g k rest topo allg x i s y :
  dfs_inv req started h (DfsInfo g k :: rest) topo allg ->
  h !! g = Some x -> inputs x !! k = Some i ->
  length (inputs x) = input_count x ->
  i_type i = NAND_GATE_INPUT -> i_ptr i = GatePtr s ->
  h !! s = Some y -> status y = NOT_VISITED ->
  dfs_inv req started (<[s := with_status CURRENTLY_PROCESSING y]> h)
    (DfsInfo s 0 :: DfsInfo g (S k) :: rest) topo (s :: allg).
Proof.
  intros [He Ht Hv Hc Hs Hn Hto Hf Hb Hr Ha Hre] Hx Hi Hlen Hty Hptr Hy Hst.
  assert (s ∉ d_gate <$> DfsInfo g k :: rest) as Hnin.
  { intros (f & -> & Hin)%list_elem_of_fmap.
    destruct (Hs f Hin) as (y' & Hy' & Hst'). congruence. }
  split.
  - by rewrite erase_set_status.
  - intros g' x'. rewrite lookup_insert. case_decide as Hd.
    + intros _ _. set_solver.
    + intros Hx' Hne. specialize (Ht _ _ Hx' Hne). set_solver.
  - intros g' x'. rewrite lookup_insert. case_decide as Hd.
    + intros [= <-]. subst g'. simpl. split; [done|].
      intros Hin. apply (Hv _ _ Hy) in Hin. congruence.
    + apply Hv.
  - intros g' x'. rewrite lookup_insert. case_decide as Hd.
    + intros _ _. set_solver.
    + intros Hx' Hcp. specialize (Hc _ _ Hx' Hcp). simpl in *. set_solver.
  - intros f [->|Hin]%elem_of_cons.
    { simpl. rewrite lookup_insert_eq. eauto. }
    assert (exists x', h !! d_gate f = Some x' /\
                       status x' = CURRENTLY_PROCESSING) as (x' & Hx' & Hst').
    { apply elem_of_cons in Hin as [->|Hin].
      - apply (Hs (DfsInfo g k)). set_solver.
      - apply Hs. set_solver. }
    exists x'. split; [|done]. rewrite lookup_insert_ne; [done|]. congruence.
  - simpl in *. apply NoDup_cons. split; [|done]. set_solver.
  - done.
  - simpl in *. destruct Hf as [(x0 & Hx0 & Hk & Hd & Hp) Hf]. simpl in *.
    apply (erase_inv _ _ _ _ He) in Hx as Hx0'. rewrite Hx0 in Hx0'.
    injection Hx0' as ->. simpl in *.
    apply lookup_lt_Some in Hi as Hlt.
    split; [|split; [|done]].
    + apply (erase_inv _ _ _ _ He) in Hy. eexists. split; [done|].
      simpl. split; [lia|]. split; [intros; lia|done].
    + eexists. split; [done|]. simpl. split; [lia|]. split.
      * intros k' i' Hk' Hi'. destruct (decide (k' = k)) as [->|].
        -- rewrite Hi in Hi'. injection Hi' as <-. split; [congruence|].
           intros s' _ Hs'. right. congruence.
        -- eapply slot_done_mono; [|eapply (Hd k'); [lia|done]].
           intros s' [?|?]; [by left|done].
      * intros s' [= <-]. exists k, i. split; [lia|]. done.
  - intros f Hl. destruct rest as [|f' rest'].
    + injection Hl as <-. by apply (Hb (DfsInfo g k)).
    + by apply Hb.
  - intros r Hin. destruct (Hr r Hin) as [H1|H1]; [|by right].
    left. simpl in *. set_solver.
  - intros g' [->|Hin]%elem_of_cons; [|by apply Ha].
    apply (erase_inv _ _ _ _ He) in Hy. eauto.
  - intros g' [Hg'|Hg']; [apply Hre; by left|]. simpl in Hg'.
    apply elem_of_cons in Hg' as [->|Hg']; [|apply Hre; by right].
    apply (in_closure_feeds _ g); [apply Hre; right; simpl; set_solver|].
    apply (erase_inv _ _ _ _ He) in Hx. by exists (with_status NOT_VISITED x), k, i.
Qed.
End traversal.

Section evaluable.
Local Open Scope nat_scope.
Variable h0 : gmap handle nand_t.

(** [C] is a set of fully connected gates, closed under "feeds", in which
    [rank] decreases along every connection: a network without cycle and
    without empty input. *)
Definition acyclic_closed (C : handle -> Prop) (rank : handle -> nat) : Prop :=
  forall g, C g ->
    exists x, h0 !! g = Some x /\
      forall k i, inputs x !! k = Some i ->
        i_type i <> EMPTY_INPUT /\
        forall s, i_type i = NAND_GATE_INPUT -> i_ptr i = GatePtr s ->
                  C s /\ rank s < rank g.

(** The gates [req] and all gates they depend on can be evaluated. *)
Definition evaluable (req : list handle) : Prop :=
  exists C rank, (forall g, g ∈ req -> C g) /\ acyclic_closed C rank.


Lemma frames_chain C rank topo :
  acyclic_closed C rank ->
  forall stack pending,
    frames_ok h0 topo pending stack ->
    (forall f, last stack = Some f -> C (d_gate f)) ->
    Forall (fun f => C (d_gate f)) stack /\
    forall s, pending = Some s -> stack <> [] ->
      C s /\ Forall (fun f => rank s < rank (d_gate f)) stack.
Proof.
  intros Hac. induction stack as [|f rest IH]; intros pending Hf Hlast.
  { split; [constructor|]. done. }
  simpl in Hf. destruct Hf as [Hf Hrest].
  assert (C (d_gate f) /\ Forall (fun f' => C (d_gate f')) rest /\
          Forall (fun f' => rank (d_gate f) < rank (d_gate f')) rest)
    as (HCf & HCrest & Hrank).
  { destruct rest as [|f' rest'].
    - split; [by apply Hlast|]. split; constructor.
    - destruct (IH _ Hrest) as [H1 H2].
      { intros f0 Hl. by apply Hlast. }
      destruct (H2 _ eq_refl) as [H3 H4]; done. }
  split; [by constructor|].
  intros s -> _. destruct Hf as (x & Hx & _ & _ & Hp).
  destruct (Hp s eq_refl) as (k & i & _ & Hi & Hty & Hptr).
  destruct (Hac _ HCf) as (x' & Hx' & Hslots). rewrite Hx in Hx'.
  injection Hx' as <-. destruct (Hslots _ _ Hi) as [_ Hs].
  destruct (Hs s Hty Hptr) as [HCs Hlt]. split; [done|].
  constructor; [done|]. eapply Forall_impl; [done|]. simpl. intros; lia.
Qed.

Lemma dfs_inv_stack_ranked C rank req started h f rest topo allg :
  dfs_inv h0 req started h (f :: rest) topo allg ->
  acyclic_closed C rank -> (forall r, r ∈ req -> C r) ->
  C (d_gate f) /\ Forall (fun f' => rank (d_gate f) < rank (d_gate f')) rest.
Proof.
  intros Hinv Hac Hroots.
  destruct (frames_chain C rank topo Hac _ _ (di_frames _ _ _ _ _ _ _ Hinv))
    as [HC _].
  { intros f0 Hl. apply Hroots. by eapply di_bottom. }
  apply Forall_cons in HC as [HCf _]. split; [done|].
  pose proof (di_frames _ _ _ _ _ _ _ Hinv) as [_ Hrest]. simpl in Hrest.
  destruct rest as [|f' rest']; [constructor|].
  destruct (frames_chain C rank topo Hac _ _ Hrest) as [_ H2].
  { intros f0 Hl. apply Hroots. by eapply di_bottom. }
  by destruct (H2 _ eq_refl).
Qed.

(** The two ways the traversal gives up tell that the request cannot be
    evaluated. *)
Lemma empty_not_evaluable req started h g k rest topo allg x i :
  dfs_inv h0 req started h (DfsInfo g k :: rest) topo allg ->
  h !! g = Some x -> inputs x !! k = Some i -> i_type i = EMPTY_INPUT ->
  ~ evaluable req.
Proof.
  intros Hinv Hx Hi Hty (C & rank & HC & Hac).
  destruct (dfs_inv_stack_ranked C rank _ _ _ _ _ _ _ Hinv Hac HC) as [HCg _].
  simpl in HCg. destruct (Hac _ HCg) as (x0 & Hx0 & Hslots).
  apply (erase_inv _ _ _ _ (di_erase _ _ _ _ _ _ _ Hinv)) in Hx.
  rewrite Hx in Hx0. injection Hx0 as <-. simpl in Hslots.
  by destruct (Hslots _ _ Hi).
Qed.

Lemma cycle_not_evaluable req started h g k rest topo allg x i s y :
  dfs_inv h0 req started h (DfsInfo g k :: rest) topo allg ->
  h !! g = Some x -> inputs x !! k = Some i ->
  i_type i = NAND_GATE_INPUT -> i_ptr i = GatePtr s ->
  h !! s = Some y -> status y = CURRENTLY_PROCESSING ->
  ~ evaluable req.
Proof.
  intros Hinv Hx Hi Hty Hptr Hy Hst (C & rank & HC & Hac).
  destruct (dfs_inv_stack_ranked C rank _ _ _ _ _ _ _ Hinv Hac HC) as [HCg Hrank].
  simpl in *. destruct (Hac _ HCg) as (x0 & Hx0 & Hslots).
  apply (erase_inv _ _ _ _ (di_erase _ _ _ _ _ _ _ Hinv)) in Hx.
  rewrite Hx in Hx0. injection Hx0 as <-. simpl in Hslots.
  destruct (Hslots _ _ Hi) as [_ Hs]. destruct (Hs s Hty Hptr) as [_ Hlt].
  pose proof (di_cp _ _ _ _ _ _ _ Hinv _ _ Hy Hst) as Hin. simpl in Hin.
  apply elem_of_cons in Hin as [->|Hin]; [lia|].
  apply list_elem_of_fmap in Hin as (f & -> & Hin).
  rewrite Forall_forall in Hrank. specialize (Hrank _ Hin). lia.
Qed.

(** ** Work left, for the bound on the rounds of the loop *)

Definition gate_work (x : nand_t) : nat :=
  if bool_decide (status x = NOT_VISITED) then S (input_count x) else 0.

Lemma unvisited_work_insert h g x x' :
  h !! g = Some x ->
  unvisited_work (<[g := x']> h) + gate_work x = unvisited_work h + gate_work x'.
Proof.
  intros Hx. unfold unvisited_work.
  rewrite (map_fold_delete_L _ _ g x h); [|intros; lia|done].
  rewrite <- (insert_delete_eq h g x').
  rewrite (map_fold_insert_L _ _ g x' (delete g h));
    [|intros; lia|by rewrite lookup_delete_eq].
  fold (gate_work x) (gate_work x'). lia.
Qed.

Definition frame_work (f : dfs_info_t) : nat :=
  match h0 !! d_gate f with
  | Some x => S (input_count x) - d_ind f
  | None => 0
  end.

Definition dfs_measure (h : gmap handle nand_t) (stack : list dfs_info_t) : nat :=
  sum_list (frame_work <$> stack) + unvisited_work h.
End evaluable.

(** No allocation fails from here on. *)
Definition alloc_ok (w : world) : Prop := Forall (fun b => b = true) (alloc w).

Lemma post_stack_push {A} (s : stack_t A) (x : A) w Q :
  (forall w', heap w' = heap w -> bools w' = bools w -> errno w' = errno w ->
     (alloc_ok w -> alloc_ok w') -> Q (0, x :: s) w') ->
  (forall w', heap w' = heap w -> bools w' = bools w -> errno w' = errno w ->
     ~ alloc_ok w -> Q (-1, s) w') ->
  post (stack_push s x) w Q.
Proof.
  intros Hok Hfail. unfold stack_push, post, bind, malloc_ok, ret.
  unfold alloc_ok in *.
  destruct (alloc w) as [|[] a] eqn:Ha; simpl.
  - apply Hok; try done. by rewrite Ha.
  - apply Hok; try done. simpl. by intros [_ ?]%Forall_cons_1.
  - apply Hfail; try done. by intros [? _]%Forall_cons_1.
Qed.

Lemma post_stack_new {A} w (Q : option (stack_t A) -> world -> Prop) :
  (forall w', heap w' = heap w -> bools w' = bools w -> errno w' = errno w ->
     (alloc_ok w -> alloc_ok w') -> Q (Some []) w') ->
  (forall w', heap w' = heap w -> bools w' = bools w -> errno w' = errno w ->
     ~ alloc_ok w -> Q None w') ->
  post stack_new w Q.
Proof.
  intros Hok Hfail. unfold stack_new, post, bind, malloc_ok, ret.
  unfold alloc_ok in *.
  destruct (alloc w) as [|[] a] eqn:Ha; simpl.
  - apply Hok; try done. by rewrite Ha.
  - apply Hok; try done. simpl. by intros [_ ?]%Forall_cons_1.
  - apply Hfail; try done. by intros [? _]%Forall_cons_1.
Qed.

Section traversal_run.
Variable h0 : gmap handle nand_t.
Hypothesis Hwf0 : wf h0.

Definition touched (h : gmap handle nand_t) (allg : list handle) : Prop :=
  (forall g x, h !! g = Some x -> status x <> NOT_VISITED -> g ∈ allg) /\
  (forall g, g ∈ allg -> is_Some (h0 !! g)).

Lemma dfs_inv_touched req started h stack topo allg :
  dfs_inv h0 req started h stack topo allg -> touched h allg.
Proof. intros Hinv. split; [eapply di_touched|eapply di_allg]; done. Qed.

(** What a step of the traversal leaves behind: statuses are the only
    change and every changed gate is recorded in [all_gates]; a step that
    gives up does so for want of memory or because the request cannot be
    evaluated. *)
Definition step_result (req started : list handle) (w : world)
    (r : Z * stack_t dfs_info_t * stack_t handle * stack_t handle)
    (w' : world) : Prop :=
  let '(rc, stack, topo, allg) := r in
  bools w' = bools w /\ (alloc_ok w -> alloc_ok w') /\
  erase (heap w') = h0 /\ touched (heap w') allg /\
  ((rc = 0 /\ errno w' = errno w /\ dfs_inv h0 req started (heap w') stack topo allg)
   \/ (rc = -1 /\
       ((errno w' = ENOMEM /\ ~ alloc_ok w) \/
        (errno w' = ECANCELED /\ ~ evaluable h0 req)))).

Lemma dfs_measure_cons h f stack :
  dfs_measure h0 h (f :: stack)
  = (frame_work h0 f + dfs_measure h0 h stack)%nat.
Proof. unfold dfs_measure. rewrite fmap_cons. simpl. lia. Qed.

Lemma frame_work_top g k x :
  h0 !! g = Some x ->
  frame_work h0 (DfsInfo g k) = (S (input_count x) - k)%nat.
Proof. unfold frame_work. simpl. by intros ->. Qed.

Lemma dfs_measure_heap h h' stack :
  unvisited_work h' = unvisited_work h ->
  dfs_measure h0 h' stack = dfs_measure h0 h stack.
Proof. unfold dfs_measure. by intros ->. Qed.

Lemma dfs_inv_top req started h g k rest topo allg :
  dfs_inv h0 req started h (DfsInfo g k :: rest) topo allg ->
  exists x, h !! g = Some x /\ status x = CURRENTLY_PROCESSING /\
            length (inputs x) = input_count x /\ (k <= input_count x)%nat /\
            h0 !! g = Some (with_status NOT_VISITED x).
Proof.
  intros Hinv.
  destruct (di_stack_cp _ _ _ _ _ _ _ Hinv (DfsInfo g k)) as (x & Hx & Hst);
    [set_solver|]. simpl in Hx.
  pose proof (erase_inv _ _ _ _ (di_erase _ _ _ _ _ _ _ Hinv) Hx) as Hx0.
  exists x. split; [done|]. split; [done|].
  split; [apply (wf_len _ Hwf0 _ _ Hx0)|]. split; [|done].
  destruct (di_frames _ _ _ _ _ _ _ Hinv) as [(x0 & Hx0' & Hk & _) _].
  simpl in *. rewrite Hx0 in Hx0'. by injection Hx0' as <-.
Qed.

Lemma process_node_run req started w g k rest topo allg :
  dfs_inv h0 req started (heap w) (DfsInfo g k :: rest) topo allg ->
  post (process_node (DfsInfo g k :: rest) topo allg) w (fun r w' =>
    step_result req started w r w' /\
    (r.1.1.1 = 0 ->
     (dfs_measure h0 (heap w') r.1.1.2 < dfs_measure h0 (heap w) (DfsInfo g k :: rest))%nat)).
Proof.
  intros Hinv.
  destruct (dfs_inv_top _ _ _ _ _ _ _ _ Hinv) as (x & Hx & Hst & Hlen & Hk & Hx0).
  pose proof (di_erase _ _ _ _ _ _ _ Hinv) as Her.
  pose proof (dfs_inv_touched _ _ _ _ _ _ Hinv) as Hto.
  unfold process_node. mbind. apply post_ret. mbind. apply post_ret.
  simpl. mbind. apply (post_deref _ _ x); [done|]. cbv beta.
  case_bool_decide as Hfin.
  - (* all inputs seen *)
    mbind. apply (post_modify _ _ _ x); [done|].
    pose proof (dfs_inv_finish _ _ _ _ _ _ _ _ _ _ Hinv Hx Hfin Hlen) as Hinv'.
    mbind. apply post_stack_push; simpl.
    + intros w' Hh Hb He Ha. apply post_ret. simpl in *. rewrite Hh, Hb. split.
      * split; [done|]. split; [done|].
        split; [by rewrite erase_set_status|].
        split; [exact (dfs_inv_touched _ _ _ _ _ _ Hinv')|]. left. done.
      * intros _. rewrite dfs_measure_cons, (frame_work_top _ _ _ Hx0).
        pose proof (unvisited_work_insert (heap w) g x (with_status VISITED x) Hx)
          as Hw.
        unfold gate_work in Hw. simpl in Hw.
        rewrite !bool_decide_eq_false_2 in Hw by congruence.
        unfold dfs_measure. simpl. lia.
    + intros w' Hh Hb He Ha.
      mbind. apply post_set_errno, post_ret. simpl. rewrite Hh, Hb. split.
      * split; [done|]. split; [done|].
        split; [by rewrite erase_set_status|].
        split; [exact (dfs_inv_touched _ _ _ _ _ _ Hinv')|]. right. split; [done|].
        by left.
      * done.
  - (* input [k] is next *)
    assert (k < length (inputs x))%nat as Hlt by lia.
    destruct (lookup_lt_is_Some_2 _ _ Hlt) as [i Hi].
    assert (slot h0 g k = Some i) as Hs0 by (apply slot_Some; eauto).
    pose proof (wf_slot _ Hwf0 _ _ _ Hs0) as Hsw.
    assert (dfs_measure h0 (heap w) (DfsInfo g (S k) :: rest)
            < dfs_measure h0 (heap w) (DfsInfo g k :: rest))%nat as Hmeasure.
    { rewrite !dfs_measure_cons, !(frame_work_top _ _ _ Hx0).
      simpl. lia. }
    mbind. apply post_stack_push; simpl.
    2:{ intros w' Hh Hb He Ha. mbind. apply post_set_errno, post_ret. simpl.
        rewrite Hh, Hb. split; [|done]. split; [done|]. split; [done|].
        split; [done|]. split; [done|]. right. split; [done|]. by left. }
    intros w1 Hh1 Hb1 He1 Ha1. rewrite <- Hh1 in Hx.
    mbind. apply (post_deref _ _ x); [done|]. mbind.
    apply (post_array_get _ _ _ _ _ Hi). cbv beta. rewrite Hh1 in Hx.
    mbind. unfold process_input.
    destruct (i_type i) eqn:Hty; simpl.
    + (* an empty input *)
      mbind. apply post_set_errno, post_ret. simpl. apply post_ret. simpl.
      rewrite Hh1, Hb1. split; [|done]. split; [done|]. split; [done|].
      split; [done|]. split; [done|]. right. split; [done|]. right.
      split; [done|]. by eapply empty_not_evaluable.
    + (* a signal *)
      apply post_ret. simpl. apply post_ret. simpl.
      rewrite Hh1, Hb1. split; [|auto]. split; [done|]. split; [done|].
      split; [done|]. split; [done|]. left. split; [done|]. split; [done|].
      eapply dfs_inv_advance; eauto. split; [congruence|]. congruence.
    + (* a gate *)
      unfold slot_wf in Hsw. rewrite Hty in Hsw.
      destruct Hsw as (s & Hptr & (y0 & Hy0 & _)%orec_Some). rewrite Hptr.
      destruct (erase_inv0 _ _ _ _ Her Hy0) as (y & Hy & _).
      mbind. unfold process_input_nand. rewrite <- Hh1 in Hy.
      mbind. apply (post_deref _ _ y); [done|]. cbv beta. rewrite Hh1 in Hy.
      destruct (status y) eqn:Hsty; simpl.
      * (* already in the order *)
        apply post_ret. simpl. apply post_ret. simpl. apply post_ret. simpl.
        rewrite Hh1, Hb1. split; [|auto]. split; [done|]. split; [done|].
        split; [done|]. split; [done|]. left. split; [done|]. split; [done|].
        eapply dfs_inv_advance; eauto. split; [congruence|].
        intros s' _ Hs'. left. rewrite Hptr in Hs'. injection Hs' as <-.
        by apply (di_visited _ _ _ _ _ _ _ Hinv _ _ Hy).
      * (* not met yet: enter it *)
        mbind. apply post_stack_push; simpl.
        2:{ intros w2 Hh2 Hb2 He2 Ha2. mbind. apply post_set_errno, post_ret.
            simpl. apply post_ret. simpl. apply post_ret. simpl.
            rewrite Hh2, Hh1, Hb2, Hb1. split; [|done]. split; [done|].
            split; [tauto|]. split; [done|]. split; [done|]. right.
            split; [done|]. left. split; [done|]. tauto. }
        intros w2 Hh2 Hb2 He2 Ha2. rewrite <- Hh1, <- Hh2 in Hy.
        mbind. apply (post_modify _ _ _ y); [done|]. rewrite Hh2, Hh1 in *.
        pose proof (dfs_inv_enter _ _ _ _ _ _ _ _ _ _ _ _ _
                      Hinv Hx Hi Hlen Hty Hptr Hy Hsty) as Hinv'.
        mbind. apply post_stack_push; simpl.
        2:{ intros w3 Hh3 Hb3 He3 Ha3. mbind. apply post_set_errno, post_ret.
            simpl. apply post_ret. simpl. apply post_ret. simpl.
            rewrite Hh3, Hb3, Hb2, Hb1. split; [|done]. split; [done|].
            split; [tauto|]. split; [by rewrite erase_set_status|].
            split; [exact (dfs_inv_touched _ _ _ _ _ _ Hinv')|]. right.
            split; [done|]. left. split; [done|]. tauto. }
        intros w3 Hh3 Hb3 He3 Ha3. apply post_ret. simpl. apply post_ret. simpl.
        apply post_ret. simpl.
        rewrite Hh3, Hb3, Hb2, Hb1. split.
        -- split; [done|]. split; [tauto|].
           split; [by rewrite erase_set_status|].
           split; [exact (dfs_inv_touched _ _ _ _ _ _ Hinv')|]. left.
           split; [done|]. split; [congruence|]. done.
        -- intros _. pose proof (erase_inv _ _ _ _ Her Hy) as Hy0'.
           rewrite !dfs_measure_cons, !(frame_work_top _ _ _ Hx0),
             (frame_work_top _ _ _ Hy0').
           pose proof (unvisited_work_insert (heap w) s y
                         (with_status CURRENTLY_PROCESSING y) Hy) as Hw.
           unfold gate_work in Hw. simpl in Hw. rewrite Hsty in Hw.
           rewrite bool_decide_eq_true_2 in Hw by done.
           unfold dfs_measure. simpl. lia.
      * (* on the stack: a cycle *)
        mbind. apply post_set_errno, post_ret. simpl. apply post_ret. simpl.
        apply post_ret. simpl.
        rewrite Hh1, Hb1. split; [|done]. split; [done|]. split; [done|].
        split; [done|]. split; [done|]. right. split; [done|]. right.
        split; [done|]. by eapply cycle_not_evaluable.
Qed.
End traversal_run.

Section traversal_loops.
Variable h0 : gmap handle nand_t.
Hypothesis Hwf0 : wf h0.
Variable req : list handle.

Lemma step_result_trans started started' w w1 w' stack topo allg r :
  step_result h0 req started w (0, stack, topo, allg) w1 ->
  step_result h0 req started' w1 r w' ->
  step_result h0 req started' w r w'.
Proof.
  destruct r as [[[rc st] to] al].
  intros (Hb1 & Ha1 & _ & _ & H1) (Hb2 & Ha2 & He2 & Ht2 & H2).
  assert (errno w1 = errno w) as Herr.
  { destruct H1 as [(_ & ? & _)|[? _]]; done. }
  split; [congruence|]. split; [tauto|]. split; [done|]. split; [done|].
  destruct H2 as [(-> & He & Hinv)|(-> & H2)].
  - left. split; [done|]. split; [congruence|done].
  - right. split; [done|]. destruct H2 as [[? ?]|?]; [left|right]; tauto.
Qed.

Lemma dfs_loop_run started fuel : forall w stack topo allg,
  dfs_inv h0 req started (heap w) stack topo allg ->
  (dfs_measure h0 (heap w) stack <= fuel)%nat ->
  post (dfs_loop fuel stack topo allg) w (fun r w' =>
    step_result h0 req started w r w' /\ (r.1.1.1 = 0 -> r.1.1.2 = [])).
Proof.
  induction fuel as [|fuel IH]; intros w stack topo allg Hinv Hfuel.
  - destruct stack as [|[g k] rest]; simpl.
    + apply post_ret. simpl. split; [|done]. split; [done|]. split; [done|].
      split; [eapply di_erase; done|].
      split; [by eapply dfs_inv_touched|]. left. done.
    + exfalso. destruct (dfs_inv_top _ Hwf0 _ _ _ _ _ _ _ _ Hinv)
        as (x & Hx & Hst & Hlen & Hk & Hx0).
      rewrite dfs_measure_cons, (frame_work_top _ _ _ _ Hx0) in Hfuel.
      simpl in Hfuel. lia.
  - destruct stack as [|[g k] rest]; simpl.
    + apply post_ret. simpl. split; [|done]. split; [done|]. split; [done|].
      split; [eapply di_erase; done|].
      split; [by eapply dfs_inv_touched|]. left. done.
    + mbind. eapply post_mono; [by apply process_node_run|].
      intros [[[rc st] to] al] w1 [Hres Hdec]. simpl in Hdec.
      pose proof Hres as (Hb1 & Ha1 & He1 & Ht1 & [(-> & Herr & Hinv1)|(-> & H1)]).
      * simpl. eapply post_mono.
        { apply IH; [done|]. specialize (Hdec eq_refl). lia. }
        intros r w' [Hres' Hst]. split; [|done].
        by eapply step_result_trans.
      * simpl. apply post_ret. done.
Qed.

Lemma post_dfs_fuel n w Q :
  Q (S n + unvisited_work (heap w))%nat w -> post (dfs_fuel n) w Q.
Proof. done. Qed.

Lemma dfs_inv_start started h topo allg g x :
  dfs_inv h0 req started h [] topo allg ->
  h !! g = Some x -> status x <> VISITED -> g ∈ req ->
  status x = NOT_VISITED /\
  dfs_inv h0 req (g :: started) (<[g := with_status CURRENTLY_PROCESSING x]> h)
    [DfsInfo g 0] topo (g :: allg).
Proof.
  intros [He Ht Hv Hc Hs Hn Hto Hf Hb Hr Ha Hre] Hx Hst Hreq.
  assert (status x = NOT_VISITED) as Hnv.
  { destruct (status x) eqn:E; [done|done|].
    specialize (Hc _ _ Hx E). simpl in Hc. by apply elem_of_nil in Hc. }
  split; [done|]. split.
  - by rewrite erase_set_status.
  - intros g' x'. rewrite lookup_insert. case_decide as Hd.
    + intros _ _. set_solver.
    + intros Hx' Hne. specialize (Ht _ _ Hx' Hne). set_solver.
  - intros g' x'. rewrite lookup_insert. case_decide as Hd.
    + intros [= <-]. subst g'. simpl. split; [done|].
      intros Hin. apply (Hv _ _ Hx) in Hin. congruence.
    + apply Hv.
  - intros g' x'. rewrite lookup_insert. case_decide as Hd.
    + intros _ _. set_solver.
    + intros Hx' Hcp. specialize (Hc _ _ Hx' Hcp). simpl in *. set_solver.
  - intros f ->%list_elem_of_singleton. simpl. rewrite lookup_insert_eq. eauto.
  - simpl. apply NoDup_singleton.
  - done.
  - simpl. split; [|done]. apply (erase_inv _ _ _ _ He) in Hx.
    eexists. split; [done|]. simpl. split; [lia|]. split; [intros; lia|done].
  - simpl. by intros f [= <-].
  - intros r [->|Hin]%elem_of_cons; [left; set_solver|].
    destruct (Hr r Hin) as [H1|H1]; [|by right]. simpl in H1. set_solver.
  - intros g' [->|Hin]%elem_of_cons; [|by apply Ha].
    apply (erase_inv _ _ _ _ He) in Hx. eauto.
  - intros g' [Hg'|Hg']; [apply Hre; by left|]. simpl in Hg'.
    apply list_elem_of_singleton in Hg' as ->. by exists g.
Qed.

Lemma topo_sort_dfs_run started w g x topo allg :
  dfs_inv h0 req started (heap w) [] topo allg ->
  heap w !! g = Some x -> status x <> VISITED -> g ∈ req ->
  post (topo_sort_dfs g [] topo allg) w (fun r w' =>
    step_result h0 req (g :: started) w r w' /\ (r.1.1.1 = 0 -> r.1.1.2 = [])).
Proof.
  intros Hinv Hx Hst Hreq.
  destruct (dfs_inv_start _ _ _ _ _ _ Hinv Hx Hst Hreq) as [Hnv Hinv'].
  pose proof (dfs_inv_touched _ _ _ _ _ _ _ Hinv) as [Ht1 Ht2].
  pose proof (di_erase _ _ _ _ _ _ _ Hinv) as Her.
  assert (is_Some (h0 !! g)) as Hg0.
  { apply (erase_inv _ _ _ _ Her) in Hx. eauto. }
  unfold topo_sort_dfs. mbind. apply post_stack_push; simpl.
  2:{ intros w1 Hh1 Hb1 He1 Ha1. mbind. apply post_set_errno, post_ret. simpl.
      rewrite Hh1, Hb1. split; [|done]. split; [done|]. split; [done|].
      split; [done|]. split; [done|]. right. split; [done|]. by left. }
  intros w1 Hh1 Hb1 He1 Ha1. mbind. apply post_stack_push; simpl.
  2:{ intros w2 Hh2 Hb2 He2 Ha2. mbind. apply post_set_errno, post_ret. simpl.
      rewrite Hh2, Hh1, Hb2, Hb1. split; [|done]. split; [done|].
      split; [tauto|]. split; [done|]. split.
      - split; [intros; set_solver|]. intros g' [->|?]%elem_of_cons; eauto.
      - right. split; [done|]. left. split; [done|]. tauto. }
  intros w2 Hh2 Hb2 He2 Ha2. rewrite <- Hh1, <- Hh2 in Hx.
  mbind. apply (post_modify _ _ _ x); [done|]. rewrite Hh2, Hh1 in *.
  mbind. apply (post_deref _ _ (with_status CURRENTLY_PROCESSING x)).
  { simpl. by rewrite lookup_insert_eq. }
  mbind. apply post_dfs_fuel. cbv beta.
  eapply post_mono.
  { eapply (dfs_loop_run (g :: started)); simpl; [done|].
    rewrite dfs_measure_cons. destruct Hg0 as [x0 Hx0].
    pose proof (erase_inv _ _ _ _ Her Hx) as Hx0'.
    rewrite (frame_work_top _ _ _ _ Hx0'). simpl. unfold dfs_measure. simpl.
    lia. }
  intros r w' [Hres Hstack]. split; [|done].
  destruct r as [[[rc st] to] al].
  destruct Hres as (Hb & Ha & He & Ht & H). simpl in *.
  split; [congruence|]. split; [tauto|]. split; [done|]. split; [done|].
  destruct H as [(-> & Herr & Hinv2)|(-> & H2)].
  - left. split; [done|]. split; [congruence|done].
  - right. split; [done|]. destruct H2 as [[? ?]|?]; [left|right]; tauto.
Qed.
End traversal_loops.

Lemma clear_gates_run allg : forall w,
  (forall g, g ∈ allg -> is_Some (heap w !! g)) ->
  post (clear_gates allg) w (fun _ w' =>
    exists h', w' = set_heap h' w /\
      forall g, h' !! g = if decide (g ∈ allg)
                          then with_status NOT_VISITED <$> heap w !! g
                          else heap w !! g).
Proof.
  induction allg as [|a l IH]; intros w Hin; simpl.
  - apply post_ret. exists (heap w). split; [by destruct w|].
    done.
  - destruct (Hin a) as [x Hx]; [set_solver|].
    mbind. apply (post_modify _ _ _ x); [done|].
    eapply post_mono.
    { apply IH. simpl. intros g Hg. rewrite lookup_insert.
      case_decide; [eauto|]. apply Hin. set_solver. }
    simpl. intros _ w' (h' & -> & Hh'). exists h'. split; [done|].
    intros g. rewrite Hh', lookup_insert.
    destruct (decide (a = g)) as [->|Hne].
    + rewrite Hx. rewrite (decide_True (P := g ∈ g :: l)) by set_solver.
      by case_decide.
    + repeat case_decide; try done; set_solver.
Qed.

Section topo_sort.
Variable h0 : gmap handle nand_t.
Hypothesis Hwf0 : wf h0.
Variable req : list handle.
Hypothesis Hreq0 : forall g, g ∈ req -> is_Some (h0 !! g).

Lemma dfs_inv_add_started started h stack topo allg g :
  dfs_inv h0 req started h stack topo allg -> g ∈ topo ->
  dfs_inv h0 req (g :: started) h stack topo allg.
Proof.
  intros [He Ht Hv Hc Hs Hn Hto Hf Hb Hr Ha Hre] Hg. split; try done.
  intros r [->|Hin]%elem_of_cons; [by right|by apply Hr].
Qed.

Lemma topo_sort_loop_run gs : forall w started topo allg,
  dfs_inv h0 req started (heap w) [] topo allg ->
  (forall g, g ∈ gs -> g ∈ req) ->
  post (topo_sort_loop gs [] topo allg) w (fun r w' =>
    step_result h0 req (reverse gs ++ started) w r w' /\
    (r.1.1.1 = 0 -> r.1.1.2 = [])).
Proof.
  induction gs as [|g gs IH]; intros w started topo allg Hinv Hreq; simpl.
  - apply post_ret. simpl. split; [|done]. split; [done|]. split; [done|].
    split; [eapply di_erase; done|].
    split; [by eapply dfs_inv_touched|]. left. done.
  - rewrite reverse_cons, <- app_assoc. simpl.
    pose proof (di_erase _ _ _ _ _ _ _ Hinv) as Her.
    assert (g ∈ req) as Hg by (apply Hreq; set_solver).
    assert (forall g', g' ∈ gs -> g' ∈ req) as Hreq' by (intros; apply Hreq; set_solver).
    destruct (Hreq0 g Hg) as [x0 Hx0].
    destruct (erase_inv0 _ _ _ _ Her Hx0) as (x & Hx & _).
    mbind. apply (post_deref _ _ x); [done|]. cbv beta.
    case_bool_decide as Hst.
    + eapply post_mono.
      { apply (IH w (g :: started)); [|done].
        apply dfs_inv_add_started; [done|].
        by apply (di_visited _ _ _ _ _ _ _ Hinv _ _ Hx). }
      done.
    + mbind. eapply post_mono; [by eapply topo_sort_dfs_run|].
      intros [[[rc st] to] al] w1 [Hres Hstack]. simpl in Hstack.
      pose proof Hres as (Hb1 & Ha1 & He1 & Ht1 & [(-> & Herr & Hinv1)|(-> & H1)]).
      * simpl. rewrite Hstack in * by done. eapply post_mono.
        { apply (IH w1 (g :: started)); done. }
        intros r w' [Hres' Hst']. split; [|done].
        by eapply step_result_trans.
      * simpl. apply post_ret. split; [|done].
        split; [done|]. split; [done|]. split; [done|]. split; [done|].
        by right.
Qed.

(** The order handed to [evaluate_sorted], first gate first. *)
Definition topo_order (ord : list handle) : Prop :=
  sorted_topo h0 (reverse ord) /\
  (forall g, g ∈ req -> g ∈ ord) /\
  (forall g, g ∈ ord -> in_closure h0 req g).

Lemma dfs_inv_init :
  all_not_visited h0 -> dfs_inv h0 req [] h0 [] [] [].
Proof.
  intros Hnv. split; try done.
  - by apply erase_id.
  - intros g x Hx Hst. by rewrite (Hnv _ _ Hx) in Hst.
  - intros g x Hx. rewrite (Hnv _ _ Hx). split; [done|]. by intros ?%elem_of_nil.
  - intros g x Hx. by rewrite (Hnv _ _ Hx).
  - by intros f ?%elem_of_nil.
  - constructor.
  - constructor.
  - by intros r ?%elem_of_nil.
  - by intros r ?%elem_of_nil.
  - by intros g [?%elem_of_nil|?%elem_of_nil].
Qed.

Lemma restore_statuses h h' allg :
  erase h = h0 -> touched h0 h allg ->
  (forall g, h' !! g = if decide (g ∈ allg)
                       then with_status NOT_VISITED <$> h !! g
                       else h !! g) ->
  h' = h0.
Proof.
  intros <- [Ht _] Hh'. apply map_eq. intros g.
  rewrite Hh', erase_lookup. case_decide as Hin; [done|].
  destruct (h !! g) as [x|] eqn:Hx; [|done]. simpl. f_equal.
  destruct (decide (status x = NOT_VISITED)) as [Hst|Hst].
  - destruct x; simpl in *. by subst.
  - by specialize (Ht _ _ Hx Hst).
Qed.

Lemma topo_sort_run w :
  heap w = h0 -> all_not_visited h0 ->
  post (topo_sort req []) w (fun r w' =>
    bools w' = bools w /\ (alloc_ok w -> alloc_ok w') /\ heap w' = h0 /\
    ((r.1 = 0 /\ errno w' = errno w /\ topo_order r.2) \/
     (r.1 = -1 /\
      ((errno w' = ENOMEM /\ ~ alloc_ok w) \/
       (errno w' = ECANCELED /\ ~ evaluable h0 req))))).
Proof.
  intros Hh Hnv. unfold topo_sort. mbind. apply post_stack_new.
  2:{ intros w1 Hh1 Hb1 He1 Ha1. mbind. apply post_set_errno, post_ret. simpl.
      split; [done|]. split; [done|]. split; [congruence|]. right.
      split; [done|]. by left. }
  intros w1 Hh1 Hb1 He1 Ha1. mbind. apply post_stack_new.
  2:{ intros w2 Hh2 Hb2 He2 Ha2. mbind. apply post_set_errno, post_ret. simpl.
      split; [congruence|]. split; [tauto|]. split; [congruence|]. right.
      split; [done|]. left. split; [done|]. tauto. }
  intros w2 Hh2 Hb2 He2 Ha2. mbind.
  eapply post_mono.
  { apply (topo_sort_loop_run req w2 []); [|done].
    rewrite Hh2, Hh1, Hh. by apply dfs_inv_init. }
  intros [[[rc st] to] al] w3 [(Hb3 & Ha3 & He3 & Ht3 & H3) Hstack].
  simpl in Hstack. mbind. eapply post_mono.
  { apply clear_gates_run. intros g Hg. destruct Ht3 as [_ Ht3].
    destruct (Ht3 g Hg) as [x0 Hx0].
    destruct (erase_inv0 _ _ _ _ He3 Hx0) as (x & Hx & _). eauto. }
  simpl. intros _ w4 (h4 & -> & Hh4). apply post_ret. simpl.
  pose proof (restore_statuses _ _ _ He3 Ht3 Hh4) as ->.
  split; [congruence|]. split; [tauto|]. split; [done|].
  destruct H3 as [(-> & Herr & Hinv)|(-> & H3)].
  - left. split; [done|]. split; [congruence|]. split; [|split].
    + unfold stack_reverse. rewrite reverse_involutive.
      by eapply di_topo.
    + intros g Hg. unfold stack_reverse. rewrite elem_of_reverse.
      rewrite (Hstack eq_refl) in Hinv.
      destruct (di_roots _ _ _ _ _ _ _ Hinv g) as [Hin|Hin]; [| |done].
      * rewrite elem_of_app, elem_of_reverse. by left.
      * simpl in Hin. by apply elem_of_nil in Hin.
    + intros g Hg. unfold stack_reverse in Hg. rewrite elem_of_reverse in Hg.
      apply (di_reach _ _ _ _ _ _ _ Hinv). by left.
  - right. split; [done|].
    destruct H3 as [[? ?]|?]; [left|right]; [|done]. split; [done|]. tauto.
Qed.
End topo_sort.

(** * The forward pass *)

(** What a slot holds, in the words of the data model. *)
Inductive slot_state :=
| Empty
| ExternalSignal (s : sigref)
| GateSource (g : handle) (i : nat).

Definition slot_state_of (i : in_info_t) : slot_state :=
  match i_type i, i_ptr i with
  | BOOLEAN_SIGNAL_INPUT, BoolPtr s => ExternalSignal s
  | NAND_GATE_INPUT, GatePtr g => GateSource g (i_ind i)
  | _, _ => Empty
  end.

Definition gate_signal (h : gmap handle nand_t) (g : handle) : bool :=
  match h !! g with Some x => signal x | None => false end.

Definition gate_crit (h : gmap handle nand_t) (g : handle) : Z :=
  match h !! g with Some x => crit_path_len x | None => 0 end.

(** The boolean a slot contributes to the AND of its gate. *)
Definition slot_value (b : sigref -> bool) (h : gmap handle nand_t)
    (i : in_info_t) : bool :=
  match slot_state_of i with
  | ExternalSignal s => b s
  | GateSource g _ => gate_signal h g
  | Empty => true
  end.

(** The delay stages a slot puts before its gate's output. *)
Definition slot_delay (h : gmap handle nand_t) (i : in_info_t) : Z :=
  match slot_state_of i with
  | ExternalSignal _ => 1
  | GateSource g _ => gate_crit h g + 1
  | Empty => 0
  end.

Definition nand_of (b : sigref -> bool) (h : gmap handle nand_t)
    (ins : list in_info_t) : bool :=
  negb (forallb (slot_value b h) ins).

(** The largest of the delays of the slots, and [0] without slots. *)
Definition max_delay (h : gmap handle nand_t) (ins : list in_info_t) : Z :=
  foldr Z.max 0 (slot_delay h <$> ins).

Definition set_value (s : bool) (c : Z) (x : nand_t) : nand_t :=
  Nand c (inputs x) (outputs x) (input_count x) (status x) s.

(** The store after [evaluate_sorted] has taken [g] from the stack. *)
Definition eval_step (b : sigref -> bool) (h : gmap handle nand_t) (g : handle)
  : gmap handle nand_t :=
  match h !! g with
  | Some x => <[g := set_value (nand_of b h (inputs x)) (max_delay h (inputs x)) x]> h
  | None => h
  end.

Definition eval_order (b : sigref -> bool) (ord : list handle)
    (h : gmap handle nand_t) : gmap handle nand_t :=
  foldl (eval_step b) h ord.

(** [g] can be evaluated in [h]: its slots are connected, to signals or to
    live gates other than [g]. *)
Definition gate_ready (h : gmap handle nand_t) (g : handle) : Prop :=
  exists x, h !! g = Some x /\ length (inputs x) = input_count x /\
    forall k i, inputs x !! k = Some i ->
      match slot_state_of i with
      | Empty => False
      | ExternalSignal _ => True
      | GateSource s _ => s <> g /\ is_Some (h !! s)
      end.

Lemma max_delay_snoc h l i :
  max_delay h (l ++ [i]) = Z.max (max_delay h l) (slot_delay h i).
Proof.
  unfold max_delay. rewrite fmap_app, foldr_app. simpl.
  generalize (slot_delay h <$> l). intros ds.
  assert (0 <= slot_delay h i \/ slot_delay h i < 0) as [H|H] by lia.
  - rewrite (Z.max_l _ 0) by lia.
    induction ds as [|d ds IH]; simpl; [lia|]. rewrite IH. lia.
  - rewrite (Z.max_r _ 0) by lia.
    assert (0 <= foldr Z.max 0 ds) as Hge.
    { induction ds as [|d ds IH]; simpl; lia. }
    lia.
Qed.

Lemma forallb_snoc {A} (f : A -> bool) l x :
  forallb f (l ++ [x]) = forallb f l && f x.
Proof. rewrite forallb_app. simpl. by rewrite andb_true_r. Qed.

Lemma evaluate_gate_run w g :
  gate_ready (heap w) g ->
  post (evaluate_gate g) w (fun _ w' =>
    w' = set_heap (eval_step (bools w) (heap w) g) w).
Proof.
  intros (x & Hx & Hlen & Hready). unfold evaluate_gate.
  mbind. apply (post_modify _ _ _ x); [done|].
  mbind. apply (post_modify _ _ _ (with_signal true x)).
  { simpl. by rewrite lookup_insert_eq. }
  simpl. rewrite insert_insert_eq.
  mbind. apply (post_deref _ _ (set_value true 0 x)).
  { simpl. by rewrite lookup_insert_eq. }
  simpl. mbind. eapply post_mono.
  { apply (post_for_loop (fun n w1 =>
      w1 = set_heap (<[g := set_value (forallb (slot_value (bools w) (heap w))
                                          (take n (inputs x)))
                                      (max_delay (heap w) (take n (inputs x))) x]>
                      (heap w)) w)).
    - done.
    - intros n w1 Hn ->. simpl in Hn.
      destruct (lookup_lt_is_Some_2 (inputs x) n) as [i Hi]; [lia|].
      rewrite (take_S_r _ _ _ Hi), forallb_snoc, max_delay_snoc.
      set (sn := forallb _ _). set (cn := max_delay _ _).
      unfold evaluate_input. mbind.
      apply (post_deref _ _ (set_value sn cn x)).
      { simpl. by rewrite lookup_insert_eq. }
      mbind. apply (post_array_get _ _ _ _ _ Hi). cbv beta.
      specialize (Hready _ _ Hi). unfold slot_value, slot_delay.
      unfold slot_state_of in *.
      destruct (i_type i) eqn:Hty; [done| |].
      + (* a signal *)
        destruct (i_ptr i) as [|s|s] eqn:Hptr; [done| |done].
        mbind. apply post_assert; [done|]. simpl.
        mbind. apply (post_mono _ _ (fun _ w2 =>
          w2 = set_heap (<[g := set_value sn (Z.max cn 1) x]> (heap w)) w)).
        { case_bool_decide.
          - eapply post_modify; [simpl; by rewrite lookup_insert_eq|].
            simpl. rewrite insert_insert_eq. unfold set_value, with_crit. simpl.
            by rewrite Z.max_r by lia.
          - apply post_ret. by rewrite Z.max_l by lia. }
        intros _ w2 ->. mbind. unfold post at 1, read_bool. simpl.
        eapply post_modify; [simpl; by rewrite lookup_insert_eq|].
        simpl. by rewrite insert_insert_eq.
      + (* a gate *)
        destruct (i_ptr i) as [|s|s] eqn:Hptr; [done|done|].
        destruct Hready as [Hne [y Hy]].
        mbind. apply post_assert; [done|]. simpl.
        mbind. apply (post_deref _ _ y).
        { simpl. by rewrite lookup_insert_ne. }
        unfold gate_signal, gate_crit. rewrite Hy.
        mbind. apply (post_mono _ _ (fun _ w2 =>
          w2 = set_heap (<[g := set_value sn (Z.max cn (crit_path_len y + 1)) x]>
                           (heap w)) w)).
        { case_bool_decide.
          - eapply post_modify; [simpl; by rewrite lookup_insert_eq|].
            simpl. rewrite insert_insert_eq. unfold set_value, with_crit. simpl.
            by rewrite Z.max_r by lia.
          - apply post_ret. by rewrite Z.max_l by lia. }
        intros _ w2 ->. mbind. apply (post_deref _ _ y).
        { simpl. by rewrite lookup_insert_ne. }
        eapply post_modify; [simpl; by rewrite lookup_insert_eq|].
        simpl. by rewrite insert_insert_eq. }
  simpl. intros _ w1 ->. rewrite <- Hlen, firstn_all.
  eapply post_modify; [simpl; by rewrite lookup_insert_eq|].
  simpl. rewrite insert_insert_eq. unfold eval_step. by rewrite Hx.
Qed.

(** The wiring and status of a gate: what the forward pass leaves alone. *)
Definition gate_shape (x : nand_t)
  : list in_info_t * list out_info_t * nat * topo_sort_status :=
  (inputs x, outputs x, input_count x, status x).

Definition same_shape (h h' : gmap handle nand_t) : Prop :=
  forall g, gate_shape <$> h' !! g = gate_shape <$> h !! g.

Lemma same_shape_refl h : same_shape h h.
Proof. done. Qed.

Lemma same_shape_trans h1 h2 h3 :
  same_shape h1 h2 -> same_shape h2 h3 -> same_shape h1 h3.
Proof. intros H1 H2 g. by rewrite H2. Qed.

Lemma same_shape_sym h1 h2 : same_shape h1 h2 -> same_shape h2 h1.
Proof. intros H g. by rewrite H. Qed.

Lemma same_shape_lookup h h' g x :
  same_shape h h' -> h !! g = Some x ->
  exists x', h' !! g = Some x' /\ inputs x' = inputs x /\
             outputs x' = outputs x /\ input_count x' = input_count x /\
             status x' = status x.
Proof.
  intros Hs Hx. specialize (Hs g). rewrite Hx in Hs.
  destruct (h' !! g) as [x'|]; [|done]. exists x'. split; [done|].
  simpl in Hs. unfold gate_shape in Hs. by injection Hs as -> -> -> ->.
Qed.

Lemma eval_step_shape b h g : same_shape h (eval_step b h g).
Proof.
  intros g'. unfold eval_step. destruct (h !! g) as [x|] eqn:Hx; [|done].
  rewrite lookup_insert. case_decide; [subst g'|done]. by rewrite Hx.
Qed.

Lemma eval_order_shape b ord : forall h, same_shape h (eval_order b ord h).
Proof.
  induction ord as [|g ord IH]; intros h; [done|]. simpl.
  eapply same_shape_trans; [apply eval_step_shape|apply IH].
Qed.

Lemma gate_ready_shape h h' g :
  same_shape h h' -> gate_ready h g -> gate_ready h' g.
Proof.
  intros Hs (x & Hx & Hlen & Hr).
  destruct (same_shape_lookup _ _ _ _ Hs Hx) as (x' & Hx' & Hi & _ & Hic & _).
  exists x'. split; [done|]. rewrite Hi, Hic. split; [done|].
  intros k i Hki. specialize (Hr k i Hki).
  destruct (slot_state_of i); [done..|]. destruct Hr as [Hne [y Hy]].
  split; [done|]. destruct (same_shape_lookup _ _ _ _ Hs Hy) as (y' & Hy' & _).
  eauto.
Qed.

Lemma evaluate_sorted_run ord : forall w,
  Forall (gate_ready (heap w)) ord ->
  post (evaluate_sorted ord) w (fun _ w' =>
    w' = set_heap (eval_order (bools w) ord (heap w)) w).
Proof.
  induction ord as [|g ord IH]; intros w Hready; simpl.
  - apply post_ret. by destruct w.
  - apply Forall_cons in Hready as [Hg Hord].
    mbind. eapply post_mono; [by apply evaluate_gate_run|].
    simpl. intros _ w1 ->. eapply post_mono.
    { apply IH. simpl. eapply Forall_impl; [done|]. intros g'.
      apply gate_ready_shape, eval_step_shape. }
    simpl. by intros _ w2 ->.
Qed.

(** The output and the critical path of [g] are those its slots imply. *)
Definition settled (b : sigref -> bool) (h : gmap handle nand_t) (g : handle)
  : Prop :=
  exists x, h !! g = Some x /\
    signal x = nand_of b h (inputs x) /\
    crit_path_len x = max_delay h (inputs x).

Lemma slot_value_ext b h h' i :
  (forall s j, slot_state_of i = GateSource s j -> h' !! s = h !! s) ->
  slot_value b h' i = slot_value b h i /\ slot_delay h' i = slot_delay h i.
Proof.
  intros Hext. unfold slot_value, slot_delay, gate_signal, gate_crit.
  destruct (slot_state_of i) as [|s|s j]; [done..|].
  by rewrite (Hext s j).
Qed.

Lemma nand_of_ext b h h' ins :
  (forall i s j, i ∈ ins -> slot_state_of i = GateSource s j ->
                 gate_signal h' s = gate_signal h s /\
                 gate_crit h' s = gate_crit h s) ->
  nand_of b h' ins = nand_of b h ins /\ max_delay h' ins = max_delay h ins.
Proof.
  intros Hext. unfold nand_of, max_delay.
  induction ins as [|i ins IH]; [done|]. rewrite !fmap_cons. simpl.
  destruct IH as [IH1 IH2]; [intros i' s j Hin; apply Hext; by right|].
  apply (f_equal negb) in IH1. rewrite !negb_involutive in IH1.
  assert (slot_value b h' i = slot_value b h i /\
          slot_delay h' i = slot_delay h i) as [-> ->].
  { unfold slot_value, slot_delay.
    destruct (slot_state_of i) as [|s|s j] eqn:Hst; [done..|].
    destruct (Hext i s j) as [-> ->]; [by left|done|done]. }
  by rewrite IH1, IH2.
Qed.

(** The place of [g] in [t], counted from the end; [0] if [g] is not there. *)
Fixpoint rank_of (t : list handle) (g : handle) : nat :=
  match t with
  | [] => 0
  | a :: t' => if decide (a = g) then S (length t') else rank_of t' g
  end.

Lemma rank_of_le t g : (rank_of t g <= length t)%nat.
Proof. induction t as [|a t IH]; simpl; [lia|]. case_decide; lia. Qed.

Section order.
Variable h0 : gmap handle nand_t.
Hypothesis Hwf0 : wf h0.

Lemma sorted_topo_acyclic t :
sorted_topo h0 t -> acyclic_closed h0 (fun g => g ∈ t) (rank_of t).
Proof.
induction 1 as [|g t x Hsorted IH Hnin Hx Hdone].
{ by intros g ?%elem_of_nil. }
intros p [->|Hp]%elem_of_cons.
- exists x. split; [done|]. intros k i Hi.
  destruct (Hdone _ _ Hi) as [Hne Hs]. split; [done|].
  intros s Hty Hptr. destruct (Hs s Hty Hptr) as [Hin|?]; [|done].
  split; [apply elem_of_cons; by right|]. simpl.
  pose proof (rank_of_le t s).
  repeat case_decide; subst; try done; try contradiction; lia.
- destruct (IH p Hp) as (y & Hy & Hslots). exists y. split; [done|].
  intros k i Hi. destruct (Hslots _ _ Hi) as [Hne Hs]. split; [done|].
  intros s Hty Hptr. destruct (Hs s Hty Hptr) as [Hin Hlt].
  split; [apply elem_of_cons; by right|]. simpl.
  repeat case_decide; subst; try done; contradiction.
Qed.

Lemma acyclic_gate_ready C rank g :
acyclic_closed h0 C rank -> C g -> gate_ready h0 g.
Proof.
intros Hac Hg. destruct (Hac g Hg) as (x & Hx & Hslots).
exists x. split; [done|]. split; [by apply (wf_len _ Hwf0 g)|].
intros k i Hi. destruct (Hslots _ _ Hi) as [Hne Hs].
assert (slot h0 g k = Some i) as Hsl by (apply slot_Some; eauto).
pose proof (wf_slot _ Hwf0 _ _ _ Hsl) as Hw.
unfold slot_wf in Hw. unfold slot_state_of.
destruct (i_type i) eqn:Hty; [done| |].
- destruct Hw as [s ->]. done.
- destruct Hw as (s & Hptr & _). rewrite Hptr.
  destruct (Hs s eq_refl Hptr) as [HCs Hlt]. split; [intros ->; lia|].
  destruct (Hac s HCs) as (y & Hy & _). eauto.
Qed.

(** A gate slot of a gate of [C] names a gate of [C] of lower rank. *)
Lemma acyclic_source C rank g x i s j :
acyclic_closed h0 C rank -> C g -> h0 !! g = Some x -> i ∈ inputs x ->
slot_state_of i = GateSource s j -> C s /\ (rank s < rank g)%nat.
Proof.
intros Hac Hg Hx Hin Hst. destruct (Hac g Hg) as (x' & Hx' & Hslots).
rewrite Hx in Hx'. injection Hx' as <-.
apply list_elem_of_lookup in Hin as [k Hk].
destruct (Hslots _ _ Hk) as [_ Hs]. unfold slot_state_of in Hst.
destruct (i_type i), (i_ptr i); try done. injection Hst as -> _.
by apply Hs.
Qed.

Lemma eval_order_settled b ord :
sorted_topo h0 (reverse ord) ->
(forall g, g ∈ ord -> settled b (eval_order b ord h0) g) /\
(forall g, g ∉ ord -> eval_order b ord h0 !! g = h0 !! g).
Proof.
induction ord as [|g l IH] using rev_ind; intros Hsorted.
{ split; [by intros g ?%elem_of_nil|done]. }
rewrite reverse_snoc in Hsorted.
pose proof (sorted_topo_acyclic _ Hsorted) as Hac.
inversion Hsorted as [|g' t x Hsorted' Hnin Hx Hdone]; subst.
destruct (IH Hsorted') as [IHs IHu]. rewrite elem_of_reverse in Hnin.
unfold eval_order in *. rewrite foldl_app. simpl.
set (h1 := foldl (eval_step b) h0 l) in *.
assert (same_shape h0 h1) as Hshape by apply eval_order_shape.
assert (h1 !! g = Some x) as Hx1 by (by rewrite IHu).
unfold eval_step. rewrite Hx1.
set (x' := set_value _ _ x).
assert (forall p y, p ∈ g :: reverse l -> h0 !! p = Some y ->
          nand_of b (<[g := x']> h1) (inputs y) = nand_of b h1 (inputs y) /\
          max_delay (<[g := x']> h1) (inputs y) = max_delay h1 (inputs y))
  as Hext.
{ intros p y Hp Hy. apply nand_of_ext. intros i s j Hi Hst.
  destruct (acyclic_source _ _ _ _ _ _ _ Hac Hp Hy Hi Hst) as [Hs Hlt].
  unfold gate_signal, gate_crit. rewrite lookup_insert_ne; [done|].
  intros <-. pose proof (rank_of_le (g :: reverse l) p) as Hle.
  assert (rank_of (g :: reverse l) g = S (length (reverse l))) as Hrg.
  { simpl. by rewrite decide_True. }
  simpl length in Hle. lia. }
split.
- intros p [Hp|Hp]%elem_of_app;
    [|apply list_elem_of_singleton in Hp as ->].
  + destruct (IHs p Hp) as (y & Hy & Hsig & Hcrit).
    assert (p <> g) as Hne by (intros ->; done).
    exists y. rewrite lookup_insert_ne by done. split; [done|].
    destruct (Hac p) as (y0 & Hy0 & _); [apply elem_of_cons; right; by apply elem_of_reverse|].
    destruct (same_shape_lookup _ _ _ _ Hshape Hy0) as (y' & Hy' & Hi & _).
    rewrite Hy in Hy'. injection Hy' as <-. rewrite Hi in *.
    destruct (Hext p y0) as [-> ->]; [apply elem_of_cons; right; by apply elem_of_reverse|done|].
    done.
  + exists x'. rewrite lookup_insert_eq. split; [done|].
    change (inputs x') with (inputs x).
    destruct (Hext g x) as [-> ->]; [apply elem_of_cons; by left|done|]. done.
- intros p Hp. rewrite lookup_insert_ne by set_solver. apply IHu. set_solver.
Qed.

(** Two stores with the wiring of [h0] in which the gates of [C] are settled
  agree on their outputs and critical paths. *)
Lemma settled_unique b C rank h1 h2 :
acyclic_closed h0 C rank -> same_shape h0 h1 -> same_shape h0 h2 ->
(forall g, C g -> settled b h1 g /\ settled b h2 g) ->
forall g, C g ->
  gate_signal h1 g = gate_signal h2 g /\ gate_crit h1 g = gate_crit h2 g.
Proof.
intros Hac Hs1 Hs2 Hset g. remember (rank g) as n eqn:Hn. revert g Hn.
induction n as [n IH] using lt_wf_ind. intros g -> Hg.
destruct (Hset g Hg) as [(x1 & Hx1 & Hsig1 & Hc1) (x2 & Hx2 & Hsig2 & Hc2)].
destruct (Hac g Hg) as (x0 & Hx0 & _).
destruct (same_shape_lookup _ _ _ _ Hs1 Hx0) as (x1' & Hx1' & Hi1 & _).
destruct (same_shape_lookup _ _ _ _ Hs2 Hx0) as (x2' & Hx2' & Hi2 & _).
rewrite Hx1 in Hx1'. injection Hx1' as <-.
rewrite Hx2 in Hx2'. injection Hx2' as <-.
unfold gate_signal at 1 2, gate_crit at 1 2. rewrite Hx1, Hx2, Hsig1, Hsig2, Hc1, Hc2.
rewrite Hi1, Hi2. apply nand_of_ext. intros i s j Hi Hst.
destruct (acyclic_source _ _ _ _ _ _ _ Hac Hg Hx0 Hi Hst) as [HCs Hlt].
by apply (IH (rank s)).
Qed.
End order.

(** * The public evaluation *)

(** The overall critical path: the largest of the given lengths, at least
    [0]. *)
Definition max_crit (cs : list Z) : Z := foldr Z.max 0 cs.

Lemma max_crit_nonneg cs : 0 <= max_crit cs.
Proof. induction cs as [|c cs IH]; simpl; lia. Qed.

Lemma foldl_max_crit cs : forall a, 0 <= a ->
  foldl Z.max a cs = Z.max a (max_crit cs).
Proof.
  induction cs as [|c cs IH]; intros a Ha; simpl; [lia|].
  rewrite IH by lia. lia.
Qed.

Lemma collect_results_run gs : forall i s l w,
  (forall g, g ∈ gs -> is_Some (heap w !! g)) ->
  (i + length gs <= length s)%nat ->
  post (collect_results gs i s l) w (fun r w' =>
    w' = w /\
    r.1 = foldl Z.max l (gate_crit (heap w) <$> gs) /\
    r.2 = take i s ++ (gate_signal (heap w) <$> gs) ++ drop (i + length gs) s).
Proof.
  induction gs as [|g gs IH]; intros i s l w Hlive Hlen; simpl.
  - apply post_ret. simpl. split; [done|]. split; [done|].
    rewrite Nat.add_0_r. by rewrite take_drop.
  - simpl in Hlen. destruct (Hlive g) as [x Hx]; [set_solver|].
    mbind. apply (post_deref _ _ x); [done|]. cbv beta.
    rewrite bool_decide_eq_true_2 by lia.
    eapply post_mono.
    { apply IH; [intros; apply Hlive; set_solver|]. rewrite length_insert. lia. }
    simpl. intros [l' s'] w' (-> & Hl & Hs). simpl in *. split; [done|].
    assert (gate_crit (heap w) g = crit_path_len x) as Hgc.
    { unfold gate_crit. by rewrite Hx. }
    assert (gate_signal (heap w) g = signal x) as Hgs.
    { unfold gate_signal. by rewrite Hx. }
    rewrite Hgc, Hgs. split.
    + rewrite Hl. f_equal. case_bool_decide; lia.
    + rewrite Hs. rewrite (take_S_r _ _ (signal x)).
      2:{ apply list_lookup_insert_eq. lia. }
      rewrite take_insert_ge by lia. rewrite drop_insert_lt by lia.
      rewrite <- app_assoc. simpl.
      by replace (i + S (length gs))%nat with (S (i + length gs)) by lia.
Qed.

Lemma wf_same_shape h h' : same_shape h h' -> wf h -> wf h'.
Proof.
  intros Hs Hwf.
  assert (forall T k, slot h' T k = slot h T k) as Hslot.
  { intros T k. unfold slot. specialize (Hs T).
    destruct (h !! T) as [x|], (h' !! T) as [x'|]; try done. simpl in *.
    unfold gate_shape in Hs. by injection Hs as -> _ _ _. }
  assert (forall S j, orec h' S j = orec h S j) as Horec.
  { intros S j. unfold orec. specialize (Hs S).
    destruct (h !! S) as [x|], (h' !! S) as [x'|]; try done. simpl in *.
    unfold gate_shape in Hs. by injection Hs as _ -> _ _. }
  split.
  - intros g x' Hx'. destruct (same_shape_lookup _ _ _ _ (same_shape_sym _ _ Hs) Hx')
      as (x & Hx & Hi & _ & Hic & _).
    rewrite <- Hi, <- Hic. by apply (wf_len _ Hwf g).
  - intros T k i. rewrite Hslot. intros Hi.
    pose proof (wf_slot _ Hwf _ _ _ Hi) as Hw. unfold slot_wf in *.
    destruct (i_type i); [done..|]. by setoid_rewrite Horec.
  - intros S j o. rewrite Horec, Hslot. apply (wf_orec _ Hwf).
Qed.

Lemma all_not_visited_same_shape h h' :
  same_shape h h' -> all_not_visited h -> all_not_visited h'.
Proof.
  intros Hs Hnv g x' Hx'.
  destruct (same_shape_lookup _ _ _ _ (same_shape_sym _ _ Hs) Hx')
    as (x & Hx & _ & _ & _ & Hst).
  rewrite <- Hst. eauto.
Qed.

(** What a successful evaluation of [req] leaves: [l] and [sigs] are the
    results, [h'] the store after it. *)
Record evaluated (b : sigref -> bool) (h : gmap handle nand_t)
    (req ord : list handle) (h' : gmap handle nand_t) (l : Z)
    (sigs : list bool) : Prop := {
  ev_topo : topo_order h req ord;
  ev_heap : h' = eval_order b ord h;
  ev_crit : l = max_crit (gate_crit h' <$> req);
  ev_sigs : sigs = gate_signal h' <$> req
}.

Lemma nand_evaluate_all_run w req s :
  wf (heap w) -> all_not_visited (heap w) ->
  (forall g, g ∈ req -> is_Some (heap w !! g)) ->
  (length req <= length s)%nat ->
  post (nand_evaluate_all req s) w (fun r w' =>
    bools w' = bools w /\ (alloc_ok w -> alloc_ok w') /\
    ((errno w' = errno w /\
      exists ord sigs, r.2 = sigs ++ drop (length req) s /\
        evaluated (bools w) (heap w) req ord (heap w') r.1 sigs)
     \/ (r.1 = -1 /\ r.2 = s /\ heap w' = heap w /\
         ((errno w' = ENOMEM /\ ~ alloc_ok w) \/
          (errno w' = ECANCELED /\ ~ evaluable (heap w) req))))).
Proof.
  intros Hwf Hnv Hlive Hlen. unfold nand_evaluate_all.
  mbind. apply post_stack_new.
  2:{ intros w1 Hh1 Hb1 He1 Ha1. mbind. apply post_set_errno, post_ret. simpl.
      split; [done|]. split; [done|]. right. split; [done|]. split; [done|].
      split; [done|]. by left. }
  intros w1 Hh1 Hb1 He1 Ha1. mbind. eapply post_mono.
  { apply (topo_sort_run (heap w) Hwf req Hlive w1); done. }
  intros [rc ord] w2 (Hb2 & Ha2 & Hh2 & H2). simpl in H2.
  destruct H2 as [(-> & Herr & Htopo)|(-> & H2)]; simpl.
  - mbind. eapply post_mono.
    { apply evaluate_sorted_run. rewrite Hh2.
      destruct Htopo as [Hsorted _].
      pose proof (sorted_topo_acyclic _ _ Hsorted) as Hac.
      apply Forall_forall. intros g Hg.
      eapply acyclic_gate_ready; [done|done|]. by apply elem_of_reverse. }
    simpl. intros _ w3 ->. eapply post_mono.
    { apply collect_results_run; simpl.
      - intros g Hg. destruct (Hlive g Hg) as [x Hx]. rewrite <- Hh2 in Hx.
        destruct (same_shape_lookup _ _ _ _ (eval_order_shape (bools w2) ord _) Hx)
          as (x' & Hx' & _). eauto.
      - lia. }
    simpl. intros [l s'] w4 (-> & Hl & Hs). simpl in *.
    split; [congruence|]. split; [tauto|]. left. split; [congruence|].
    exists ord. eexists. split; [done|]. rewrite Hb2, Hb1, Hh2 in *.
    split; try done. rewrite Hl, foldl_max_crit by done.
    pose proof (max_crit_nonneg (gate_crit (eval_order (bools w) ord (heap w)) <$> req)).
    lia.
  - apply post_ret. simpl. split; [congruence|]. split; [tauto|]. right.
    split; [done|]. split; [done|]. split; [done|].
    destruct H2 as [[? ?]|[? ?]]; [left|right]; split; try done; try congruence.
    tauto.
Qed.




Lemma acyclic_closed_same_shape h h' C rank :
  same_shape h h' -> acyclic_closed h C rank -> acyclic_closed h' C rank.
Proof.
  intros Hs Hac g Hg. destruct (Hac g Hg) as (x & Hx & Hslots).
  destruct (same_shape_lookup _ _ _ _ Hs Hx) as (x' & Hx' & Hin & _).
  exists x'. by rewrite Hin.
Qed.

Lemma evaluable_same_shape h h' req :
  same_shape h h' -> evaluable h req -> evaluable h' req.
Proof.
  intros Hs (C & rank & HC & Hac). exists C, rank. split; [done|].
  by eapply acyclic_closed_same_shape.
Qed.

(** A closed set of gates holds the whole closure of its members. *)
Lemma closure_closed h C rank req g :
  acyclic_closed h C rank -> (forall r, r ∈ req -> C r) ->
  in_closure h req g -> C g.
Proof.
  intros Hac HC (r & Hr & Hrtc). specialize (HC r Hr). clear Hr.
  induction Hrtc as [|a c d (x & k & i & Hx & Hi & Hty & Hptr) _ IH]; [done|].
  apply IH. destruct (Hac a HC) as (x' & Hx' & Hslots).
  rewrite Hx in Hx'. injection Hx' as <-.
  destruct (Hslots _ _ Hi) as [_ Hs]. by destruct (Hs c Hty Hptr).
Qed.

Section evaluated.
Variable b : sigref -> bool.
Variables h h' : gmap handle nand_t.
Variables req ord : list handle.
Variable l : Z.
Variable sigs : list bool.
Hypothesis Hwf : wf h.
Hypothesis Hev : evaluated b h req ord h' l sigs.

Lemma evaluated_shape : same_shape h h'.
Proof. rewrite (ev_heap _ _ _ _ _ _ _ Hev). apply eval_order_shape. Qed.

Lemma evaluated_reverse_acyclic :
acyclic_closed h (fun g => g ∈ reverse ord) (rank_of (reverse ord)).
Proof.
destruct (ev_topo _ _ _ _ _ _ _ Hev) as (Hsorted & _).
by apply sorted_topo_acyclic.
Qed.

Lemma evaluated_acyclic :
acyclic_closed h (fun g => g ∈ ord) (rank_of (reverse ord)).
Proof.
intros g Hg. destruct (evaluated_reverse_acyclic g) as (x & Hx & Hslots).
{ by apply elem_of_reverse. }
exists x. split; [done|]. intros k i Hi.
destruct (Hslots _ _ Hi) as [Hne Hs]. split; [done|].
intros s Hty Hptr. destruct (Hs s Hty Hptr) as [Hin Hlt].
split; [|done]. by rewrite elem_of_reverse in Hin.
Qed.

Lemma evaluated_requested g : g ∈ req -> g ∈ ord.
Proof. by destruct (ev_topo _ _ _ _ _ _ _ Hev) as (_ & Hreq & _); auto. Qed.

Lemma evaluated_evaluable : evaluable h req.
Proof.
exists (fun g => g ∈ reverse ord), (rank_of (reverse ord)).
split; [|apply evaluated_reverse_acyclic].
intros g Hg. apply elem_of_reverse. by apply evaluated_requested.
Qed.


Lemma evaluated_settled g : g ∈ ord -> settled b h' g.
Proof.
destruct (ev_topo _ _ _ _ _ _ _ Hev) as (Hsorted & _).
rewrite (ev_heap _ _ _ _ _ _ _ Hev). by apply eval_order_settled.
Qed.

Lemma evaluated_untouched g : g ∉ ord -> h' !! g = h !! g.
Proof.
destruct (ev_topo _ _ _ _ _ _ _ Hev) as (Hsorted & _).
rewrite (ev_heap _ _ _ _ _ _ _ Hev). by apply eval_order_settled.
Qed.

Lemma evaluated_crit_nonneg g : g ∈ ord -> 0 <= gate_crit h' g.
Proof.
intros Hg. destruct (evaluated_settled g Hg) as (x & Hx & _ & Hc).
unfold gate_crit. rewrite Hx, Hc. unfold max_delay.
generalize (slot_delay h' <$> inputs x). intros ds.
induction ds as [|d ds IH]; simpl; lia.
Qed.
End evaluated.

(** Two successful evaluations over the same wiring that evaluate the same
    gates compute the same outputs and critical paths. *)
Lemma evaluated_agree b h ha hb req_a req_b ord_a ord_b h_a h_b l_a l_b s_a s_b :
  wf ha -> wf hb -> same_shape h ha -> same_shape h hb ->
  evaluated b ha req_a ord_a h_a l_a s_a ->
  evaluated b hb req_b ord_b h_b l_b s_b ->
  forall g, g ∈ ord_a -> g ∈ ord_b ->
    gate_signal h_a g = gate_signal h_b g /\ gate_crit h_a g = gate_crit h_b g.
Proof.
  intros Hwfa Hwfb Hsa Hsb Ha Hb g Hga Hgb.
  pose proof (evaluated_acyclic _ _ _ _ _ _ _ Ha) as Haca.
  pose proof (evaluated_acyclic _ _ _ _ _ _ _ Hb) as Hacb.
  apply (acyclic_closed_same_shape _ h) in Haca; [|by apply same_shape_sym].
  apply (acyclic_closed_same_shape _ h) in Hacb; [|by apply same_shape_sym].
  apply (settled_unique h b (fun g => g ∈ ord_a /\ g ∈ ord_b)
           (rank_of (reverse ord_a))); try done.
  - intros p [Hpa Hpb]. destruct (Haca p Hpa) as (x & Hx & Hslots).
    destruct (Hacb p Hpb) as (x' & Hx' & Hslots'). rewrite Hx in Hx'.
    injection Hx' as <-. exists x. split; [done|]. intros k i Hi.
    destruct (Hslots _ _ Hi) as [Hne Hs]. destruct (Hslots' _ _ Hi) as [_ Hs'].
    split; [done|]. intros s Hty Hptr.
    destruct (Hs s Hty Hptr) as [? ?]. destruct (Hs' s Hty Hptr) as [? _]. done.
  - apply (same_shape_trans _ ha); [done|]. by eapply evaluated_shape.
  - apply (same_shape_trans _ hb); [done|]. by eapply evaluated_shape.
  - intros p [Hpa Hpb]. split.
    + by apply (evaluated_settled _ _ _ _ _ _ _ Hwfa Ha).
    + by apply (evaluated_settled _ _ _ _ _ _ _ Hwfb Hb).
Qed.



Lemma mapM_id_Some {A} (l : list A) : mapM id (Some <$> l) = Some l.
Proof. by apply mapM_fmap_Some. Qed.

Lemma mapM_id_inv {A} (gs : list (option A)) (l : list A) :
  mapM id gs = Some l -> gs = Some <$> l.
Proof.
  intros H%mapM_Some_1. induction H as [|x y gs l Hxy _ IH]; [done|].
  simpl in *. by rewrite Hxy, IH.
Qed.

Lemma nand_evaluate_run w req s :
  wf (heap w) -> all_not_visited (heap w) ->
  (forall g, g ∈ req -> is_Some (heap w !! g)) ->
  req <> [] -> (length req <= length s)%nat ->
  post (nand_evaluate (Some (Some <$> req)) (Some s)) w (fun r w' =>
    bools w' = bools w /\ (alloc_ok w -> alloc_ok w') /\
    ((errno w' = errno w /\
      exists ord sigs, r.2 = Some (sigs ++ drop (length req) s) /\
        evaluated (bools w) (heap w) req ord (heap w') r.1 sigs)
     \/ (r.1 = -1 /\ r.2 = Some s /\ heap w' = heap w /\
         ((errno w' = ENOMEM /\ ~ alloc_ok w) \/
          (errno w' = ECANCELED /\ ~ evaluable (heap w) req))))).
Proof.
  intros Hwf Hnv Hlive Hne Hlen. unfold nand_evaluate.
  rewrite bool_decide_eq_false_2.
  2:{ rewrite length_fmap. by destruct req. }
  rewrite mapM_id_Some. mbind.
  eapply post_mono; [by apply nand_evaluate_all_run|].
  intros [l s'] w' (Hb & Ha & H). apply post_ret. simpl in *.
  split; [done|]. split; [done|].
  destruct H as [(He & ord & sigs & -> & Hev)|(-> & -> & Hh & H)].
  - left. split; [done|]. by exists ord, sigs.
  - right. done.
Qed.

(** * Reachable stores *)

(** A call of the interface; [CallDisconnectInput] is the helper behind the
    connection operations. *)
Inductive call :=
| CallNew (n : nat)
| CallDelete (g : option handle)
| CallConnectNand (g_out g_in : option handle) (k : nat)
| CallConnectSignal (s : option sigref) (g : option handle) (k : nat)
| CallDisconnectInput (g : handle) (k : nat)
| CallEvaluate (g : option (list (option handle))) (s : option (list bool)).

(** A gate pointer a caller may pass: null or live. *)
Definition live (h : gmap handle nand_t) (g : option handle) : Prop :=
  match g with
  | Some g => is_Some (h !! g)
  | None => True
  end.

(** The calls within the contract of the interface: no dangling pointer, no
    buffer shorter than the request. *)
Definition valid_call (h : gmap handle nand_t) (c : call) : Prop :=
  match c with
  | CallNew _ => True
  | CallDelete g => live h g
  | CallConnectNand g_out g_in _ => live h g_out /\ live h g_in
  | CallConnectSignal _ g _ => live h g
  | CallDisconnectInput g k =>
      exists x, h !! g = Some x /\ (k < input_count x)%nat
  | CallEvaluate (Some gs) (Some s) =>
      Forall (live h) gs /\ (length gs <= length s)%nat
  | CallEvaluate _ _ => True
  end.

Definition run_call (c : call) : M unit :=
  match c with
  | CallNew n => nand_new n ;; ret tt
  | CallDelete g => nand_delete g
  | CallConnectNand g_out g_in k => nand_connect_nand g_out g_in k ;; ret tt
  | CallConnectSignal s g k => nand_connect_signal s g k ;; ret tt
  | CallDisconnectInput g k => nand_disconnect_input g k
  | CallEvaluate g s => nand_evaluate g s ;; ret tt
  end.

(** The stores between calls: the pairing invariant holds and no traversal
    status is left behind. *)
Definition stable (h : gmap handle nand_t) : Prop := wf h /\ all_not_visited h.

Lemma all_not_visited_delete h g :
  all_not_visited h -> all_not_visited (delete g h).
Proof.
  intros Hnv g' x. rewrite lookup_delete. case_decide; [done|]. apply Hnv.
Qed.

Ltac msimple :=
  simpl; mbind; repeat first [apply post_set_errno | apply post_ret]; simpl.

Lemma call_stable w c :
  stable (heap w) -> valid_call (heap w) c ->
  post (run_call c) w (fun _ w' => stable (heap w')).
Proof.
  intros [Hwf Hnv] Hvalid. destruct c as [n|g|g_out g_in k|s g k|g k|gs s]; simpl.
  - (* nand_new *)
    mbind. eapply post_mono; [by apply nand_new_run|].
    intros r w' (_ & Hwf' & Hr). apply post_ret. split; [done|].
    destruct r as [g|].
    + destruct Hr as (Hg & _ & ->). intros g' x. rewrite lookup_insert.
      case_decide; [by intros [= <-]|apply Hnv].
    + destruct Hr as [-> _]. done.
  - (* nand_delete *)
    destruct g as [g|]; [|by apply post_ret].
    eapply post_mono; [by apply nand_delete_run|].
    simpl. intros _ w' (h2 & -> & Hm & Hwf' & _). split; [done|]. simpl.
    apply all_not_visited_delete. by eapply meta_all_not_visited.
  - (* nand_connect_nand *)
    destruct g_out as [g_out|], g_in as [g_in|];
      try (msimple; done).
    destruct Hvalid as [Hout [gi Hgi]].
    destruct (decide (k < input_count gi)%nat) as [Hk|Hk].
    + mbind. eapply post_mono; [by eapply nand_connect_nand_run|].
      intros r w' (_ & Hwf' & Hm & _). apply post_ret. split; [done|].
      by eapply meta_all_not_visited.
    + unfold nand_connect_nand. mbind. apply (post_deref _ _ gi); [done|].
      cbv beta. rewrite bool_decide_eq_true_2 by lia.
      msimple; done.
  - (* nand_connect_signal *)
    destruct s as [s|], g as [g|];
      try (msimple; done).
    destruct Hvalid as [x Hx].
    destruct (decide (k < input_count x)%nat) as [Hk|Hk].
    + mbind. eapply post_mono; [by eapply nand_connect_signal_run|].
      intros r w' (_ & h' & -> & Hwf' & Hm & _). apply post_ret.
      split; [done|]. by eapply meta_all_not_visited.
    + unfold nand_connect_signal. mbind. apply (post_deref _ _ x); [done|].
      cbv beta. rewrite bool_decide_eq_true_2 by lia.
      msimple; done.
  - (* nand_disconnect_input *)
    destruct Hvalid as (x & Hx & Hk).
    assert (is_Some (inputs x !! k)) as [i Hi].
    { apply lookup_lt_is_Some. by rewrite (wf_len _ Hwf _ _ Hx). }
    eapply post_mono.
    { apply (nand_disconnect_input_run (fun _ _ => False) _ g k i).
      - by apply wf_wf_except.
      - apply slot_Some. eauto.
      - tauto. }
    simpl. intros _ w' (h' & -> & [Hwf' Hm _ _ _ _]). split.
    + by apply wf_wf_except.
    + by eapply meta_all_not_visited.
  - (* nand_evaluate *)
    unfold nand_evaluate.
    destruct gs as [gs|], s as [s|];
      try (msimple; done).
    case_bool_decide as Hlen.
    { msimple; done. }
    destruct (mapM id gs) as [req|] eqn:Hreq.
    2:{ msimple; done. }
    apply mapM_id_inv in Hreq as ->. destruct Hvalid as [Hlive Hbuf].
    rewrite length_fmap in Hbuf.
    mbind. eapply post_mono.
    { apply nand_evaluate_all_run; try done.
      intros g Hg. rewrite Forall_forall in Hlive. apply (Hlive (Some g)).
      by apply list_elem_of_fmap_2. }
    intros [l s'] w' (_ & _ & H). apply post_ret, post_ret. simpl in *.
    destruct H as [(_ & ord & sigs & _ & Hev)|(_ & _ & -> & _)]; [|done].
    pose proof (evaluated_shape _ _ _ _ _ _ _ Hev) as Hshape. split.
    + by eapply wf_same_shape.
    + by eapply all_not_visited_same_shape.
Qed.

(** The worlds a program reaches from the empty store by calls within the
    contract; between calls the environment may change the external
    booleans, [errno] and the state of the allocator. *)
Inductive reachable : world -> Prop :=
| reachable_init b e a : reachable (World ∅ b e a)
| reachable_call w c r w' :
    reachable w -> valid_call (heap w) c -> run_call c w = Ret (r, w') ->
    reachable w'
| reachable_env w b e a : reachable w -> reachable (World (heap w) b e a).

Lemma reachable_stable w : reachable w -> stable (heap w).
Proof.
  induction 1 as [b e a|w c r w' _ IH Hvalid Hrun|w b e a _ IH]; [|..|done].
  - split; [split|]; simpl.
    + by intros g x ?%lookup_empty_Some.
    + intros T k i. unfold slot. by rewrite lookup_empty.
    + intros S j o. unfold orec. by rewrite lookup_empty.
    + by intros g x ?%lookup_empty_Some.
  - pose proof (call_stable w c IH Hvalid) as Hpost.
    unfold post in Hpost. by rewrite Hrun in Hpost.
Qed.

(** * Example networks *)

(** The world a computation leaves (the world it started in when it has no
    outcome). *)
Definition after {A} (m : M A) (w : world) : world :=
  match m w with
  | Ret (_, w') => w'
  | _ => w
  end.

Definition run_calls (cs : list call) (w : world) : world :=
  foldl (fun w c => after (run_call c) w) w cs.

Fixpoint valid_calls (cs : list call) (w : world) : Prop :=
  match cs with
  | [] => True
  | c :: cs' => valid_call (heap w) c /\ valid_calls cs' (after (run_call c) w)
  end.

Lemma reachable_after w c :
  reachable w -> valid_call (heap w) c -> reachable (after (run_call c) w).
Proof.
  intros Hw Hc. unfold after.
  destruct (run_call c w) as [[r w']| |] eqn:Hrun; [|done..].
  by eapply reachable_call.
Qed.

Lemma reachable_run_calls cs : forall w,
  reachable w -> valid_calls cs w -> reachable (run_calls cs w).
Proof.
  induction cs as [|c cs IH]; intros w Hw Hcs; [done|].
  destruct Hcs as [Hc Hcs]. simpl. apply IH; [|done]. by apply reachable_after.
Qed.

(** External signal 1 is true, every other signal is false; no allocation
    fails. *)
Definition world0 : world :=
  World ∅ (fun s => bool_decide (s = 1%positive)) 0 [].

(** Gates 1 and 2 of two inputs each: gate 1 reads signals 1 and 1, gate 2
    reads gate 1 and signal 2. *)
Definition pair_calls : list call :=
  [CallNew 2; CallNew 2;
   CallConnectSignal (Some 1%positive) (Some 1%positive) 0;
   CallConnectSignal (Some 1%positive) (Some 1%positive) 1;
   CallConnectNand (Some 1%positive) (Some 2%positive) 0;
   CallConnectSignal (Some 2%positive) (Some 2%positive) 1].

Definition world_pair : world := run_calls pair_calls world0.


(** One gate whose only input is left empty. *)
Definition world_open : world := run_calls [CallNew 1] world0.

Lemma world0_reachable : reachable world0.
Proof. apply reachable_init. Qed.

Lemma world_pair_reachable : reachable world_pair.
Proof.
  apply reachable_run_calls; [apply world0_reachable|].
  vm_compute. repeat split; eauto.
Qed.


Lemma world_open_reachable : reachable world_open.
Proof.
  apply reachable_run_calls; [apply world0_reachable|].
  vm_compute. repeat split; eauto.
Qed.

Lemma world_pair_alloc_ok : alloc_ok world_pair.
Proof. vm_compute. constructor. Qed.

(** * The index check of [nand_output] *)

(** The index check of [nand_output]. *)
Lemma nand_output_in_range w g x n o :
  heap w !! g = Some x -> outputs x !! n = Some o ->
  nand_output (Some g) (Z.of_nat n) w = Ret (Some (o_gate o), w).
Proof.
  intros Hx Ho. apply lookup_lt_Some in Ho as Hlt.
  unfold nand_output, nand_fan_out, bind, deref. rewrite Hx. simpl.
  unfold darray_size. rewrite bool_decide_eq_false_2 by lia.
  rewrite Hx. unfold darray_get.
  rewrite andb_true_intro by (split; [apply Z.leb_le|apply Z.ltb_lt]; lia).
  rewrite Nat2Z.id. unfold array_get. by rewrite Ho.
Qed.

Lemma nand_output_too_large w g x k :
  heap w !! g = Some x -> Z.of_nat (length (outputs x)) <= k ->
  nand_output (Some g) k w = Ret (None, set_errno_w EINVAL w).
Proof.
  intros Hx Hk. unfold nand_output, nand_fan_out, bind, deref. rewrite Hx.
  simpl. unfold darray_size. by rewrite bool_decide_eq_true_2 by lia.
Qed.

Lemma nand_output_negative w g k :
  is_Some (heap w !! g) -> k < 0 -> nand_output (Some g) k w = Undef.
Proof.
  intros [x Hx] Hk. unfold nand_output, nand_fan_out, bind, deref. rewrite Hx.
  simpl. unfold darray_size. rewrite bool_decide_eq_false_2 by lia.
  rewrite Hx. unfold darray_get.
  replace (0 <=? k) with false; [done|]. symmetry. apply Z.leb_gt. lia.
Qed.

(** * What a call of [nand_evaluate] leaves behind *)

(** [nand_evaluate] on the gates [req] with the result buffer [s]. *)
Definition evaluate (req : list handle) (s : list bool)
  : M (Z * option (list bool)) :=
  nand_evaluate (Some (Some <$> req)) (Some s).

(** A request within the contract: live gates, at least one, and room for
    their signals. *)
Definition request_ok (h : gmap handle nand_t) (req : list handle)
    (s : list bool) : Prop :=
  (forall g, g ∈ req -> is_Some (h !! g)) /\ req <> [] /\
  (length req <= length s)%nat.


Lemma evaluate_cases w req s :
  stable (heap w) -> request_ok (heap w) req s ->
  post (evaluate req s) w (fun r w' =>
    bools w' = bools w /\ (alloc_ok w -> alloc_ok w') /\
    ((r.1 <> -1 /\ errno w' = errno w /\
      exists ord, r.2 = Some ((gate_signal (heap w') <$> req)
                              ++ drop (length req) s) /\
        evaluated (bools w) (heap w) req ord (heap w') r.1
          (gate_signal (heap w') <$> req))
     \/ (r.1 = -1 /\ r.2 = Some s /\ heap w' = heap w /\
         ((errno w' = ENOMEM /\ ~ alloc_ok w) \/
          (errno w' = ECANCELED /\ ~ evaluable (heap w) req))))).
Proof.
  intros [Hwf Hnv] (Hlive & Hne & Hlen).
  eapply post_mono; [by apply nand_evaluate_run|].
  intros [l s'] w' (Hb & Ha & H). simpl in *. split; [done|]. split; [done|].
  destruct H as [(He & ord & sigs & -> & Hev)|H]; [|by right].
  left. pose proof (ev_crit _ _ _ _ _ _ _ Hev) as Hl.
  pose proof (ev_sigs _ _ _ _ _ _ _ Hev) as Hs. subst sigs.
  split.
  { pose proof (max_crit_nonneg (gate_crit (heap w') <$> req)). lia. }
  split; [done|]. by exists ord.
Qed.

Lemma evaluate_succeeds w req s :
  stable (heap w) -> request_ok (heap w) req s -> alloc_ok w ->
  evaluable (heap w) req ->
  post (evaluate req s) w (fun r w' =>
    bools w' = bools w /\ alloc_ok w' /\ r.1 <> -1 /\ errno w' = errno w /\
    exists ord, r.2 = Some ((gate_signal (heap w') <$> req)
                            ++ drop (length req) s) /\
      evaluated (bools w) (heap w) req ord (heap w') r.1
        (gate_signal (heap w') <$> req)).
Proof.
  intros Hst Hreq Ha Hev. eapply post_mono; [by apply evaluate_cases|].
  intros r w' (Hb & Ha' & [H|(_ & _ & _ & [[_ ?]|[_ ?]])]); [|done..].
  split; [done|]. split; [auto|]. done.
Qed.

Lemma evaluate_cancelled w req s :
  stable (heap w) -> request_ok (heap w) req s -> alloc_ok w ->
  ~ evaluable (heap w) req ->
  post (evaluate req s) w (fun r w' =>
    r = (-1, Some s) /\ errno w' = ECANCELED /\ heap w' = heap w /\
    bools w' = bools w /\ alloc_ok w').
Proof.
  intros [Hwf Hnv] Hreq Ha Hnev. eapply post_mono; [by apply evaluate_cases|].
  intros [l s'] w' (Hb & Ha' & [(_ & _ & ord & _ & Hev)|H]); simpl in *.
  - exfalso. apply Hnev. by eapply evaluated_evaluable.
  - destruct H as (-> & -> & Hh & [[_ ?]|[He _]]); [tauto|].
    split; [done|]. split; [done|]. split; [done|]. split; [done|]. auto.
Qed.






Lemma source_feeds h g x i s j :
  h !! g = Some x -> i ∈ inputs x -> slot_state_of i = GateSource s j ->
  feeds h g s.
Proof.
  intros Hx [k Hk]%list_elem_of_lookup Hst. exists x, k, i.
  split; [done|]. split; [done|]. unfold slot_state_of in Hst.
  destruct (i_type i), (i_ptr i); try done. by injection Hst as -> _.
Qed.







Lemma same_shape_live h h' g :
  same_shape h h' -> is_Some (h !! g) -> is_Some (h' !! g).
Proof.
  intros Hs [x Hx]. specialize (Hs g). rewrite Hx in Hs.
  destruct (h' !! g); [eauto|done].
Qed.



(** * Example runs *)

(** What a call returns, when it returns. *)
Definition returned {A} (m : M A) (w : world) : option A :=
  match m w with
  | Ret (r, _) => Some r
  | _ => None
  end.

(** In [world_pair] gate 1 computes [NAND(true, true) = false] after one
    delay and gate 2 computes [NAND(false, false) = true] after two; the
    buffer is filled in the order of the request and the rest of it is left
    alone. *)
Example world_pair_evaluates :
  returned (evaluate [2%positive; 1%positive] [false; false; true]) world_pair
  = Some (2, Some [true; false; true]) /\
  returned (evaluate [1%positive; 2%positive] [false; false; true]) world_pair
  = Some (2, Some [false; true; true]) /\
  returned (evaluate [1%positive] [true]) world_pair = Some (1, Some [false]).
Proof. by vm_compute. Qed.

Example world_pair_queries :
  returned (nand_fan_out (Some 1%positive)) world_pair = Some 1 /\
  returned (nand_output (Some 1%positive) 0) world_pair = Some (Some 2%positive) /\
  nand_output (Some 1%positive) 1 world_pair
  = Ret (None, set_errno_w EINVAL world_pair) /\
  returned (nand_input (Some 2%positive) 0) world_pair
  = Some (GatePtr 1%positive) /\
  returned (nand_input (Some 2%positive) 1) world_pair
  = Some (BoolPtr 2%positive).
Proof. by vm_compute. Qed.

(** The three ways out of [nand_connect_nand] before it changes anything. *)
Example world_pair_connect :
  nand_connect_nand (Some 1%positive) (Some 2%positive) 5 world_pair
  = Ret (-1, set_errno_w EINVAL world_pair) /\
  nand_connect_nand (Some 1%positive) (Some 2%positive) 0 world_pair
  = Ret (0, world_pair) /\
  nand_connect_nand (Some 2%positive) (Some 1%positive) 0
    (set_alloc [false] world_pair)
  = Ret (-1, set_errno_w ENOMEM world_pair).
Proof. by vm_compute. Qed.

(** Deleting gate 1 of [world_pair] empties slot 0 of gate 2. *)
Example world_pair_delete :
  match nand_delete (Some 1%positive) world_pair with
  | Ret (_, w') =>
      heap w' !! 1%positive = None /\
      slot (heap w') 2%positive 0 = Some empty_input /\
      slot (heap w') 2%positive 1
      = Some (InInfo (BoolPtr 2%positive) BOOLEAN_SIGNAL_INPUT 0)
  | _ => False
  end.
Proof. by vm_compute. Qed.

(** * The stated properties *)

(** C1: in every reachable store the slots and the consumer records are
    paired in both directions, and every call within the contract
    ([nand_connect_nand], [nand_connect_signal], [nand_disconnect_input],
    [nand_delete], and the others) returns and leaves them paired, whatever
    the allocator decides. *)
Theorem pairing_preserved_by_every_call w c :
  reachable w -> valid_call (heap w) c ->
  bidirectional_pairing (heap w) /\
  post (run_call c) w (fun _ w' => bidirectional_pairing (heap w')).
Proof.
  intros Hw Hc. destruct (reachable_stable w Hw) as [Hwf Hnv]. split.
  - by apply wf_bidirectional_pairing.
  - eapply post_mono; [by apply call_stable|].
    intros _ w' [Hwf' _]. by apply wf_bidirectional_pairing.
Qed.

Lemma pairing_preserved_by_every_call_witness :
  bidirectional_pairing (heap world_pair) /\
  post (run_call (CallDelete (Some 1%positive))) world_pair
    (fun _ w' => bidirectional_pairing (heap w')).
Proof.
  apply pairing_preserved_by_every_call.
  - apply world_pair_reachable.
  - vm_compute. eauto.
Defined.










(** C6: [nand_delete] of a live gate [g] returns; afterwards [g] is gone, the
    other gates are all still there, no consumer record names [g] and no slot
    points at [g].  It works in the stated order: after the first loop all
    slots of [g] are empty and the pairing holds, after the second loop the
    consumer list of [g] is empty, the pairing holds and nothing refers to
    [g]. *)
Theorem delete_removes_every_trace w g :
  reachable w -> is_Some (heap w !! g) ->
  post (nand_delete (Some g)) w (fun _ w' =>
    heap w' !! g = None /\
    (forall g', g' <> g -> is_Some (heap w' !! g') <-> is_Some (heap w !! g')) /\
    unreferenced (heap w') g /\
    bidirectional_pairing (heap w')) /\
  post (delete_inputs g) w (fun _ w1 =>
    inputs_empty (heap w1) g /\ bidirectional_pairing (heap w1) /\
    post (let* x := deref g in delete_outputs (darray_size (outputs x)) g) w1
      (fun _ w2 =>
         outs (heap w2) g = Some [] /\ inputs_empty (heap w2) g /\
         bidirectional_pairing (heap w2) /\ unreferenced (heap w2) g)).
Proof.
  intros Hw Hg. destruct (reachable_stable w Hw) as [Hwf Hnv]. split.
  - eapply post_mono; [by apply nand_delete_run|].
    simpl. intros _ w' (h2 & -> & Hm & Hwf' & Hu). simpl in *.
    split; [apply lookup_delete_eq|]. split; [|split; [done|]].
    + intros g' Hne. rewrite lookup_delete_ne by done.
      specialize (Hm g'). rewrite <- !fmap_is_Some with (f := gate_meta) in *.
      by rewrite Hm.
    + by apply wf_bidirectional_pairing.
  - eapply post_mono; [by apply nand_delete_phases|].
    simpl. intros _ w1 (Hwf1 & He1 & H1). split; [done|].
    split; [by apply wf_bidirectional_pairing|].
    eapply post_mono; [apply H1|].
    simpl. intros _ w2 (Hwf2 & He2 & Ho2 & Hu2 & _).
    split; [done|]. split; [done|]. split; [|done].
    by apply wf_bidirectional_pairing.
Qed.

Lemma delete_removes_every_trace_witness :
  post (nand_delete (Some 1%positive)) world_pair (fun _ w' =>
    heap w' !! 1%positive = None /\
    (forall g', g' <> 1%positive ->
       is_Some (heap w' !! g') <-> is_Some (heap world_pair !! g')) /\
    unreferenced (heap w') 1%positive /\
    bidirectional_pairing (heap w')) /\
  post (delete_inputs 1%positive) world_pair (fun _ w1 =>
    inputs_empty (heap w1) 1%positive /\ bidirectional_pairing (heap w1) /\
    post (let* x := deref 1%positive in
          delete_outputs (darray_size (outputs x)) 1%positive) w1
      (fun _ w2 =>
         outs (heap w2) 1%positive = Some [] /\
         inputs_empty (heap w2) 1%positive /\
         bidirectional_pairing (heap w2) /\ unreferenced (heap w2) 1%positive)).
Proof.
  apply delete_removes_every_trace.
  - apply world_pair_reachable.
  - vm_compute. eauto.
Defined.

(** C7: [nand_connect_nand] checks its arguments before anything else: a
    null gate or a slot index not below the arity of the target gives [-1]
    and [EINVAL], whatever the slots hold.  Only then, when the slot already
    holds the source, it returns [0] and changes nothing; and when the append
    to the consumer list fails for want of memory it returns [-1] with
    [ENOMEM] and the store, hence the slot, is as before. *)
Theorem connect_nand_validates_then_skips w g_out g_in k gi :
  heap w !! g_in = Some gi -> is_Some (heap w !! g_out) ->
  nand_connect_nand None (Some g_in) k w = Ret (-1, set_errno_w EINVAL w) /\
  nand_connect_nand (Some g_out) None k w = Ret (-1, set_errno_w EINVAL w) /\
  ((input_count gi <= k)%nat ->
   nand_connect_nand (Some g_out) (Some g_in) k w
   = Ret (-1, set_errno_w EINVAL w)) /\
  (forall i j, (k < input_count gi)%nat -> inputs gi !! k = Some i ->
     slot_state_of i = GateSource g_out j ->
     nand_connect_nand (Some g_out) (Some g_in) k w = Ret (0, w)) /\
  (forall i a, (k < input_count gi)%nat -> inputs gi !! k = Some i ->
     i_ptr i <> GatePtr g_out -> alloc w = false :: a ->
     exists w', nand_connect_nand (Some g_out) (Some g_in) k w = Ret (-1, w') /\
                errno w' = ENOMEM /\ heap w' = heap w /\
                slot (heap w') g_in k = Some i).
Proof.
  intros Hgi [go Hgo]. split; [done|]. split; [done|].
  unfold nand_connect_nand, bind, deref. rewrite Hgi. split; [|split].
  - intros Hk. by rewrite bool_decide_eq_true_2 by lia.
  - intros i j Hk Hi Hst. rewrite bool_decide_eq_false_2 by lia.
    unfold array_get. rewrite Hi. simpl.
    rewrite bool_decide_eq_true_2; [done|].
    unfold slot_state_of in Hst. destruct (i_type i), (i_ptr i); try done.
    by injection Hst as ->.
  - intros i a Hk Hi Hptr Ha. rewrite bool_decide_eq_false_2 by lia.
    unfold array_get. rewrite Hi. simpl.
    rewrite bool_decide_eq_false_2 by done. rewrite Hgo.
    unfold darray_push_back, bind, malloc_ok. rewrite Ha. simpl.
    eexists. split; [done|]. simpl. split; [done|]. split; [done|].
    apply slot_Some. eauto.
Qed.

Lemma connect_nand_validates_then_skips_witness :
  exists gi, heap world_pair !! 2%positive = Some gi /\
  nand_connect_nand None (Some 2%positive) 0 world_pair
  = Ret (-1, set_errno_w EINVAL world_pair) /\
  nand_connect_nand (Some 1%positive) None 0 world_pair
  = Ret (-1, set_errno_w EINVAL world_pair) /\
  ((input_count gi <= 0)%nat ->
   nand_connect_nand (Some 1%positive) (Some 2%positive) 0 world_pair
   = Ret (-1, set_errno_w EINVAL world_pair)) /\
  (forall i j, (0 < input_count gi)%nat -> inputs gi !! 0%nat = Some i ->
     slot_state_of i = GateSource 1%positive j ->
     nand_connect_nand (Some 1%positive) (Some 2%positive) 0 world_pair
     = Ret (0, world_pair)) /\
  (forall i a, (0 < input_count gi)%nat -> inputs gi !! 0%nat = Some i ->
     i_ptr i <> GatePtr 1%positive -> alloc world_pair = false :: a ->
     exists w', nand_connect_nand (Some 1%positive) (Some 2%positive) 0 world_pair
                = Ret (-1, w') /\
                errno w' = ENOMEM /\ heap w' = heap world_pair /\
                slot (heap w') 2%positive 0 = Some i).
Proof.
  eexists. split; [vm_compute; reflexivity|].
  apply (connect_nand_validates_then_skips world_pair 1%positive 2%positive 0%nat).
  - vm_compute. reflexivity.
  - vm_compute. eauto.
Defined.



(** C9: at index [-1] on a live gate, [nand_output] passes its range check
    and reads outside the consumer list: it has no defined outcome instead
    of reporting [EINVAL]. *)
Example nand_output_minus_one :
  nand_output (Some 1%positive) (-1) world_pair = Undef.
Proof. apply nand_output_negative; [vm_compute; eauto|lia]. Qed.

(** C10: [nand_new 0] succeeds when no allocation fails: it returns a gate
    and leaves [errno] alone.  Evaluating that gate succeeds with signal
    [false] and critical path [0]. *)
Theorem arity_zero_gate w :
  reachable w -> alloc_ok w ->
  post (nand_new 0) w (fun r w1 =>
    exists g, r = Some g /\ errno w1 = errno w /\
      heap w1 !! g = Some (Nand 0 [] [] 0 NOT_VISITED false) /\
      forall b0, post (evaluate [g] [b0]) w1 (fun r2 w2 =>
        r2 = (0, Some [false]) /\ errno w2 = errno w1 /\
        gate_signal (heap w2) g = false /\ gate_crit (heap w2) g = 0)).
Proof.
  intros Hw Ha. pose proof (reachable_stable w Hw) as Hst.
  assert (post (nand_new 0) w (fun r w1 =>
            exists g, r = Some g /\ errno w1 = errno w /\ alloc_ok w1 /\
              heap w1 = <[g := Nand 0 [] [] 0 NOT_VISITED false]> (heap w)))
    as Hnew.
  { unfold nand_new, post, bind, malloc_ok, alloc_ok in *.
    destruct (alloc w) as [|b1 [|b2 [|b3 a]]] eqn:Hal; simpl;
      repeat match goal with
             | H : Forall _ (_ :: _) |- _ => apply Forall_cons in H as [-> H]
             end; simpl; try rewrite Hal; simpl; try rewrite Hal; simpl;
      (eexists; split; [done|]; split; [done|]; split; [|done]);
      simpl; try rewrite Hal; done. }
  apply post_run in Hnew as (r & w1 & Hrun & g & -> & He1 & Ha1 & Hh1).
  assert (reachable w1) as Hw1.
  { apply (reachable_call w (CallNew 0) tt w1); [done|done|].
    simpl. unfold bind. by rewrite Hrun. }
  apply post_run. exists (Some g), w1. split; [done|]. exists g.
  split; [done|]. split; [done|].
  assert (heap w1 !! g = Some (Nand 0 [] [] 0 NOT_VISITED false)) as Hg.
  { by rewrite Hh1, lookup_insert_eq. }
  split; [done|]. intros b0.
  pose proof (reachable_stable w1 Hw1) as Hst1.
  eapply post_mono.
  { apply evaluate_succeeds; [done| |done|].
    - split; [|done]. intros g' ->%list_elem_of_singleton. eauto.
    - exists (fun g' => g' = g), (fun _ => 0%nat). split.
      + by intros g' ->%list_elem_of_singleton.
      + intros g' ->. eexists. split; [done|]. simpl.
        intros k i Hk. by rewrite lookup_nil in Hk. }
  intros [l s'] w2 (_ & _ & _ & He2 & ord & Hs & Hev). simpl in *.
  destruct Hst1 as [Hwf1 _].
  destruct (evaluated_settled _ _ _ _ _ _ _ Hwf1 Hev g) as (x & Hx & Hsig & Hc).
  { apply (evaluated_requested _ _ _ _ _ _ _ Hev). by apply list_elem_of_singleton. }
  destruct (same_shape_lookup _ _ _ _ (evaluated_shape _ _ _ _ _ _ _ Hev) Hg)
    as (x' & Hx' & Hin & _).
  rewrite Hx in Hx'. injection Hx' as <-. simpl in Hin. rewrite Hin in *.
  assert (gate_signal (heap w2) g = false) as Hgs.
  { unfold gate_signal. by rewrite Hx, Hsig. }
  assert (gate_crit (heap w2) g = 0) as Hgc.
  { unfold gate_crit. by rewrite Hx, Hc. }
  rewrite (ev_crit _ _ _ _ _ _ _ Hev), Hs. simpl. rewrite Hgs, Hgc. done.
Qed.

Lemma arity_zero_gate_witness :
  post (nand_new 0) world_pair (fun r w1 =>
    exists g, r = Some g /\ errno w1 = errno world_pair /\
      heap w1 !! g = Some (Nand 0 [] [] 0 NOT_VISITED false) /\
      forall b0, post (evaluate [g] [b0]) w1 (fun r2 w2 =>
        r2 = (0, Some [false]) /\ errno w2 = errno w1 /\
        gate_signal (heap w2) g = false /\ gate_crit (heap w2) g = 0)).
Proof.
  apply arity_zero_gate; [apply world_pair_reachable|apply world_pair_alloc_ok].
Defined.

(** * Further properties of the gate store and of the queries *)

(** Slot [k] of gate [T] reads the output of gate [S]. *)
Definition reads (h : gmap handle nand_t) (T : handle) (k : nat) (S : handle)
  : Prop :=
  slot_kind <$> slot h T k = Some (GatePtr S, NAND_GATE_INPUT).

Lemma reads_holds h T k S :
  reads h T k S <-> exists i, holds_gate_source h T k S i.
Proof.
  unfold reads, holds_gate_source. split.
  - destruct (slot h T k) as [[p t n]|]; [|done]. simpl.
    unfold slot_kind. simpl. intros [= -> ->]. eauto.
  - intros [i ->]. done.
Qed.

(** Under the pairing invariant the consumer list of [S] lists every slot
    that reads [S] once, and nothing else. *)
Lemma consumers_exact h S o :
  wf h -> outs h S = Some o ->
  NoDup o /\ forall T k, OutInfo T k ∈ o <-> reads h T k S.
Proof.
  intros Hwf Ho. split.
  - apply NoDup_alt. intros i j [T k] Hi Hj.
    assert (orec h S i = Some (OutInfo T k)) as Hri by (by rewrite orec_outs, Ho).
    assert (orec h S j = Some (OutInfo T k)) as Hrj by (by rewrite orec_outs, Ho).
    apply (wf_orec _ Hwf) in Hri. apply (wf_orec _ Hwf) in Hrj.
    simpl in *. rewrite Hri in Hrj. by injection Hrj.
  - intros T k. rewrite reads_holds. split.
    + intros [i Hi]%list_elem_of_lookup. exists i.
      apply (wf_orec _ Hwf S i (OutInfo T k)). by rewrite orec_outs, Ho.
    + intros [i Hi]. apply (wf_gate_slot _ _ _ _ _ Hwf) in Hi.
      rewrite orec_outs, Ho in Hi. simpl in Hi.
      by eapply list_elem_of_lookup_2.
Qed.

(** X1: [nand_new] uses up to three allocations.  When one of them fails it
    returns [NULL] with [errno = ENOMEM] and the store is as before; when
    none fails it returns an address that was not in use, of a gate with [n]
    empty slots, no consumer, signal [false] and critical path [0], and
    leaves the other gates and [errno] alone. *)
Theorem nand_new_outcome w n :
  post (nand_new n) w (fun r w' =>
    bools w' = bools w /\
    match r with
    | Some g =>
        Forall (fun b => b = true) (take 3 (alloc w)) /\
        heap w !! g = None /\ errno w' = errno w /\
        heap w' = <[g := Nand 0 (replicate n empty_input) [] n NOT_VISITED false]>
                    (heap w)
    | None =>
        ~ Forall (fun b => b = true) (take 3 (alloc w)) /\
        heap w' = heap w /\ errno w' = ENOMEM
    end).
Proof.
  assert (heap w !! fresh (dom (heap w)) = None) as Hfresh.
  { apply not_elem_of_dom, is_fresh. }
  unfold nand_new, post, bind, malloc_ok, malloc_gate, set_errno, ret.
  destruct (alloc w) as [|[] [|[] [|[] a]]] eqn:Ha; simpl;
    rewrite ?Ha; simpl; rewrite ?Ha; simpl;
    (split; [done|]);
    first [ split; [by repeat constructor|done]
          | split; [|done]; intros Hall;
            repeat (apply Forall_cons in Hall as [? Hall]); done ].
Qed.

(** X2: in every store the interface can reach, every gate has as many slots
    as its arity and is not marked by a traversal; the type of a slot agrees
    with what it points at, and a gate it points at is live; every consumer
    record names a live gate and one of its slots. *)
Theorem reachable_store_has_no_dangling_reference w :
  reachable w ->
  (forall g x, heap w !! g = Some x ->
     length (inputs x) = input_count x /\ status x = NOT_VISITED) /\
  (forall T k i, slot (heap w) T k = Some i ->
     match i_type i with
     | EMPTY_INPUT => i_ptr i = NULL
     | BOOLEAN_SIGNAL_INPUT => exists s, i_ptr i = BoolPtr s
     | NAND_GATE_INPUT => exists S, i_ptr i = GatePtr S /\ is_Some (heap w !! S)
     end) /\
  (forall S j o, orec (heap w) S j = Some o ->
     exists x, heap w !! o_gate o = Some x /\ (o_ind o < input_count x)%nat).
Proof.
  intros Hw. destruct (reachable_stable w Hw) as [Hwf Hnv].
  split; [|split].
  - intros g x Hx. split; [by apply (wf_len _ Hwf g)|by apply (Hnv g)].
  - intros T k i Hi. pose proof (wf_slot _ Hwf _ _ _ Hi) as Hs.
    unfold slot_wf in Hs. destruct (i_type i); [done..|].
    destruct Hs as (S & Hp & Hr). exists S. split; [done|].
    apply orec_Some in Hr as (x & Hx & _). eauto.
  - intros S j o Ho. apply (wf_orec _ Hwf) in Ho.
    apply slot_Some in Ho as (x & Hx & Hk). exists x. split; [done|].
    rewrite <- (wf_len _ Hwf _ _ Hx). by eapply lookup_lt_Some.
Qed.

Lemma reachable_store_has_no_dangling_reference_witness :
  (forall g x, heap world_pair !! g = Some x ->
     length (inputs x) = input_count x /\ status x = NOT_VISITED) /\
  (forall T k i, slot (heap world_pair) T k = Some i ->
     match i_type i with
     | EMPTY_INPUT => i_ptr i = NULL
     | BOOLEAN_SIGNAL_INPUT => exists s, i_ptr i = BoolPtr s
     | NAND_GATE_INPUT =>
         exists S, i_ptr i = GatePtr S /\ is_Some (heap world_pair !! S)
     end) /\
  (forall S j o, orec (heap world_pair) S j = Some o ->
     exists x, heap world_pair !! o_gate o = Some x /\
               (o_ind o < input_count x)%nat).
Proof.
  apply reachable_store_has_no_dangling_reference, world_pair_reachable.
Defined.

(** X3: [nand_input] never changes the network.  For a null gate or an
    index not below the arity it returns [NULL] with [errno = EINVAL]; for an
    empty slot [NULL] with [errno = 0]; for a slot wired to a signal the
    address of that boolean, and for a slot wired to a gate the address of
    that gate, which is live, both with [errno] as it was. *)
Theorem nand_input_reports w g k x :
  reachable w -> heap w !! g = Some x ->
  nand_input None k w = Ret (NULL, set_errno_w EINVAL w) /\
  ((input_count x <= k)%nat ->
   nand_input (Some g) k w = Ret (NULL, set_errno_w EINVAL w)) /\
  ((k < input_count x)%nat ->
   exists i, slot (heap w) g k = Some i /\
     match slot_state_of i with
     | Empty => nand_input (Some g) k w = Ret (NULL, set_errno_w 0 w)
     | ExternalSignal s => nand_input (Some g) k w = Ret (BoolPtr s, w)
     | GateSource src _ =>
         nand_input (Some g) k w = Ret (GatePtr src, w) /\ is_Some (heap w !! src)
     end).
Proof.
  intros Hw Hx. destruct (reachable_stable w Hw) as [Hwf _].
  split; [done|]. split.
  - intros Hk. unfold nand_input, bind, deref. rewrite Hx.
    by rewrite bool_decide_eq_true_2.
  - intros Hk.
    assert (is_Some (inputs x !! k)) as [i Hi].
    { apply lookup_lt_is_Some. by rewrite (wf_len _ Hwf _ _ Hx). }
    assert (slot (heap w) g k = Some i) as Hs by (apply slot_Some; eauto).
    exists i. split; [done|].
    pose proof (wf_slot _ Hwf _ _ _ Hs) as Hwfs.
    unfold nand_input, bind, deref, array_get. rewrite Hx.
    rewrite bool_decide_eq_false_2 by lia. rewrite Hi. simpl.
    unfold slot_wf in Hwfs. unfold slot_state_of.
    destruct (i_type i) eqn:Hty; simpl.
    + done.
    + destruct Hwfs as [s ->]. done.
    + destruct Hwfs as (S & -> & Hr). split; [done|].
      apply orec_Some in Hr as (y & Hy & _). eauto.
Qed.

Lemma nand_input_reports_witness :
  nand_input None 0 world_pair = Ret (NULL, set_errno_w EINVAL world_pair) /\
  ((2 <= 0)%nat ->
   nand_input (Some 2%positive) 0 world_pair
   = Ret (NULL, set_errno_w EINVAL world_pair)) /\
  ((0 < 2)%nat ->
   exists i, slot (heap world_pair) 2%positive 0 = Some i /\
     match slot_state_of i with
     | Empty =>
         nand_input (Some 2%positive) 0 world_pair
         = Ret (NULL, set_errno_w 0 world_pair)
     | ExternalSignal s =>
         nand_input (Some 2%positive) 0 world_pair = Ret (BoolPtr s, world_pair)
     | GateSource src _ =>
         nand_input (Some 2%positive) 0 world_pair = Ret (GatePtr src, world_pair)
         /\ is_Some (heap world_pair !! src)
     end).
Proof.
  apply (nand_input_reports world_pair 2%positive 0%nat
           (Nand 0 [InInfo (GatePtr 1%positive) NAND_GATE_INPUT 0;
                    InInfo (BoolPtr 2%positive) BOOLEAN_SIGNAL_INPUT 0]
                 [] 2 NOT_VISITED false)).
  - apply world_pair_reachable.
  - by vm_compute.
Defined.

(** X4: the consumer list of a gate names every slot that reads the gate
    exactly once and nothing else, so [nand_fan_out] is the number of slots
    wired to the gate; [nand_output] at an index from [0] below the fan-out
    changes nothing and returns a gate one of whose slots reads the gate. *)
Theorem nand_output_names_a_reader w g x :
  reachable w -> heap w !! g = Some x ->
  nand_fan_out (Some g) w = Ret (Z.of_nat (length (outputs x)), w) /\
  NoDup (outputs x) /\
  (forall T k, OutInfo T k ∈ outputs x <-> reads (heap w) T k g) /\
  (forall n, (n < length (outputs x))%nat ->
     exists T k, outputs x !! n = Some (OutInfo T k) /\
       nand_output (Some g) (Z.of_nat n) w = Ret (Some T, w) /\
       holds_gate_source (heap w) T k g n).
Proof.
  intros Hw Hx. destruct (reachable_stable w Hw) as [Hwf _].
  assert (outs (heap w) g = Some (outputs x)) as Ho by (apply outs_Some; eauto).
  destruct (consumers_exact _ _ _ Hwf Ho) as [Hnd Hmem].
  split; [|split; [done|split; [done|]]].
  { unfold nand_fan_out, bind, deref. by rewrite Hx. }
  intros n Hn. destruct (lookup_lt_is_Some_2 _ _ Hn) as [[T k] Hr].
  exists T, k. split; [done|]. split.
  - by rewrite (nand_output_in_range w g x n (OutInfo T k)).
  - apply (wf_orec _ Hwf g n (OutInfo T k)). by rewrite orec_outs, Ho.
Qed.

Lemma nand_output_names_a_reader_witness :
  nand_fan_out (Some 1%positive) world_pair
  = Ret (Z.of_nat (length [OutInfo 2%positive 0]), world_pair) /\
  NoDup [OutInfo 2%positive 0] /\
  (forall T k, OutInfo T k ∈ [OutInfo 2%positive 0]
               <-> reads (heap world_pair) T k 1%positive) /\
  (forall n, (n < length [OutInfo 2%positive 0])%nat ->
     exists T k, [OutInfo 2%positive 0] !! n = Some (OutInfo T k) /\
       nand_output (Some 1%positive) (Z.of_nat n) world_pair
       = Ret (Some T, world_pair) /\
       holds_gate_source (heap world_pair) T k 1%positive n).
Proof.
  apply (nand_output_names_a_reader world_pair 1%positive
           (Nand 0 [InInfo (BoolPtr 1%positive) BOOLEAN_SIGNAL_INPUT 0;
                    InInfo (BoolPtr 1%positive) BOOLEAN_SIGNAL_INPUT 0]
                 [OutInfo 2%positive 0] 2 NOT_VISITED false)).
  - apply world_pair_reachable.
  - by vm_compute.
Defined.

(** * Further properties of the connection manager *)

Global Instance reads_dec h T k S : Decision (reads h T k S).
Proof. unfold reads. apply _. Defined.

(** Two stores under the pairing invariant whose slots agree except in slot
    [k] of [g]: every consumer list of the second is the one of the first
    without the record of that slot, and with it again when the slot reads
    the gate in the second store. *)
Lemma rewired h h' g k S o o' :
  wf h -> wf h' ->
  (forall T k', ~ (T = g /\ k' = k) ->
     slot_kind <$> slot h' T k' = slot_kind <$> slot h T k') ->
  outs h S = Some o -> outs h' S = Some o' ->
  o' ≡ₚ (if decide (reads h' g k S) then [OutInfo g k] else [])
        ++ filter (fun r => r <> OutInfo g k) o.
Proof.
  intros Hwf Hwf' Hk Ho Ho'.
  destruct (consumers_exact _ _ _ Hwf Ho) as [Hnd Hmem].
  destruct (consumers_exact _ _ _ Hwf' Ho') as [Hnd' Hmem'].
  apply NoDup_Permutation; [done| |].
  - apply NoDup_app. split; [|split].
    + case_decide; [apply NoDup_singleton|apply NoDup_nil_2].
    + intros r Hr Hf. apply list_elem_of_filter in Hf as [Hne _].
      case_decide; [|by apply elem_of_nil in Hr].
      by apply list_elem_of_singleton in Hr.
    + by apply NoDup_filter.
  - intros [T k']. rewrite Hmem', elem_of_app, list_elem_of_filter, Hmem.
    destruct (decide (T = g /\ k' = k)) as [[-> ->]|Hne].
    + split.
      * intros Hr. left. rewrite decide_True by done.
        by apply list_elem_of_singleton.
      * intros [Hr|[Hr _]]; [|done].
        case_decide; [done|by apply elem_of_nil in Hr].
    + unfold reads. rewrite (Hk _ _ Hne). split.
      * intros Hr. right. split; [|done]. intros [= -> ->]. tauto.
      * intros [Hr|[_ Hr]]; [|done].
        case_decide; [|by apply elem_of_nil in Hr].
        apply list_elem_of_singleton in Hr. injection Hr as -> ->. tauto.
Qed.

Lemma filter_not_elem {A} `{EqDecision A} (x : A) (l : list A) :
  x ∉ l -> filter (fun r => r <> x) l = l.
Proof.
  intros Hx. induction l as [|a l IH]; [done|].
  apply not_elem_of_cons in Hx as [Hne Hx].
  rewrite filter_cons_True by done. by rewrite IH.
Qed.

Lemma meta_live (h h' : gmap handle nand_t) g :
  (forall g', gate_meta <$> h' !! g' = gate_meta <$> h !! g') ->
  is_Some (h !! g) -> is_Some (h' !! g).
Proof.
  intros Hm [x Hx]. specialize (Hm g). rewrite Hx in Hm.
  destruct (h' !! g); [eauto|done].
Qed.

Lemma meta_outs (h h' : gmap handle nand_t) S o :
  (forall g', gate_meta <$> h' !! g' = gate_meta <$> h !! g') ->
  outs h S = Some o -> is_Some (outs h' S).
Proof.
  intros Hm (x & Hx & _)%outs_Some.
  destruct (meta_live h h' S Hm) as [y Hy]; [eauto|].
  unfold outs. rewrite Hy. eauto.
Qed.

Lemma nand_input_slot w g k i :
  wf (heap w) -> slot (heap w) g k = Some i -> i_type i <> EMPTY_INPUT ->
  nand_input (Some g) k w = Ret (i_ptr i, w).
Proof.
  intros Hwf Hs Hty. apply slot_Some in Hs as (x & Hx & Hi).
  apply lookup_lt_Some in Hi as Hlt. rewrite (wf_len _ Hwf _ _ Hx) in Hlt.
  unfold nand_input, bind, deref, array_get. rewrite Hx.
  rewrite bool_decide_eq_false_2 by lia. rewrite Hi. simpl.
  by rewrite bool_decide_eq_false_2.
Qed.

Lemma nand_input_empty w g k i :
  wf (heap w) -> slot (heap w) g k = Some i -> i_type i = EMPTY_INPUT ->
  nand_input (Some g) k w = Ret (NULL, set_errno_w 0 w).
Proof.
  intros Hwf Hs Hty. apply slot_Some in Hs as (x & Hx & Hi).
  apply lookup_lt_Some in Hi as Hlt. rewrite (wf_len _ Hwf _ _ Hx) in Hlt.
  unfold nand_input, bind, deref, array_get. rewrite Hx.
  rewrite bool_decide_eq_false_2 by lia. rewrite Hi. simpl.
  by rewrite bool_decide_eq_true_2.
Qed.

(** X5: [nand_connect_nand] on live gates and a slot of the target that does
    not read the source yet either fails for want of memory, with [-1],
    [ENOMEM] and the store as it was, or returns [0] and then: [nand_input]
    of the slot returns the source, every other slot reads what it read, the
    consumer list of the source has the record of the slot as one record
    more, so its fan-out is one larger, and every other consumer list has
    lost the record of the slot if it had it and is otherwise the same up to
    the order of its records. *)
Theorem connect_nand_rewires w g_out g_in k gi i :
  reachable w -> heap w !! g_in = Some gi -> inputs gi !! k = Some i ->
  is_Some (heap w !! g_out) -> i_ptr i <> GatePtr g_out ->
  post (nand_connect_nand (Some g_out) (Some g_in) k) w (fun r w' =>
    (r = -1 /\ errno w' = ENOMEM /\ heap w' = heap w) \/
    (r = 0 /\ errno w' = errno w /\
     nand_input (Some g_in) k w' = Ret (GatePtr g_out, w') /\
     (forall T k', ~ (T = g_in /\ k' = k) ->
        slot_kind <$> slot (heap w') T k' = slot_kind <$> slot (heap w) T k') /\
     (forall S o, outs (heap w) S = Some o ->
        exists o', outs (heap w') S = Some o' /\
          if decide (S = g_out) then
            o' ≡ₚ OutInfo g_in k :: o /\
            nand_fan_out (Some S) w' = Ret (Z.of_nat (length o) + 1, w')
          else o' ≡ₚ filter (fun r => r <> OutInfo g_in k) o))).
Proof.
  intros Hw Hgi Hi Hgo Hslow. destruct (reachable_stable w Hw) as [Hwf _].
  assert (k < input_count gi)%nat as Hk.
  { rewrite <- (wf_len _ Hwf _ _ Hgi). by eapply lookup_lt_Some. }
  assert (slot (heap w) g_in k = Some i) as Hs by (apply slot_Some; eauto).
  eapply post_mono; [by apply (nand_connect_nand_run w g_out g_in k gi)|].
  intros r w' (_ & Hwf' & Hm & [(-> & He & [j Hj] & Hkind)|H]); [|by left].
  right. split; [done|]. split; [done|]. split.
  { by apply (nand_input_slot w' g_in k _ Hwf' Hj). }
  split; [done|]. intros S o Ho.
  destruct (meta_outs _ _ _ _ Hm Ho) as [o' Ho']. exists o'. split; [done|].
  pose proof (rewired _ _ g_in k S o o' Hwf Hwf' Hkind Ho Ho') as Hperm.
  assert (reads (heap w') g_in k S <-> S = g_out) as Hreads.
  { unfold reads. rewrite Hj. simpl. unfold slot_kind. simpl.
    split; [by intros [= ->]|by intros ->]. }
  destruct (decide (S = g_out)) as [->|HS].
  - rewrite decide_True in Hperm by (by apply Hreads).
    rewrite filter_not_elem in Hperm.
    + split; [done|]. apply outs_Some in Ho' as (y & Hy & <-).
      unfold nand_fan_out, bind, deref. rewrite Hy. simpl.
      unfold darray_size, ret. apply Permutation_length in Hperm.
      rewrite Hperm. simpl. do 2 f_equal. lia.
    + destruct (consumers_exact _ _ _ Hwf Ho) as [_ Hmem]. rewrite Hmem.
      unfold reads. rewrite Hs. simpl. unfold slot_kind. congruence.
  - rewrite decide_False in Hperm by (by rewrite Hreads). done.
Qed.

Lemma connect_nand_rewires_witness :
  post (nand_connect_nand (Some 2%positive) (Some 1%positive) 1) world_pair
    (fun r w' =>
    (r = -1 /\ errno w' = ENOMEM /\ heap w' = heap world_pair) \/
    (r = 0 /\ errno w' = errno world_pair /\
     nand_input (Some 1%positive) 1 w' = Ret (GatePtr 2%positive, w') /\
     (forall T k', ~ (T = 1%positive /\ k' = 1%nat) ->
        slot_kind <$> slot (heap w') T k'
        = slot_kind <$> slot (heap world_pair) T k') /\
     (forall S o, outs (heap world_pair) S = Some o ->
        exists o', outs (heap w') S = Some o' /\
          if decide (S = 2%positive) then
            o' ≡ₚ OutInfo 1%positive 1 :: o /\
            nand_fan_out (Some S) w' = Ret (Z.of_nat (length o) + 1, w')
          else o' ≡ₚ filter (fun r => r <> OutInfo 1%positive 1) o))).
Proof.
  apply (connect_nand_rewires world_pair 2%positive 1%positive 1%nat
           (Nand 0 [InInfo (BoolPtr 1%positive) BOOLEAN_SIGNAL_INPUT 0;
                    InInfo (BoolPtr 1%positive) BOOLEAN_SIGNAL_INPUT 0]
                 [OutInfo 2%positive 0] 2 NOT_VISITED false)
           (InInfo (BoolPtr 1%positive) BOOLEAN_SIGNAL_INPUT 0)).
  - apply world_pair_reachable.
  - by vm_compute.
  - done.
  - vm_compute. eauto.
  - done.
Defined.

(** X6: [nand_connect_signal] returns [-1] with [errno = EINVAL] and changes
    nothing else for a null signal, a null gate or an index not below the
    arity.  Otherwise it returns [0] and leaves [errno] alone; afterwards
    [nand_input] of the slot returns the signal, every other slot reads what
    it read, and every consumer list has lost the record of the slot if it
    had it and is otherwise the same up to the order of its records. *)
Theorem connect_signal_rewires w s g k x :
  reachable w -> heap w !! g = Some x ->
  nand_connect_signal None (Some g) k w = Ret (-1, set_errno_w EINVAL w) /\
  nand_connect_signal (Some s) None k w = Ret (-1, set_errno_w EINVAL w) /\
  ((input_count x <= k)%nat ->
   nand_connect_signal (Some s) (Some g) k w
   = Ret (-1, set_errno_w EINVAL w)) /\
  ((k < input_count x)%nat ->
   post (nand_connect_signal (Some s) (Some g) k) w (fun r w' =>
     r = 0 /\ errno w' = errno w /\
     nand_input (Some g) k w' = Ret (BoolPtr s, w') /\
     (forall T k', ~ (T = g /\ k' = k) ->
        slot_kind <$> slot (heap w') T k' = slot_kind <$> slot (heap w) T k') /\
     (forall S o, outs (heap w) S = Some o ->
        exists o', outs (heap w') S = Some o' /\
                   o' ≡ₚ filter (fun r => r <> OutInfo g k) o))).
Proof.
  intros Hw Hx. destruct (reachable_stable w Hw) as [Hwf _].
  split; [done|]. split; [done|]. split.
  { intros Hk. unfold nand_connect_signal, bind, deref. rewrite Hx.
    by rewrite bool_decide_eq_true_2. }
  intros Hk.
  eapply post_mono; [by apply (nand_connect_signal_run w s g k x)|].
  intros r w' (-> & h' & -> & Hwf' & Hm & Hslot & Hkind).
  split; [done|]. split; [done|]. split.
  { by apply (nand_input_slot (set_heap h' w) g k _ Hwf' Hslot). }
  split; [done|]. intros S o Ho.
  destruct (meta_outs _ _ _ _ Hm Ho) as [o' Ho']. exists o'. split; [done|].
  pose proof (rewired _ _ g k S o o' Hwf Hwf' Hkind Ho Ho') as Hperm.
  rewrite decide_False in Hperm; [done|].
  unfold reads. rewrite Hslot. done.
Qed.

Lemma connect_signal_rewires_witness :
  nand_connect_signal None (Some 2%positive) 0 world_pair
  = Ret (-1, set_errno_w EINVAL world_pair) /\
  nand_connect_signal (Some 3%positive) None 0 world_pair
  = Ret (-1, set_errno_w EINVAL world_pair) /\
  ((2 <= 0)%nat ->
   nand_connect_signal (Some 3%positive) (Some 2%positive) 0 world_pair
   = Ret (-1, set_errno_w EINVAL world_pair)) /\
  ((0 < 2)%nat ->
   post (nand_connect_signal (Some 3%positive) (Some 2%positive) 0) world_pair
     (fun r w' =>
     r = 0 /\ errno w' = errno world_pair /\
     nand_input (Some 2%positive) 0 w' = Ret (BoolPtr 3%positive, w') /\
     (forall T k', ~ (T = 2%positive /\ k' = 0%nat) ->
        slot_kind <$> slot (heap w') T k'
        = slot_kind <$> slot (heap world_pair) T k') /\
     (forall S o, outs (heap world_pair) S = Some o ->
        exists o', outs (heap w') S = Some o' /\
                   o' ≡ₚ filter (fun r => r <> OutInfo 2%positive 0) o))).
Proof.
  apply (connect_signal_rewires world_pair 3%positive 2%positive 0%nat
           (Nand 0 [InInfo (GatePtr 1%positive) NAND_GATE_INPUT 0;
                    InInfo (BoolPtr 2%positive) BOOLEAN_SIGNAL_INPUT 0]
                 [] 2 NOT_VISITED false)).
  - apply world_pair_reachable.
  - by vm_compute.
Defined.

(** X7: [nand_disconnect_input] on a slot of a live gate leaves the slot
    empty whatever it held: [nand_input] then returns [NULL] with
    [errno = 0].  Every other slot reads what it read, every consumer list
    has lost the record of the slot if it had it and is otherwise the same up
    to the order of its records, and a slot that was empty already leaves the
    world as it was. *)
Theorem disconnect_input_empties_the_slot w g k x i :
  reachable w -> heap w !! g = Some x -> inputs x !! k = Some i ->
  post (nand_disconnect_input g k) w (fun _ w' =>
    errno w' = errno w /\ bools w' = bools w /\
    nand_input (Some g) k w' = Ret (NULL, set_errno_w 0 w') /\
    (forall T k', ~ (T = g /\ k' = k) ->
       slot_kind <$> slot (heap w') T k' = slot_kind <$> slot (heap w) T k') /\
    (forall S o, outs (heap w) S = Some o ->
       exists o', outs (heap w') S = Some o' /\
                  o' ≡ₚ filter (fun r => r <> OutInfo g k) o) /\
    (i_type i = EMPTY_INPUT -> w' = w)).
Proof.
  intros Hw Hx Hi. destruct (reachable_stable w Hw) as [Hwf _].
  assert (slot (heap w) g k = Some i) as Hs by (apply slot_Some; eauto).
  assert (i_type i = EMPTY_INPUT -> nand_disconnect_input g k w = Ret (tt, w))
    as Hnoop.
  { intros Hty. unfold nand_disconnect_input, bind, deref, array_get.
    rewrite Hx, Hi. simpl. rewrite Hty. simpl. rewrite Hx, Hi. simpl.
    by rewrite Hty. }
  assert (post (nand_disconnect_input g k) w (fun _ w' =>
            exists h', w' = set_heap h' w /\
              disconnected (fun _ _ => False) (heap w) h' g k i)) as Hrun.
  { apply (nand_disconnect_input_run (fun _ _ => False) w g k i);
      [by apply wf_wf_except|done|tauto]. }
  apply post_run in Hrun as (u & w' & Heq & h' & -> & [Hwf' Hm Hslot Hkind _ _]).
  apply post_run. exists u, (set_heap h' w). split; [done|].
  apply wf_wf_except in Hwf'.
  split; [done|]. split; [done|].
  destruct (slot h' g k) as [i'|] eqn:Hi'; [|done].
  injection Hslot as Hp Hty. split.
  { by apply (nand_input_empty (set_heap h' w) g k i' Hwf' Hi' Hty). }
  split; [done|]. split.
  - intros S o Ho.
    destruct (meta_outs _ _ _ _ Hm Ho) as [o' Ho']. exists o'. split; [done|].
    pose proof (rewired _ _ g k S o o' Hwf Hwf' Hkind Ho Ho') as Hperm.
    rewrite decide_False in Hperm; [done|].
    unfold reads. rewrite Hi'. simpl. unfold slot_kind. rewrite Hp, Hty. done.
  - intros Hty0. rewrite Hnoop in Heq by done. by injection Heq.
Qed.

Lemma disconnect_input_empties_the_slot_witness :
  post (nand_disconnect_input 2%positive 0) world_pair (fun _ w' =>
    errno w' = errno world_pair /\ bools w' = bools world_pair /\
    nand_input (Some 2%positive) 0 w' = Ret (NULL, set_errno_w 0 w') /\
    (forall T k', ~ (T = 2%positive /\ k' = 0%nat) ->
       slot_kind <$> slot (heap w') T k'
       = slot_kind <$> slot (heap world_pair) T k') /\
    (forall S o, outs (heap world_pair) S = Some o ->
       exists o', outs (heap w') S = Some o' /\
                  o' ≡ₚ filter (fun r => r <> OutInfo 2%positive 0) o) /\
    (i_type (InInfo (GatePtr 1%positive) NAND_GATE_INPUT 0) = EMPTY_INPUT ->
     w' = world_pair)).
Proof.
  apply (disconnect_input_empties_the_slot world_pair 2%positive 0%nat
           (Nand 0 [InInfo (GatePtr 1%positive) NAND_GATE_INPUT 0;
                    InInfo (BoolPtr 2%positive) BOOLEAN_SIGNAL_INPUT 0]
                 [] 2 NOT_VISITED false)).
  - apply world_pair_reachable.
  - by vm_compute.
  - done.
Defined.

(** * What [nand_delete] leaves of the rest of the network *)

(** From [h] to [h'] the slots of the gates other than [g] read what they
    read, or have become empty where they read [g]. *)
Definition fades (g : handle) (h h' : gmap handle nand_t) : Prop :=
  forall T k, T <> g ->
    slot_kind <$> slot h' T k = slot_kind <$> slot h T k \/
    (reads h T k g /\ slot_kind <$> slot h' T k = Some (NULL, EMPTY_INPUT)).

Lemma fades_refl g h : fades g h h.
Proof. intros T k _. by left. Qed.

(** One more slot, of [g] itself or one that reads [g], is emptied. *)
Lemma fades_step g h h1 h2 T0 k0 :
  fades g h h1 ->
  T0 = g \/ reads h1 T0 k0 g ->
  slot_kind <$> slot h2 T0 k0 = Some (NULL, EMPTY_INPUT) ->
  (forall T k, ~ (T = T0 /\ k = k0) ->
     slot_kind <$> slot h2 T k = slot_kind <$> slot h1 T k) ->
  fades g h h2.
Proof.
  intros Hf H0 He Hk T k HT.
  destruct (decide (T = T0 /\ k = k0)) as [[-> ->]|Hne].
  - destruct H0 as [->|Hr]; [done|]. right. split; [|done].
    destruct (Hf T0 k0 HT) as [Heq|[_ Heq]].
    + unfold reads. by rewrite <- Heq.
    + unfold reads in Hr. congruence.
  - rewrite (Hk _ _ Hne). by apply Hf.
Qed.

Lemma delete_inputs_frame w g :
  wf (heap w) -> is_Some (heap w !! g) ->
  post (delete_inputs g) w (fun _ w' =>
    exists h', w' = set_heap h' w /\ wf h' /\
      (forall g', gate_meta <$> h' !! g' = gate_meta <$> heap w !! g') /\
      inputs_empty h' g /\ fades g (heap w) h').
Proof.
  intros Hwf [x Hx]. unfold delete_inputs. mbind.
  apply (post_deref _ _ x); [done|]. cbv beta.
  eapply post_mono.
  { apply (post_for_loop (fun n w1 => exists h1, w1 = set_heap h1 w /\ wf h1 /\
      (forall g', gate_meta <$> h1 !! g' = gate_meta <$> heap w !! g') /\
      (forall k i, (k < n)%nat -> slot h1 g k = Some i ->
                   slot_kind i = (NULL, EMPTY_INPUT)) /\
      fades g (heap w) h1)).
    - exists (heap w). split; [by destruct w|]. split; [done|]. split; [done|].
      split; [intros; lia|apply fades_refl].
    - intros n w1 Hn (h1 & -> & Hwf1 & Hm1 & He1 & Hf1). simpl in Hn.
      destruct (meta_lookup _ _ _ _ Hm1 Hx) as (x1 & Hx1 & Hmx).
      unfold gate_meta in Hmx. injection Hmx as Hic Hlen _ _ _.
      pose proof (wf_len _ Hwf1 _ _ Hx1) as Hlen1.
      assert (is_Some (inputs x1 !! n)) as [i Hi].
      { apply lookup_lt_is_Some. lia. }
      assert (slot h1 g n = Some i) as Hs by (apply slot_Some; eauto).
      mbind. apply (post_deref _ _ x1); [done|]. mbind.
      apply (post_array_get _ _ _ _ _ Hi). cbv beta.
      case_bool_decide as Hty.
      + eapply post_mono.
        { apply (nand_disconnect_input_run (fun _ _ => False)); simpl; eauto.
          by apply wf_wf_except. }
        simpl. intros _ w2 (h2 & -> & [Hwf2 Hm2 Hs2 Hk2 _ _]).
        exists h2. split; [done|]. split; [by apply wf_wf_except|].
        split; [by eapply meta_trans|]. split.
        * intros k i' Hk Hi'. destruct (decide (k = n)) as [->|Hne].
          -- rewrite Hi' in Hs2. simpl in Hs2. congruence.
          -- assert (~ (g = g /\ k = n)) as Hne' by naive_solver.
             specialize (Hk2 g k Hne'). rewrite Hi' in Hk2.
             destruct (slot h1 g k) as [i1|] eqn:Hi1; [|done].
             assert (slot_kind i1 = (NULL, EMPTY_INPUT))
               by (eapply He1; [|done]; lia).
             simpl in Hk2. congruence.
        * by apply (fades_step g (heap w) h1 h2 g n); [|left| |].
      + apply post_ret. exists h1. split; [done|]. split; [done|].
        split; [done|]. split; [|done]. intros k i' Hk Hi'.
        destruct (decide (k = n)) as [->|Hne]; [|eapply He1; [|done]; lia].
        rewrite Hs in Hi'. injection Hi' as <-.
        apply wf_wf_except in Hwf1.
        pose proof (wfe_slot _ _ Hwf1 _ _ _ Hs) as Hw. unfold slot_wf in Hw.
        rewrite Hty in Hw. unfold slot_kind. congruence. }
  simpl. intros _ w1 (h1 & -> & Hwf1 & Hm1 & He1 & Hf1). exists h1.
  split; [done|]. split; [done|]. split; [done|]. split; [|done].
  intros k i Hi. eapply He1; [|done].
  destruct (meta_lookup _ _ _ _ Hm1 Hx) as (x1 & Hx1 & Hmx).
  unfold gate_meta in Hmx. injection Hmx as Hic Hlen _ _ _.
  pose proof (wf_len _ Hwf1 _ _ Hx1) as Hlen1.
  apply slot_Some in Hi as (x1' & Hx1' & Hi). rewrite Hx1 in Hx1'.
  injection Hx1' as <-. apply lookup_lt_Some in Hi. lia.
Qed.

Lemma delete_outputs_frame fuel : forall w g o h0,
  wf (heap w) -> inputs_empty (heap w) g -> outs (heap w) g = Some o ->
  (length o <= fuel)%nat -> fades g h0 (heap w) ->
  post (delete_outputs fuel g) w (fun _ w' =>
    exists h', w' = set_heap h' w /\ wf h' /\
      (forall g', gate_meta <$> h' !! g' = gate_meta <$> heap w !! g') /\
      inputs_empty h' g /\ outs h' g = Some [] /\ fades g h0 h').
Proof.
  induction fuel as [|fuel IH]; intros w g o h0 Hwf He Ho Hfuel Hfd.
  - destruct o; [|simpl in Hfuel; lia].
    apply outs_Some in Ho as (x & Hx & Hxo). simpl. mbind.
    apply (post_deref _ _ x); [done|]. cbv beta. unfold darray_size.
    rewrite Hxo. simpl. apply post_ret. exists (heap w).
    split; [by destruct w|]. split; [done|]. split; [done|]. split; [done|].
    split; [|done]. apply outs_Some; eauto.
  - apply outs_Some in Ho as Ho'. destruct Ho' as (x & Hx & Hxo). simpl. mbind.
    apply (post_deref _ _ x); [done|]. cbv beta. unfold darray_size.
    rewrite Hxo. case_bool_decide as Hsz.
    + destruct (lookup_lt_is_Some_2 o (length o - 1)%nat) as [b Hb]; [lia|].
      mbind. apply (post_darray_back _ b); [done|].
      apply wf_wf_except in Hwf as Hwfe.
      assert (slot (heap w) (o_gate b) (o_ind b)
              = Some (InInfo (GatePtr g) NAND_GATE_INPUT (length o - 1))) as Hsb.
      { apply (wfe_orec _ _ Hwfe); [|tauto]. by rewrite orec_outs, Ho. }
      mbind. eapply post_mono.
      { eapply (nand_disconnect_nand_run (fun _ _ => False)); eauto. }
      simpl. intros _ w1 (h1 & -> & Hul).
      pose proof (unlinked_disconnected _ _ _ _ _ _ _ _ _
                    Hwfe (fun _ => id) Hsb Ho Hb Hul)
        as [Hwf1 Hm1 Hs1 Hk1 Ho1 Hf1].
      destruct (Hf1 g eq_refl eq_refl) as (o0 & o' & Ho0 & Ho' & Hlen).
      rewrite Ho in Ho0. injection Ho0 as <-.
      assert (inputs_empty h1 g) as He1.
      { intros k i Hi.
        destruct (decide (g = o_gate b /\ k = o_ind b)) as [[-> ->]|Hne].
        - rewrite Hi in Hs1. simpl in Hs1. congruence.
        - specialize (Hk1 g k Hne). rewrite Hi in Hk1.
          destruct (slot (heap w) g k) as [i0|] eqn:Hi0; [|done].
          assert (slot_kind i0 = (NULL, EMPTY_INPUT)) by (by eapply He).
          simpl in Hk1. congruence. }
      assert (fades g h0 h1) as Hfd1.
      { apply (fades_step g h0 (heap w) h1 (o_gate b) (o_ind b));
          [done| |done|done].
        right. unfold reads. by rewrite Hsb. }
      eapply post_mono.
      { apply (IH (set_heap h1 w) g o' h0); simpl; try done.
        - by apply wf_wf_except.
        - lia. }
      simpl. intros _ w2 (h2 & -> & Hwf2 & Hm2 & He2 & Ho2 & Hfd2).
      exists h2. split; [done|]. split; [done|]. split; [|done].
      by eapply meta_trans.
    + apply post_ret. exists (heap w). split; [by destruct w|].
      split; [done|]. split; [done|]. split; [done|]. split; [|done].
      destruct o; [done|simpl in Hsz; lia].
Qed.

Lemma slot_kind_delete h g T k :
  T <> g -> slot_kind <$> slot (delete g h) T k = slot_kind <$> slot h T k.
Proof. intros HT. by rewrite slot_delete, decide_False. Qed.

(** X8: [nand_delete] of a live gate [g] changes nothing of the other gates
    but their wiring to [g]: each keeps its arity, signal and critical path,
    a slot that read [g] is empty and every other slot reads what it read,
    and each consumer list has lost the records of the slots of [g] and is
    otherwise the same up to the order of its records. *)
Theorem delete_leaves_the_rest_wired w g :
  reachable w -> is_Some (heap w !! g) ->
  post (nand_delete (Some g)) w (fun _ w' =>
    errno w' = errno w /\ bools w' = bools w /\
    (forall T x, T <> g -> heap w !! T = Some x ->
       exists x', heap w' !! T = Some x' /\ gate_meta x' = gate_meta x) /\
    (forall T k, T <> g ->
       slot_kind <$> slot (heap w') T k =
       if decide (reads (heap w) T k g) then Some (NULL, EMPTY_INPUT)
       else slot_kind <$> slot (heap w) T k) /\
    (forall S o, S <> g -> outs (heap w) S = Some o ->
       exists o', outs (heap w') S = Some o' /\
                  o' ≡ₚ filter (fun r => o_gate r <> g) o)).
Proof.
  intros Hw Hg. destruct (reachable_stable w Hw) as [Hwf _].
  assert (post (nand_delete (Some g)) w (fun _ w' =>
            exists h2, w' = set_heap (delete g h2) w /\ wf h2 /\
              unreferenced h2 g /\
              (forall g', gate_meta <$> h2 !! g' = gate_meta <$> heap w !! g') /\
              fades g (heap w) h2)) as Hrun.
  { unfold nand_delete. mbind.
    eapply post_mono; [by apply delete_inputs_frame|].
    simpl. intros _ w1 (h1 & -> & Hwf1 & Hm1 & He1 & Hf1).
    destruct Hg as [x Hx].
    destruct (meta_lookup _ _ _ _ Hm1 Hx) as (x1 & Hx1 & _).
    mbind. apply (post_deref _ _ x1); [done|]. mbind.
    eapply post_mono.
    { eapply (delete_outputs_frame _ _ g (outputs x1) (heap w)); simpl; try done.
      apply outs_Some; eauto. }
    simpl. intros _ w2 (h2 & -> & Hwf2 & Hm2 & He2 & Ho2 & Hf2).
    apply post_free_gate.
    { simpl. apply outs_Some in Ho2 as (? & ? & _). eauto. }
    simpl. exists h2. split; [done|]. split; [done|].
    split; [by apply isolated_unreferenced|].
    split; [intros g'; by rewrite Hm2|done]. }
  eapply post_mono; [apply Hrun|].
  intros _ w' (h2 & -> & Hwf2 & Hu2 & Hm2 & Hf2). simpl.
  destruct (wf_free _ _ Hwf2 Hu2) as [Hwf' _].
  assert (forall T k, T <> g ->
            slot_kind <$> slot (delete g h2) T k =
            if decide (reads (heap w) T k g) then Some (NULL, EMPTY_INPUT)
            else slot_kind <$> slot (heap w) T k) as Hkind.
  { intros T k HT. rewrite slot_kind_delete by done.
    destruct (Hf2 T k HT) as [Heq|[Hr Heq]].
    - rewrite decide_False; [done|]. intros Hr. unfold reads in Hr.
      rewrite <- Heq in Hr. destruct (slot h2 T k) as [i|] eqn:Hi; [|done].
      destruct Hu2 as [_ Hu2]. apply (Hu2 _ _ _ Hi).
      simpl in Hr. unfold slot_kind in Hr. congruence.
    - by rewrite decide_True. }
  split; [done|]. split; [done|]. split; [|split; [done|]].
  - intros T x HT Hx. destruct (meta_lookup _ _ _ _ Hm2 Hx) as (x' & Hx' & Hmx).
    exists x'. split; [|done]. by rewrite lookup_delete_ne.
  - intros S o HS Ho.
    assert (is_Some (outs (delete g h2) S)) as [o' Ho'].
    { destruct (meta_outs _ _ _ _ Hm2 Ho) as [o2 Ho2].
      exists o2. unfold outs in *. by rewrite lookup_delete_ne. }
    exists o'. split; [done|].
    destruct (consumers_exact _ _ _ Hwf Ho) as [Hnd Hmem].
    destruct (consumers_exact _ _ _ Hwf' Ho') as [Hnd' Hmem'].
    apply NoDup_Permutation; [done|by apply NoDup_filter|].
    intros [T k]. rewrite Hmem', list_elem_of_filter, Hmem. simpl.
    destruct (decide (T = g)) as [->|HT].
    + split; [|tauto]. unfold reads. rewrite slot_delete, decide_True by done.
      done.
    + unfold reads at 1. rewrite (Hkind T k HT). split.
      * case_decide as Hr; [done|]. intros Hr'. split; done.
      * intros [_ Hr]. rewrite decide_False; [done|].
        unfold reads in *. rewrite Hr. intros [= ->]. done.
Qed.

Lemma delete_leaves_the_rest_wired_witness :
  post (nand_delete (Some 1%positive)) world_pair (fun _ w' =>
    errno w' = errno world_pair /\ bools w' = bools world_pair /\
    (forall T x, T <> 1%positive -> heap world_pair !! T = Some x ->
       exists x', heap w' !! T = Some x' /\ gate_meta x' = gate_meta x) /\
    (forall T k, T <> 1%positive ->
       slot_kind <$> slot (heap w') T k =
       if decide (reads (heap world_pair) T k 1%positive)
       then Some (NULL, EMPTY_INPUT)
       else slot_kind <$> slot (heap world_pair) T k) /\
    (forall S o, S <> 1%positive -> outs (heap world_pair) S = Some o ->
       exists o', outs (heap w') S = Some o' /\
                  o' ≡ₚ filter (fun r => o_gate r <> 1%positive) o)).
Proof.
  apply delete_leaves_the_rest_wired.
  - apply world_pair_reachable.
  - vm_compute. eauto.
Defined.

(** * What every call keeps of a gate *)

(** The call is a [nand_evaluate]. *)
Definition is_evaluate (c : call) : bool :=
  match c with
  | CallEvaluate _ _ => true
  | _ => false
  end.

(** What a call may change in a gate that it does not delete: the
    evaluation only the signal and the critical path, which does not become
    negative, and the other calls only the wiring. *)
Definition kept (c : call) (x x' : nand_t) : Prop :=
  input_count x' = input_count x /\
  length (inputs x') = length (inputs x) /\
  status x' = status x /\
  (crit_path_len x' = crit_path_len x \/ 0 <= crit_path_len x') /\
  if is_evaluate c
  then inputs x' = inputs x /\ outputs x' = outputs x
  else signal x' = signal x /\ crit_path_len x' = crit_path_len x.

Lemma kept_refl c x : kept c x x.
Proof. unfold kept. destruct (is_evaluate c); tauto. Qed.

Lemma kept_meta c x x' :
  is_evaluate c = false -> gate_meta x' = gate_meta x -> kept c x x'.
Proof.
  intros Hc [= H1 H2 H3 H4 H5]. unfold kept. rewrite Hc. tauto.
Qed.

(** A gate as [nand_new] makes it. *)
Definition new_gate (x : nand_t) : Prop :=
  exists n, x = Nand 0 (replicate n empty_input) [] n NOT_VISITED false.

(** Every gate of [h'] was in [h] and is kept, or is new. *)
Definition keeps (c : call) (h h' : gmap handle nand_t) : Prop :=
  forall g x', h' !! g = Some x' ->
    (exists x, h !! g = Some x /\ kept c x x') \/
    (h !! g = None /\ new_gate x').

Lemma keeps_refl c h : keeps c h h.
Proof. intros g x Hx. left. exists x. split; [done|apply kept_refl]. Qed.

Lemma keeps_meta c (h h' : gmap handle nand_t) :
  is_evaluate c = false ->
  (forall g, gate_meta <$> h' !! g = gate_meta <$> h !! g) ->
  keeps c h h'.
Proof.
  intros Hc Hm g x' Hx'. specialize (Hm g). rewrite Hx' in Hm.
  destruct (h !! g) as [x|]; [|done]. left. exists x. split; [done|].
  apply kept_meta; [done|]. simpl in Hm. congruence.
Qed.

Lemma call_keeps w c :
  stable (heap w) -> valid_call (heap w) c ->
  post (run_call c) w (fun _ w' => keeps c (heap w) (heap w')).
Proof.
  intros [Hwf Hnv] Hvalid.
  assert (forall w', heap w' = heap w -> keeps c (heap w) (heap w')) as Hsame.
  { intros w' ->. apply keeps_refl. }
  destruct c as [n|g|g_out g_in k|s g k|g k|gs s]; simpl.
  - (* nand_new *)
    mbind. eapply post_mono; [by apply nand_new_run|].
    intros r w' (_ & Hwf' & Hr). apply post_ret.
    destruct r as [g|]; [|destruct Hr as [Hh _]; by apply Hsame].
    destruct Hr as (Hg & _ & ->). intros g' x'. rewrite lookup_insert.
    case_decide as Heq.
    + subst g'. intros [= <-]. right. split; [done|]. by exists n.
    + intros Hx'. left. exists x'. split; [done|apply kept_refl].
  - (* nand_delete *)
    destruct g as [g|]; [|apply post_ret; by apply Hsame].
    eapply post_mono; [by apply nand_delete_run|].
    simpl. intros _ w' (h2 & -> & Hm & _) g' x'. simpl.
    rewrite lookup_delete. case_decide; [done|].
    by apply (keeps_meta _ (heap w) h2).
  - (* nand_connect_nand *)
    destruct g_out as [g_out|], g_in as [g_in|];
      try (msimple; by apply Hsame).
    destruct Hvalid as [Hout [gi Hgi]].
    destruct (decide (k < input_count gi)%nat) as [Hk|Hk].
    + mbind. eapply post_mono; [by eapply nand_connect_nand_run|].
      intros r w' (_ & Hwf' & Hm & _). apply post_ret.
      by apply keeps_meta.
    + unfold nand_connect_nand. mbind. apply (post_deref _ _ gi); [done|].
      cbv beta. rewrite bool_decide_eq_true_2 by lia.
      msimple; by apply Hsame.
  - (* nand_connect_signal *)
    destruct s as [s|], g as [g|];
      try (msimple; by apply Hsame).
    destruct Hvalid as [x Hx].
    destruct (decide (k < input_count x)%nat) as [Hk|Hk].
    + mbind. eapply post_mono; [by eapply nand_connect_signal_run|].
      intros r w' (_ & h' & -> & Hwf' & Hm & _). apply post_ret.
      by apply keeps_meta.
    + unfold nand_connect_signal. mbind. apply (post_deref _ _ x); [done|].
      cbv beta. rewrite bool_decide_eq_true_2 by lia.
      msimple; by apply Hsame.
  - (* nand_disconnect_input *)
    destruct Hvalid as (x & Hx & Hk).
    assert (is_Some (inputs x !! k)) as [i Hi].
    { apply lookup_lt_is_Some. by rewrite (wf_len _ Hwf _ _ Hx). }
    eapply post_mono.
    { apply (nand_disconnect_input_run (fun _ _ => False) _ g k i).
      - by apply wf_wf_except.
      - apply slot_Some. eauto.
      - tauto. }
    simpl. intros _ w' (h' & -> & [Hwf' Hm _ _ _ _]).
    by apply keeps_meta.
  - (* nand_evaluate *)
    unfold nand_evaluate.
    destruct gs as [gs|], s as [s|];
      try (msimple; by apply Hsame).
    case_bool_decide as Hlen.
    { msimple; by apply Hsame. }
    destruct (mapM id gs) as [req|] eqn:Hreq.
    2:{ msimple; by apply Hsame. }
    apply mapM_id_inv in Hreq as ->. destruct Hvalid as [Hlive Hbuf].
    rewrite length_fmap in Hbuf.
    mbind. eapply post_mono.
    { apply nand_evaluate_all_run; try done.
      intros g Hg. rewrite Forall_forall in Hlive. apply (Hlive (Some g)).
      by apply list_elem_of_fmap_2. }
    intros [l s'] w' (_ & _ & H). apply post_ret, post_ret. simpl in *.
    destruct H as [(_ & ord & sigs & _ & Hev)|(_ & _ & Hh & _)];
      [|by apply Hsame].
    intros g x' Hx'. left.
    pose proof (evaluated_shape _ _ _ _ _ _ _ Hev) as Hshape.
    destruct (same_shape_lookup _ _ _ _ (same_shape_sym _ _ Hshape) Hx')
      as (x & Hx & Hin & Hout & Hic & Hst).
    exists x. split; [done|].
    unfold kept. simpl. rewrite Hin. split; [done|]. split; [done|].
    split; [done|]. split; [|done].
    destruct (decide (g ∈ ord)) as [Hg|Hg].
    + right. pose proof (evaluated_crit_nonneg _ _ _ _ _ _ _ Hwf Hev g Hg) as Hc.
      unfold gate_crit in Hc. by rewrite Hx' in Hc.
    + left. pose proof (evaluated_untouched _ _ _ _ _ _ _ Hwf Hev g Hg) as Hu.
      rewrite Hx, Hx' in Hu. by injection Hu as ->.
Qed.

(** X9: no call within the contract changes the arity or the number of
    slots of a gate it does not delete; [nand_evaluate] leaves the slots and
    the consumer list of every gate as they are, and every other call leaves
    the signal and the critical path of every gate as they are. *)
Theorem every_call_keeps_arity_and_its_own_fields w c :
  reachable w -> valid_call (heap w) c ->
  post (run_call c) w (fun _ w' =>
    forall g x x', heap w !! g = Some x -> heap w' !! g = Some x' ->
      input_count x' = input_count x /\
      length (inputs x') = input_count x /\
      if is_evaluate c
      then inputs x' = inputs x /\ outputs x' = outputs x
      else signal x' = signal x /\ crit_path_len x' = crit_path_len x).
Proof.
  intros Hw Hc. pose proof (reachable_stable w Hw) as Hst.
  eapply post_mono; [by apply call_keeps|].
  intros [] w' Hk g x x' Hx Hx'.
  destruct (Hk g x' Hx') as [(y & Hy & Hic & Hlen & _ & _ & Hrest)|[Hy _]];
    [|congruence].
  rewrite Hx in Hy. injection Hy as <-.
  split; [done|]. split; [|done].
  destruct Hst as [Hwf _]. rewrite Hlen. by apply (wf_len _ Hwf g).
Qed.

Lemma every_call_keeps_arity_and_its_own_fields_witness :
  post (run_call (CallConnectSignal (Some 3%positive) (Some 2%positive) 0))
    world_pair (fun _ w' =>
    forall g x x', heap world_pair !! g = Some x -> heap w' !! g = Some x' ->
      input_count x' = input_count x /\
      length (inputs x') = input_count x /\
      if is_evaluate (CallConnectSignal (Some 3%positive) (Some 2%positive) 0)
      then inputs x' = inputs x /\ outputs x' = outputs x
      else signal x' = signal x /\ crit_path_len x' = crit_path_len x).
Proof.
  apply every_call_keeps_arity_and_its_own_fields.
  - apply world_pair_reachable.
  - vm_compute. eauto.
Defined.



(** * Further properties of the evaluator *)

Lemma mapM_id_None {A} (gs : list (option A)) :
  None ∈ gs -> mapM id gs = None.
Proof.
  intros Hin. destruct (mapM id gs) as [l|] eqn:Hl; [|done].
  apply mapM_id_inv in Hl as ->.
  by apply list_elem_of_fmap in Hin as (? & ? & _).
Qed.

(** X11: [nand_evaluate] returns [-1] with [errno = EINVAL], writes nothing
    to the buffer and touches no gate when the array of gates is null, the
    buffer is null, the array is empty, or one of the gates is null. *)
Theorem evaluate_rejects_bad_arguments w gs s :
  nand_evaluate None (Some s) w = Ret ((-1, Some s), set_errno_w EINVAL w) /\
  nand_evaluate (Some gs) None w = Ret ((-1, None), set_errno_w EINVAL w) /\
  nand_evaluate (Some []) (Some s) w
  = Ret ((-1, Some s), set_errno_w EINVAL w) /\
  (None ∈ gs ->
   nand_evaluate (Some gs) (Some s) w
   = Ret ((-1, Some s), set_errno_w EINVAL w)).
Proof.
  split; [done|]. split; [done|]. split; [done|].
  intros Hin. unfold nand_evaluate.
  case_bool_decide; [done|]. by rewrite mapM_id_None.
Qed.



(** In a list sorted by [sorted_topo], latest gate first, the sources of a
    gate come after it, and no gate is listed twice. *)
Lemma sorted_topo_sources h t :
  sorted_topo h t ->
  NoDup t /\
  forall l1 g l2, t = l1 ++ g :: l2 -> forall s, feeds h g s -> s ∈ l2.
Proof.
  induction 1 as [|g t x Hsorted [IHnd IH] Hnin Hx Hdone].
  { split; [apply NoDup_nil_2|]. by intros [|] ? ? ?. }
  split; [by apply NoDup_cons|].
  intros [|a l1] g' l2 Heq s Hfeeds; simpl in Heq.
  - injection Heq as <- <-.
    destruct Hfeeds as (y & k & i & Hy & Hi & Hty & Hptr).
    rewrite Hx in Hy. injection Hy as <-.
    destruct (Hdone _ _ Hi) as [_ Hs]. by destruct (Hs s Hty Hptr).
  - injection Heq as <- ->. by eapply IH.
Qed.

(** X13: [topo_sort] on live gates of a reachable store returns with the
    store as it found it.  When it returns [0] the stack lists the
    dependency closure of the request, every gate once and after all the
    gates whose output it reads; otherwise it returns [-1] with
    [errno = ENOMEM] after a failed allocation, or with [errno = ECANCELED]
    when the closure cannot be evaluated. *)
Theorem topo_sort_orders_the_closure w req :
  reachable w -> (forall g, g ∈ req -> is_Some (heap w !! g)) ->
  post (topo_sort req []) w (fun r w' =>
    heap w' = heap w /\ bools w' = bools w /\
    ((r.1 = 0 /\ errno w' = errno w /\ NoDup r.2 /\
      (forall g, g ∈ r.2 <-> in_closure (heap w) req g) /\
      (forall l1 g l2, r.2 = l1 ++ g :: l2 ->
         forall s, feeds (heap w) g s -> s ∈ l1)) \/
     (r.1 = -1 /\
      ((errno w' = ENOMEM /\ ~ alloc_ok w) \/
       (errno w' = ECANCELED /\ ~ evaluable (heap w) req))))).
Proof.
  intros Hw Hlive. destruct (reachable_stable w Hw) as [Hwf Hnv].
  eapply post_mono; [by apply (topo_sort_run (heap w) Hwf req Hlive w)|].
  intros [rc ord] w' (Hb & _ & Hh & H). simpl in *.
  split; [done|]. split; [done|].
  destruct H as [(-> & He & Hsorted & Hreq & Hcl)|H]; [left|by right].
  split; [done|]. split; [done|].
  destruct (sorted_topo_sources _ _ Hsorted) as [Hnd Hsrc].
  split; [by rewrite reverse_Permutation in Hnd|].
  split.
  - intros g. split; [by apply Hcl|]. intros Hg. apply elem_of_reverse.
    apply (closure_closed (heap w) (fun g => g ∈ reverse ord)
             (rank_of (reverse ord)) req g); [|intros r Hr|done].
    + by apply sorted_topo_acyclic.
    + apply elem_of_reverse. by apply Hreq.
  - intros l1 g l2 -> s Hfeeds. apply elem_of_reverse.
    apply (Hsrc (reverse l2) g (reverse l1)); [|done].
    by rewrite reverse_app, reverse_cons, <- app_assoc.
Qed.

Lemma topo_sort_orders_the_closure_witness :
  post (topo_sort [2%positive] []) world_pair (fun r w' =>
    heap w' = heap world_pair /\ bools w' = bools world_pair /\
    ((r.1 = 0 /\ errno w' = errno world_pair /\ NoDup r.2 /\
      (forall g, g ∈ r.2 <-> in_closure (heap world_pair) [2%positive] g) /\
      (forall l1 g l2, r.2 = l1 ++ g :: l2 ->
         forall s, feeds (heap world_pair) g s -> s ∈ l1)) \/
     (r.1 = -1 /\
      ((errno w' = ENOMEM /\ ~ alloc_ok world_pair) \/
       (errno w' = ECANCELED /\ ~ evaluable (heap world_pair) [2%positive]))))).
Proof.
  apply topo_sort_orders_the_closure; [apply world_pair_reachable|].
  intros g ->%list_elem_of_singleton. vm_compute. eauto.
Defined.

(** * When the evaluation succeeds *)



Section depth.
Local Open Scope nat_scope.
Variable h : gmap handle nand_t.
Hypothesis Hwf : wf h.



















End depth.





(** * Values left by earlier evaluations *)

(** X15: the outcome of [nand_evaluate] is a function of the wiring and of
    the external booleans only.  Two reachable stores with the same wiring
    and the same external booleans, whatever signals and critical paths
    earlier evaluations left in their gates, give the same value and the
    same buffer when no allocation fails. *)
Theorem evaluate_ignores_stale_values w1 w2 req s :
  reachable w1 -> reachable w2 ->
  same_shape (heap w1) (heap w2) -> bools w1 = bools w2 ->
  request_ok (heap w1) req s -> alloc_ok w1 -> alloc_ok w2 ->
  post (evaluate req s) w1 (fun r1 _ =>
    post (evaluate req s) w2 (fun r2 _ => r2 = r1)).
Proof.
  intros Hw1 Hw2 Hshape Hb Hreq Ha1 Ha2.
  destruct (reachable_stable w1 Hw1) as [Hwf1 Hnv1].
  destruct (reachable_stable w2 Hw2) as [Hwf2 Hnv2].
  assert (request_ok (heap w2) req s) as Hreq2.
  { destruct Hreq as (Hlive & Hne & Hlen). split; [|done].
    intros g Hg. apply (same_shape_live (heap w1)); auto. }
  eapply post_mono; [by apply (evaluate_cases w1 req s)|].
  intros [l1 o1] w1' (_ & _ & Hcase1).
  eapply post_mono; [by apply (evaluate_cases w2 req s)|].
  intros [l2 o2] w2' (_ & _ & Hcase2). simpl in *.
  destruct Hcase1 as [(_ & _ & ord1 & -> & Hev1)|(-> & -> & _ & Herr1)].
  - assert (evaluable (heap w2) req) as Hable.
    { apply (evaluable_same_shape (heap w1)); [done|].
      by eapply evaluated_evaluable. }
    destruct Hcase2 as [(_ & _ & ord2 & -> & Hev2)|(_ & _ & _ & [[_ ?]|[_ ?]])];
      [|done..].
    rewrite <- Hb in Hev2.
    assert (forall g, g ∈ req ->
              gate_signal (heap w1') g = gate_signal (heap w2') g /\
              gate_crit (heap w1') g = gate_crit (heap w2') g) as Hagree.
    { intros g Hg.
      apply (evaluated_agree (bools w1) (heap w1) (heap w1) (heap w2)
               req req ord1 ord2 _ _ l1 l2 _ _ Hwf1 Hwf2
               (same_shape_refl _) Hshape Hev1 Hev2).
      - by apply (evaluated_requested _ _ _ _ _ _ _ Hev1).
      - by apply (evaluated_requested _ _ _ _ _ _ _ Hev2). }
    rewrite (ev_crit _ _ _ _ _ _ _ Hev1), (ev_crit _ _ _ _ _ _ _ Hev2).
    assert (gate_signal (heap w2') <$> req = gate_signal (heap w1') <$> req)
      as ->.
    { apply list_fmap_ext. intros _ g Hg%list_elem_of_lookup_2.
      symmetry. by apply Hagree. }
    assert (gate_crit (heap w2') <$> req = gate_crit (heap w1') <$> req)
      as ->; [|done].
    apply list_fmap_ext. intros _ g Hg%list_elem_of_lookup_2.
    symmetry. by apply Hagree.
  - destruct Herr1 as [[_ ?]|[_ Hnev]]; [done|].
    destruct Hcase2 as [(_ & _ & ord2 & _ & Hev2)|(-> & -> & _)]; [|done].
    exfalso. apply Hnev.
    apply (evaluable_same_shape (heap w2)); [by apply same_shape_sym|].
    by eapply evaluated_evaluable.
Qed.

(** [world_pair] after an evaluation of gate 2: the same wiring, with the
    signals and critical paths the evaluation has left. *)
Definition world_pair_evaluated : world :=
  run_calls (pair_calls ++ [CallEvaluate (Some [Some 2%positive]) (Some [false])])
    world0.

Lemma world_pair_evaluated_reachable : reachable world_pair_evaluated.
Proof.
  apply reachable_run_calls; [apply world0_reachable|].
  vm_compute. repeat split; eauto.
Qed.

Lemma world_pair_evaluated_shape :
  same_shape (heap world_pair) (heap world_pair_evaluated) /\
  gate_crit (heap world_pair_evaluated) 2%positive = 2 /\
  gate_crit (heap world_pair) 2%positive = 0.
Proof.
  split; [|by vm_compute].
  intros g. rewrite <- !lookup_fmap. f_equal.
Qed.

Lemma evaluate_ignores_stale_values_witness :
  post (evaluate [2%positive] [false]) world_pair (fun r1 _ =>
    post (evaluate [2%positive] [false]) world_pair_evaluated
      (fun r2 _ => r2 = r1)).
Proof.
  apply evaluate_ignores_stale_values.
  - apply world_pair_reachable.
  - apply world_pair_evaluated_reachable.
  - apply world_pair_evaluated_shape.
  - by vm_compute.
  - split; [|split; [done|simpl; lia]].
    intros g ->%list_elem_of_singleton. vm_compute. eauto.
  - apply world_pair_alloc_ok.
  - by vm_compute; constructor.
Defined.

(** * Connecting and disconnecting again *)

(** X16: [nand_connect_nand] into an empty slot followed by
    [nand_disconnect_input] of that slot gives back the wiring: every slot
    reads what it read, every consumer list holds the records it held, in
    some order, and no gate has changed its arity, status, signal or
    critical path. *)
Theorem connect_then_disconnect_restores_the_wiring w g_out g_in k gi i :
  reachable w -> heap w !! g_in = Some gi -> inputs gi !! k = Some i ->
  i_type i = EMPTY_INPUT -> is_Some (heap w !! g_out) ->
  post (nand_connect_nand (Some g_out) (Some g_in) k) w (fun r w1 =>
    r = 0 ->
    post (nand_disconnect_input g_in k) w1 (fun _ w2 =>
      errno w2 = errno w /\
      (forall T k', slot_kind <$> slot (heap w2) T k'
                    = slot_kind <$> slot (heap w) T k') /\
      (forall S o, outs (heap w) S = Some o ->
         exists o2, outs (heap w2) S = Some o2 /\ o2 ≡ₚ o) /\
      (forall g x, heap w !! g = Some x ->
         exists x2, heap w2 !! g = Some x2 /\ gate_meta x2 = gate_meta x))).
Proof.
  intros Hw Hgi Hi Hty Hgo. destruct (reachable_stable w Hw) as [Hwf _].
  assert (k < input_count gi)%nat as Hk.
  { rewrite <- (wf_len _ Hwf _ _ Hgi). by eapply lookup_lt_Some. }
  assert (slot (heap w) g_in k = Some i) as Hs by (apply slot_Some; eauto).
  assert (slot_kind i = (NULL, EMPTY_INPUT)) as Hki.
  { pose proof (wf_slot _ Hwf _ _ _ Hs) as Hsw. unfold slot_wf in Hsw.
    rewrite Hty in Hsw. unfold slot_kind. by rewrite Hsw, Hty. }
  eapply post_mono; [by apply (nand_connect_nand_run w g_out g_in k gi)|].
  intros r w1 (_ & Hwf1 & Hm1 & H) ->.
  destruct H as [(_ & He1 & [j Hj] & Hkind1)|(? & _)]; [|done].
  eapply post_mono.
  { apply (nand_disconnect_input_run (fun _ _ => False) w1 g_in k
             (InInfo (GatePtr g_out) NAND_GATE_INPUT j));
      [by apply wf_wf_except|done|tauto]. }
  intros _ w2 (h2 & -> & [Hwf2 Hm2 Hslot2 Hkind2 _ _]). simpl.
  apply wf_wf_except in Hwf2.
  assert (forall T k', slot_kind <$> slot h2 T k'
                       = slot_kind <$> slot (heap w) T k') as Hkind.
  { intros T k'. destruct (decide (T = g_in /\ k' = k)) as [[-> ->]|Hne].
    - rewrite Hslot2, Hs. simpl. by rewrite Hki.
    - rewrite Hkind2 by done. by apply Hkind1. }
  assert (forall g, gate_meta <$> h2 !! g = gate_meta <$> heap w !! g) as Hm.
  { intros g. by rewrite Hm2. }
  split; [done|]. split; [done|]. split.
  - intros S o Ho. destruct (meta_outs _ _ _ _ Hm Ho) as [o2 Ho2].
    exists o2. split; [done|].
    pose proof (rewired (heap w) h2 g_in k S o o2 Hwf Hwf2
                  (fun T k' _ => Hkind T k') Ho Ho2) as Hperm.
    rewrite decide_False in Hperm.
    + rewrite filter_not_elem in Hperm; [done|].
      destruct (consumers_exact _ _ _ Hwf Ho) as [_ Hmem]. rewrite Hmem.
      unfold reads. rewrite Hs. simpl. by rewrite Hki.
    + unfold reads. by rewrite Hslot2.
  - intros g x Hx. by apply (meta_lookup (heap w) h2).
Qed.

Lemma connect_then_disconnect_restores_the_wiring_witness :
  post (nand_connect_nand (Some 1%positive) (Some 1%positive) 0) world_open
    (fun r w1 =>
    r = 0 ->
    post (nand_disconnect_input 1%positive 0) w1 (fun _ w2 =>
      errno w2 = errno world_open /\
      (forall T k', slot_kind <$> slot (heap w2) T k'
                    = slot_kind <$> slot (heap world_open) T k') /\
      (forall S o, outs (heap world_open) S = Some o ->
         exists o2, outs (heap w2) S = Some o2 /\ o2 ≡ₚ o) /\
      (forall g x, heap world_open !! g = Some x ->
         exists x2, heap w2 !! g = Some x2 /\ gate_meta x2 = gate_meta x))).
Proof.
  apply (connect_then_disconnect_restores_the_wiring world_open 1%positive
           1%positive 0%nat (Nand 0 [empty_input] [] 1 NOT_VISITED false)
           empty_input).
  - apply world_open_reachable.
  - by vm_compute.
  - done.
  - done.
  - vm_compute. eauto.
Defined.

(** * Every call returns *)



From stdpp Require Import strings sorting.
Open Scope Z_scope.

(** * The medal table that follows the gates in [examples/nand.c]

    The second program of the file keeps, for every country it has seen, how
    many medals of each of three kinds the country holds, and prints
    rankings.  A [std::unordered_map] is a [gmap], a [std::vector] is a list,
    a [medal_array_t] is a [list Z] of three counts, [score_t] is [Z] (the
    embedding assumes that no score leaves the range of [int_least64_t]),
    and an index outside a vector or an array has no defined outcome: the
    function is [None]. *)

Definition NUM_MEDALS : nat := 3.

(** The three variables [main] passes around. *)
Record table := Table {
  country_ids : gmap string nat;
  medals : list (list Z);
  country_names : list string
}.

Definition empty_table : table := Table ∅ [] [].

(** [medals[country_id][j] = f (medals[country_id][j])]. *)
Definition update_medal (country_id j : nat) (f : Z -> Z) (t : table)
  : option table :=
  row ← medals t !! country_id;
  c ← row !! j;
  Some (Table (country_ids t)
              (<[country_id := <[j := f c]> row]> (medals t))
              (country_names t)).

(** The insertion of [add_medal] for a country that is not in the table:
    the next index in [country_ids], a row of zeros in [medals] and the name
    in [country_names]. *)
Definition registered (name : string) (t : table) : table :=
  Table (<[name := length (country_names t)]> (country_ids t))
        (medals t ++ [replicate NUM_MEDALS 0])
        (country_names t ++ [name]).

Definition add_medal (country_name : string) (medal_type : Z) (t : table)
  : option table :=
  let t1 :=
    match country_ids t !! country_name with
    | Some _ => t
    | None => registered country_name t
    end in
  country_id ← country_ids t1 !! country_name;
  if bool_decide (0 < medal_type)
  then update_medal country_id (Z.to_nat (medal_type - 1)) (fun c => c + 1) t1
  else Some t1.



















(** ** The ranking *)

(** [score += medals[i][j] * weights[j]] for the three kinds of medal. *)
Definition score (weights row : list Z) : option Z :=
  foldl (fun acc j => s ← acc; m ← row !! j; w ← weights !! j; Some (s + m * w))
        (Some 0) (seq 0 NUM_MEDALS).

(** The comparator of the sort: the larger score first and, for equal
    scores, the smaller name first. *)
Definition ranks_before (a b : Z * string) : bool :=
  bool_decide (b.1 < a.1) || (bool_decide (a.1 = b.1) && String.ltb a.2 b.2).

(** What the comparator tells the sort: [a] is not to be placed after [b]. *)
Definition ranks_le (a b : Z * string) : Prop := ¬ ranks_before b a.

Global Instance ranks_le_dec a b : Decision (ranks_le a b).
Proof. unfold ranks_le. apply _. Defined.

(** [std::sort] with that comparator returns the elements ordered so that no
    element is to be placed before an earlier one; merging is one way to get
    there. *)
Definition sort_ranking (l : list (Z * string)) : list (Z * string) :=
  merge_sort ranks_le l.

(** The loop that prints: [i] is the index, [prev_score] the score of the
    line before and [rank] its rank; a printed line is a rank and a name. *)
Fixpoint ranking_lines (i : nat) (prev_score : Z) (rank : nat)
    (l : list (Z * string)) : list (nat * string) :=
  match l with
  | [] => []
  | (sc, name) :: l' =>
      let rank := if bool_decide (sc ≠ prev_score) then (i + 1)%nat else rank in
      (rank, name) :: ranking_lines (S i) sc rank l'
  end.

Definition print_ranking (weights : list Z) (medals : list (list Z))
    (country_names : list string) : option (list (nat * string)) :=
  scores_and_countries ←
    mapM (fun i => row ← medals !! i;
                   sc ← score weights row;
                   name ← country_names !! i;
                   Some (sc, name))
         (seq 0 (length medals));
  Some (ranking_lines 0 0 1 (sort_ranking scores_and_countries)).





Lemma not_ltb_leb s1 s2 : String.ltb s2 s1 = false <-> String.leb s1 s2 = true.
Proof.
  unfold String.ltb, String.leb. rewrite (String.compare_antisym s2 s1).
  destruct (String.compare s1 s2); simpl; split; congruence.
Qed.

Lemma ranks_le_spec a b :
  ranks_le a b <-> b.1 < a.1 \/ (a.1 = b.1 /\ String.le a.2 b.2).
Proof.
  unfold ranks_le, ranks_before, String.le.
  assert (String.leb a.2 b.2 = negb (String.ltb b.2 a.2)) as ->.
  { destruct (String.ltb b.2 a.2) eqn:E; simpl; [|by apply not_ltb_leb].
    destruct (String.leb a.2 b.2) eqn:E'; [|done].
    apply not_ltb_leb in E'. congruence. }
  destruct (String.ltb b.2 a.2); repeat case_bool_decide; simpl;
    intuition lia.
Qed.

Global Instance ranks_le_total : Total ranks_le.
Proof.
  intros a b. rewrite !ranks_le_spec.
  destruct (Z.lt_trichotomy a.1 b.1) as [?|[?|?]];
    [right; left; lia| |left; left; lia].
  destruct (total String.le a.2 b.2);
    [left; right; split; [lia|done]|right; right; split; [lia|done]].
Qed.

Global Instance ranks_le_trans : Transitive ranks_le.
Proof.
  intros a b c. rewrite !ranks_le_spec.
  intros [?|[? Hab]] [?|[? Hbc]]; try (left; lia).
  right. split; [lia|]. by etrans.
Qed.

















(** A run: four countries, of which two end with the same score. *)
Example medal_table_run :
  (t ← add_medal "Poland" 1 empty_table; t ← add_medal "Chile" 1 t;
   t ← add_medal "Brazil" 2 t; t ← add_medal "Austria" 0 t;
   t ← add_medal "Poland" 3 t;
   print_ranking [1; 1; 1] (medals t) (country_names t))
  = Some [(1%nat, "Poland"); (2%nat, "Brazil"); (2%nat, "Chile");
          (4%nat, "Austria")].
Proof. by vm_compute. Qed.
